(** * Doxydown index loader: a shallow embedding of [Doxygen.cpp]

    The loader reads [index.xml], builds the tree of documented entities
    in three passes over the kind/refid multimap, drops stale top-level
    entries after each pass and finally fills the refid cache.

    Nodes live on the C++ heap and are shared through [std::shared_ptr]
    and raw [Node*] back-references, so the embedding keeps an explicit
    store of nodes addressed by pointer; the cache and every [children]
    sequence hold addresses, not copies.

    The renderer of [Renderer.cpp] is embedded beside it, with the inja
    environment and the JSON values it works on left abstract.

    The file has two parts: the definitions (the code of [Doxygen.cpp]
    and [Renderer.cpp], the model of what they call, the vocabulary of the
    statements and the concrete inputs), then the lemmas and theorems. *)

From stdpp Require Import base option list strings gmap.

Local Open Scope string_scope.
Local Open Scope list_scope.
Local Open Scope nat_scope.

(** * Definitions *)

(** ** Exceptions, results and the log *)

(** What a [catch (std::exception& e)] can see.  The two macros of
    [Exception.hpp] keep their format string and arguments; the Xml
    accessor and [Node::parse] raise exceptions of their own. *)
Inductive exception : Type :=
  | DOXYGEN_EXCEPTION (fmt : string) (args : list string)
  | EXCEPTION (fmt : string) (args : list string)
  | XmlError (what : string)
  | ParseError (what : string).

(** The ways a call can end: it returns, it throws, an [assert] stops the
    process, or the recursion never comes back. *)
Inductive result (A : Type) : Type :=
  | Return (a : A)
  | Throw (e : exception)
  | AssertionFailed
  | NoReturn.
Arguments Return {A} a.
Arguments Throw {A} e.
Arguments AssertionFailed {A}.
Arguments NoReturn {A}.

(** The address of a node: what a [NodePtr] or a raw [Node*] holds. *)
Abbreviation NodePtr := nat.

Inductive logarg : Type :=
  | Text (s : string)
  | What (e : exception).

(** The log written through [WARNING], interleaved with the calls the
    loader makes into [Node] and into its own helpers, in program order.
    The calls are recorded so that their order can be stated. *)
Inductive event : Type :=
  | WARNING (fmt : string) (args : list logarg)
  | call_Node_parse (refid : string) (recurseMembers : bool)
  | call_cleanup (node : NodePtr)
  | call_getIndexCache (parent : NodePtr)
  | call_Node_finalize (node : NodePtr).

(** ** The Xml accessor *)

(** Modelled from the spec: the element type of [Xml.hpp], which is not
    among the sources.  An element has a name, attributes and child
    elements. *)
#[warnings="-register-all"]
Inductive Element : Type :=
  | Elem (name : string) (attrs : list (string * string)) (elems : list Element).

Definition Name (e : Element) : string := let 'Elem n _ _ := e in n.
Definition Attrs (e : Element) : list (string * string) := let 'Elem _ a _ := e in a.
Definition Elems (e : Element) : list Element := let 'Elem _ _ c := e in c.

(** The child elements called [name], in document order: what a loop
    from [firstChildElement(name)] along [nextSiblingElement(name)] visits. *)
Definition allChildElements (name : string) (elems : list Element) : list Element :=
  filter (λ e, Name e = name) elems.

(** Modelled from the spec: [firstChildElement(name)]; the null element
    is [None]. *)
Definition firstChildElement (name : string) (elems : list Element) : option Element :=
  head (allChildElements name elems).

Fixpoint assoc (name : string) (attrs : list (string * string)) : option string :=
  match attrs with
  | [] => None
  | (k, v) :: rest => if decide (k = name) then Some v else assoc name rest
  end.

(** Modelled from the spec: [getAttr(name)], which fails with a missing
    attribute error when the attribute is absent. *)
Definition getAttr (name : string) (e : Element) : exception + string :=
  match assoc name (Attrs e) with
  | Some v => inr v
  | None => inl (XmlError name)
  end.

(** ** Nodes and the store *)

Inductive Kind : Type :=
  | NAMESPACE | CLASS | STRUCT | INTERFACE | FUNCTION | VARIABLE
  | TYPEDEF | ENUM | GROUP | DIR | FILE.

(** Modelled from the spec: the fields of [Node] ([Node.hpp] is not among
    the sources) that the loader reads and writes.  [kind] is [None] for
    the sentinel root, which has no semantic kind; [parent] is the raw
    back-reference, [None] for [nullptr]. *)
Record Node : Type := mkNode {
  refid : string;
  kind : option Kind;
  children : list NodePtr;
  parent : option NodePtr
}.

(** The heap: the node at each address.  Nodes are never taken out of
    it; a node that no [shared_ptr] holds any more is simply not reached. *)
Abbreviation Store := (list Node).
(** The cache has [at], so it is a map with one value for each key. *)
Abbreviation NodeCacheMap := (gmap string NodePtr).
(** The multimap as the sequence of its insertions. *)
Abbreviation KindRefidMap := (list (string * string)).

Definition set_children (c : list NodePtr) (n : Node) : Node :=
  mkNode (refid n) (kind n) c (parent n).
Definition set_parent (p : option NodePtr) (n : Node) : Node :=
  mkNode (refid n) (kind n) (children n) p.

(** A write through the pointer [p].  The loader only writes through
    pointers to live nodes; at an address that holds no node the store
    stays as it is. *)
Definition update (p : NodePtr) (f : Node → Node) (s : Store) : Store :=
  match s !! p with
  | Some n => <[p := f n]> s
  | None => s
  end.

(** [children.push_back(child)] on the node at [p]. *)
Definition push_back (p child : NodePtr) (s : Store) : Store :=
  update p (λ n, set_children (children n ++ [child]) n) s.

Definition children_of (s : Store) (p : NodePtr) : list NodePtr :=
  from_option children [] (s !! p).
Definition parent_of (s : Store) (p : NodePtr) : option NodePtr :=
  s !! p ≫= parent.
Definition kind_of (s : Store) (p : NodePtr) : option Kind := s !! p ≫= kind.
Definition refid_at (s : Store) (p : NodePtr) : option string := refid <$> s !! p.
Definition refid_of (s : Store) (p : NodePtr) : string :=
  from_option refid EmptyString (s !! p).

(** [cache.insert(std::make_pair(k, v))] on a [std::unordered_map]: an
    existing entry is kept. *)
Definition cache_insert (k : string) (v : NodePtr) (c : NodeCacheMap) : NodeCacheMap :=
  match c !! k with
  | Some _ => c
  | None => <[k := v]> c
  end.

(** The loader object together with the heap it points into and the log. *)
Record Doxygen : Type := mkDoxygen {
  index : NodePtr;
  inputDir : string;
  cache : NodeCacheMap;
  nodes : Store;
  trace : list event
}.

(** [Doxygen::Doxygen(path)]: a fresh root node called "index". *)
Definition Doxygen_new (path : string) : Doxygen :=
  mkDoxygen 0 path ∅ [mkNode "index" None [] None] [].

Definition with_nodes (s : Store) (d : Doxygen) : Doxygen :=
  mkDoxygen (index d) (inputDir d) (cache d) s (trace d).
Definition with_cache (c : NodeCacheMap) (d : Doxygen) : Doxygen :=
  mkDoxygen (index d) (inputDir d) c (nodes d) (trace d).
Definition emit (e : event) (d : Doxygen) : Doxygen :=
  mkDoxygen (index d) (inputDir d) (cache d) (nodes d) (trace d ++ [e]).

(** ** The three kind filters *)

Definition isKindAllowedLanguage (kind : string) : bool :=
  bool_decide (kind ∈ ["namespace"; "class"; "struct"; "interface";
                       "function"; "variable"; "typedef"; "enum"]).

Definition isKindAllowedGroup (kind : string) : bool :=
  bool_decide (kind = "group").

Definition isKindAllowedDirs (kind : string) : bool :=
  bool_decide (kind = "dir") || bool_decide (kind = "file").

(** ** Sequencing of calls that may not return *)

Definition bind {A B : Type} (r : result A) (k : A → result B) : result B :=
  match r with
  | Return a => k a
  | Throw e => Throw e
  | AssertionFailed => AssertionFailed
  | NoReturn => NoReturn
  end.

Fixpoint foldM {A B : Type} (f : A → B → result A) (a : A) (l : list B) : result A :=
  match l with
  | [] => Return a
  | b :: l => bind (f a b) (λ a, foldM f a l)
  end.

(** The same for a traversal whose only way to fail is to run out of depth. *)
Fixpoint fold_opt {A B : Type} (f : A → B → option A) (a : A) (l : list B) : option A :=
  match l with
  | [] => Some a
  | b :: l => f a b ≫= λ a, fold_opt f a l
  end.

(** The same for a traversal whose steps may also fail: the first step
    that does not return ends the loop. *)
Fixpoint fold_res {A B : Type} (f : A → B → option (result A)) (a : A) (l : list B)
  : option (result A) :=
  match l with
  | [] => Some (Return a)
  | b :: l => match f a b with
              | Some (Return a) => fold_res f a l
              | other => other
              end
  end.

(** ** The loader *)

(** What each pass of [load] does with the node a parse returned:
    [index->children.push_back(...)], then the back-reference is set to
    the root when it is still null. *)
Definition attach (root child : NodePtr) (s : Store) : Store :=
  let s := push_back root child s in
  match parent_of s child with
  | None => update child (set_parent (Some root)) s
  | Some _ => s
  end.

Section Loader.

(** Whether the build defines [NDEBUG], which turns [assert] into nothing. *)
Variable NDEBUG : bool.
(** [Path::join]. *)
Variable Path_join : string → string → string.
(** [Xml xml(path)]: the top-level elements of the document at [path],
    or the exception of a file that cannot be read. *)
Variable Xml_open : string → exception + list Element.
(** The order in which a range-for visits a [std::unordered_multimap]
    that received the given insertions. *)
Variable iteration : KindRefidMap → list (string * string).
(** [Node::parse(cache, inputDir, refid, recurseMembers)]: it may
    allocate and link nodes and fill the cache before it returns the
    new node or throws. *)
Variable Node_parse :
  Store → NodeCacheMap → string → string → bool →
  Store * NodeCacheMap * (exception + NodePtr).
(** Modelled from the spec: [Node::finalize(config, printer, cache)] of
    [Node.cpp], which is not among the sources.  It fills the detail
    payload of the node, which the store does not hold, and looks other
    nodes up in the cache; it leaves the links of the tree as they are.
    Like any call it may throw, stop at an [assert] or not come back. *)
Variable Node_finalize : Store → NodeCacheMap → NodePtr → result unit.

(** One turn of the [while (compound)] loop of [getIndexKinds]. *)
Definition read_compound (acc : KindRefidMap * list event) (compound : Element)
  : result (KindRefidMap * list event) :=
  let '(map, log) := acc in
  match getAttr "kind" compound with
  | inl e => Return (map, log ++ [WARNING "compound error {}" [What e]])
  | inr kind =>
      match getAttr "refid" compound with
      | inl e => Return (map, log ++ [WARNING "compound error {}" [What e]])
      | inr refid =>
          if NDEBUG || negb (String.eqb refid EmptyString)
          then Return (map ++ [(kind, refid)], log)
          else AssertionFailed
      end
  end.

(** [Doxygen::getIndexKinds]: the multimap, with the warnings logged on
    the way. *)
Definition getIndexKinds (d : Doxygen) : result (KindRefidMap * list event) :=
  let indexPath := Path_join (inputDir d) "index.xml" in
  match Xml_open indexPath with
  | inl e => Throw e
  | inr xml =>
      match firstChildElement "doxygenindex" xml with
      | None =>
          Throw (DOXYGEN_EXCEPTION "Unable to find root element in file {}" [indexPath])
      | Some root =>
          match firstChildElement "compound" (Elems root) with
          | None =>
              Throw (DOXYGEN_EXCEPTION "No <compound> element in file {}" [indexPath])
          | Some _ =>
              foldM read_compound ([], []) (allChildElements "compound" (Elems root))
          end
      end
  end.

(** The lambda [cleanup] of [load]: erase from [node]'s children every
    entry whose back-reference is not [node]. *)
Definition cleanup (node : NodePtr) (s : Store) : Store :=
  update node
    (λ n, set_children (filter (λ c, parent_of s c = Some node) (children n)) n) s.

(** The body shared by the three [for (const auto& pair : kindRefidMap)]
    loops of [load], for one pair. *)
Definition construct (allowed : string → bool) (recurseMembers : bool)
    (d : Doxygen) (pair : string * string) : Doxygen :=
  if negb (allowed pair.1) then d
  else match cache d !! pair.2 with
       | Some _ => d
       | None =>
           let d := emit (call_Node_parse pair.2 recurseMembers) d in
           match Node_parse (nodes d) (cache d) (inputDir d) pair.2 recurseMembers with
           | (s, c, inr child) =>
               mkDoxygen (index d) (inputDir d) c (attach (index d) child s) (trace d)
           | (s, c, inl e) =>
               emit (WARNING "Failed to parse member {} error: {}" [Text pair.2; What e])
                    (mkDoxygen (index d) (inputDir d) c s (trace d))
           end
       end.

(** One of the three loops. *)
Definition pass (allowed : string → bool) (recurseMembers : bool)
    (kindRefidMap : KindRefidMap) (d : Doxygen) : Doxygen :=
  fold_left (construct allowed recurseMembers) (iteration kindRefidMap) d.

(** [cleanup(index)]. *)
Definition run_cleanup (d : Doxygen) : Doxygen :=
  with_nodes (cleanup (index d) (nodes d)) (emit (call_cleanup (index d)) d).

(** [Doxygen::getIndexCache], with the recursion depth bounded by [fuel].
    The children are shared pointers and so always live; an address
    without a node is passed over. *)
Fixpoint getIndexCache (fuel : nat) (s : Store) (cache : NodeCacheMap)
    (parent : NodePtr) : option NodeCacheMap :=
  match fuel with
  | 0 => None
  | S fuel =>
      fold_opt
        (λ cache child,
           match s !! child with
           | Some n => getIndexCache fuel s (cache_insert (refid n) child cache) child
           | None => Some cache
           end)
        cache (children_of s parent)
  end.

(** The state of [load] after the first, second and third cleanup. *)
Definition after_language (m : KindRefidMap) (d : Doxygen) : Doxygen :=
  run_cleanup (pass isKindAllowedLanguage false m d).
Definition after_groups (m : KindRefidMap) (d : Doxygen) : Doxygen :=
  run_cleanup (pass isKindAllowedGroup true m (after_language m d)).
Definition after_dirs (m : KindRefidMap) (d : Doxygen) : Doxygen :=
  run_cleanup (pass isKindAllowedDirs true m (after_groups m d)).

(** [getIndexCache(cache, index)] as [load] calls it.  A descent deeper
    than the number of nodes has met a node twice and goes on for ever. *)
Definition rebuild_cache (d : Doxygen) : result Doxygen :=
  let d := emit (call_getIndexCache (index d)) d in
  match getIndexCache (length (nodes d)) (nodes d) (cache d) (index d) with
  | Some c => Return (with_cache c d)
  | None => NoReturn
  end.

(** [Doxygen::load]. *)
Definition load (d : Doxygen) : result Doxygen :=
  bind (getIndexKinds d) (λ '(kindRefidMap, warnings),
    rebuild_cache
      (after_dirs kindRefidMap
         (mkDoxygen (index d) (inputDir d) (cache d) (nodes d) (trace d ++ warnings)))).

(** [Doxygen::finalizeRecursively], with the recursion depth bounded by
    [fuel]: for each child, [child->finalize(...)] and then the descent.
    Nothing is caught here, so whatever ends [Node::finalize] other than
    a return ends the traversal. *)
Fixpoint finalizeRecursively (fuel : nat) (d : Doxygen) (node : NodePtr)
  : option (result Doxygen) :=
  match fuel with
  | 0 => None
  | S fuel =>
      fold_res
        (λ d child,
           let d := emit (call_Node_finalize child) d in
           match Node_finalize (nodes d) (cache d) child with
           | Return _ => finalizeRecursively fuel d child
           | Throw e => Some (Throw e)
           | AssertionFailed => Some AssertionFailed
           | NoReturn => Some NoReturn
           end)
        d (children_of (nodes d) node)
  end.

(** [Doxygen::finalize].  As in [rebuild_cache], a descent deeper than
    the number of nodes goes on for ever. *)
Definition finalize (d : Doxygen) : result Doxygen :=
  match finalizeRecursively (length (nodes d)) d (index d) with
  | Some r => r
  | None => NoReturn
  end.

(** [Doxygen::find]. *)
Definition find (d : Doxygen) (refid : string) : result NodePtr :=
  match cache d !! refid with
  | Some p => Return p
  | None => Throw (EXCEPTION "Failed to find node from cache by refid {}" [refid])
  end.

End Loader.

(** ** The renderer *)

(** [templates.insert(std::make_pair(k, v))] on a map with unique keys:
    an entry that is there already is kept. *)
Definition templates_insert {V : Type} (k : string) (v : V) (m : gmap string V)
  : gmap string V :=
  match m !! k with
  | Some _ => m
  | None => <[k := v]> m
  end.

(** The files written and the lines logged through [Log::i]. *)
Record Output : Type := mkOutput {
  files : gmap string string;
  Log_i : list (string * list string)
}.

Section Renderer.

(** [inja::Template], [nlohmann::json] and the state of the
    [inja::Environment] that [env] points to. *)
Context {Template json Environment : Type}.

(** [e.what()]. *)
Variable what : exception → string.
(** [Path::join]. *)
Variable Path_join : string → string → string.
(** Whether [std::fstream file(path, std::ios::out)] can open [path]. *)
Variable fstream_open : string → bool.
(** The environment the constructor leaves behind: a new
    [inja::Environment] with the nine callbacks added and both block
    trimmings switched off. *)
Variable Environment_new : Environment.
(** [env->parse(src)]: the parsed template, or how the call failed;
    parsing can load the files a template includes into the environment. *)
Variable Environment_parse : Environment → string → Environment * result Template.
(** [env->include_template(name, tmpl)]. *)
Variable Environment_include_template : Environment → string → Template → Environment.
(** [env->render_to(os, tmpl, data)]: the text written to [os] and the
    way the call ended.  The [render] callback that the constructor adds
    looks templates up in the renderer, so a rendering depends on the
    templates the renderer holds as well. *)
Variable Environment_render_to :
  gmap string Template → Environment → Template → json → string * result unit.

(** The members of the renderer as [Renderer.cpp] uses them: the output
    directory of [config], the environment behind [env], and [templates],
    a map from names to templates with one entry for each name (its
    [insert] hands back the position of the entry, and [find] one entry). *)
Record Renderer : Type := mkRenderer {
  outputDir : string;
  env : Environment;
  templates : gmap string Template
}.

(** [Renderer::Renderer(config)]. *)
Definition Renderer_new (config_outputDir : string) : Renderer :=
  mkRenderer config_outputDir Environment_new ∅.

(** [Renderer::addTemplate].  The entry [it] that [insert] returns is the
    one found under [name] afterwards, be it new or old; its template is
    the one handed to [include_template]. *)
Definition addTemplate (r : Renderer) (name src : string) : Renderer * result unit :=
  match Environment_parse (env r) src with
  | (e, Return tmpl) =>
      let templates' := templates_insert name tmpl (templates r) in
      let it := default tmpl (templates' !! name) in
      (mkRenderer (outputDir r) (Environment_include_template e name it) templates',
       Return tt)
  | (e, Throw x) =>
      (mkRenderer (outputDir r) e (templates r),
       Throw (EXCEPTION "Failed to parse template '{}' error {}" [name; what x]))
  | (e, AssertionFailed) => (mkRenderer (outputDir r) e (templates r), AssertionFailed)
  | (e, NoReturn) => (mkRenderer (outputDir r) e (templates r), NoReturn)
  end.

(** What [render] makes of the end of [render_to]. *)
Definition rendered {A : Type} (name : string) (a : A) (end_ : result unit) : result A :=
  match end_ with
  | Return _ => Return a
  | Throw e => Throw (EXCEPTION "Failed to render template '{}' error {}" [name; what e])
  | AssertionFailed => AssertionFailed
  | NoReturn => NoReturn
  end.

(** [Renderer::render(name, data)], which returns the text. *)
Definition render (r : Renderer) (name : string) (data : json) : result string :=
  match templates r !! name with
  | None => Throw (EXCEPTION "Template {} not found" [name])
  | Some tmpl =>
      let '(text, end_) := Environment_render_to (templates r) (env r) tmpl data in
      rendered name text end_
  end.

(** [Renderer::render(name, path, data)], which writes a file.  Opening
    the file empties it, and what [render_to] wrote before it threw
    stays in the file. *)
Definition render_file (r : Renderer) (o : Output) (name path : string) (data : json)
  : Output * result unit :=
  match templates r !! name with
  | None => (o, Throw (EXCEPTION "Template {} not found" [name]))
  | Some tmpl =>
      let absPath := Path_join (outputDir r) path in
      if fstream_open absPath then
        let '(text, end_) := Environment_render_to (templates r) (env r) tmpl data in
        (mkOutput (<[absPath := text]> (files o)) (Log_i o ++ [("Rendering {}", [absPath])]),
         rendered name tt end_)
      else (o, Throw (EXCEPTION "Failed to open file for writing {}" [absPath]))
  end.

(** A sequence of [addTemplate] calls whose exceptions the caller catches. *)
Definition addTemplates (r : Renderer) (l : list (string * string)) : Renderer :=
  fold_left (λ r p, (addTemplate r p.1 p.2).1) l r.

(** *** The callbacks the constructor adds *)

(** [get<std::string>()], which throws on a value that is no string. *)
Variable get_string : json → result string.
(** The values a loop from [begin()] to [end()] visits. *)
Variable items : json → list json.
(** [at(key)], which throws when there is no such member. *)
Variable at_key : json → string → result json.
(** [operator==] between a value and a [std::string]. *)
Variable equals_string : json → string → bool.
(** What [std::vector::at] throws. *)
Variable out_of_range : exception.

(** [args.at(i)]. *)
Definition args_at (args : list json) (i : nat) : result json :=
  match args !! i with
  | Some a => Return a
  | None => Throw out_of_range
  end.

(** The callback [countProperty].  The counter is an [int]; it stays
    below the number of elements. *)
Definition countProperty (args : list json) : result nat :=
  bind (args_at args 0) (λ arr,
  bind (bind (args_at args 1) get_string) (λ key,
  bind (bind (args_at args 2) get_string) (λ value,
    foldM (λ count obj,
             bind (at_key obj key) (λ val,
               Return (if equals_string val value then S count else count)))
          0 (items arr)))).

(** The callback [countProperty2]; [&&] does not look at the second
    member when the first comparison fails. *)
Definition countProperty2 (args : list json) : result nat :=
  bind (args_at args 0) (λ arr,
  bind (bind (args_at args 1) get_string) (λ key0,
  bind (bind (args_at args 2) get_string) (λ value0,
  bind (bind (args_at args 3) get_string) (λ key1,
  bind (bind (args_at args 4) get_string) (λ value1,
    foldM (λ count obj,
             bind (at_key obj key0) (λ val0,
               if equals_string val0 value0
               then bind (at_key obj key1) (λ val1,
                      Return (if equals_string val1 value1 then S count else count))
               else Return count))
          0 (items arr)))))).

(** The callback [queryProperty]; the array it returns is given by its
    elements. *)
Definition queryProperty (args : list json) : result (list json) :=
  bind (args_at args 0) (λ arr,
  bind (bind (args_at args 1) get_string) (λ key,
  bind (bind (args_at args 2) get_string) (λ value,
    foldM (λ ret obj,
             bind (at_key obj key) (λ val,
               Return (if equals_string val value then ret ++ [obj] else ret)))
          [] (items arr)))).

(** The callback [queryProperty2]. *)
Definition queryProperty2 (args : list json) : result (list json) :=
  bind (args_at args 0) (λ arr,
  bind (bind (args_at args 1) get_string) (λ key0,
  bind (bind (args_at args 2) get_string) (λ value0,
  bind (bind (args_at args 3) get_string) (λ key1,
  bind (bind (args_at args 4) get_string) (λ value1,
    foldM (λ ret obj,
             bind (at_key obj key0) (λ val0,
               if equals_string val0 value0
               then bind (at_key obj key1) (λ val1,
                      Return (if equals_string val1 value1 then ret ++ [obj] else ret))
               else Return ret))
          [] (items arr)))))).

(** Whether the member [key] of [obj] can be read and equals [value]. *)
Definition has_property (key value : string) (obj : json) : bool :=
  match at_key obj key with
  | Return val => equals_string val value
  | _ => false
  end.

End Renderer.

(** ** Per-entity documents and [Node::parse] *)

(** Modelled from the spec: what [Node::parse] takes from the document
    of one entity, namely its kind, the compounds it declares and the
    members it declares, by refid. *)
Record EntityDoc : Type := mkDoc {
  doc_kind : Kind;
  doc_compounds : list string;
  doc_members : list string
}.

(** Modelled from the spec: whether nobody but the root holds [child]
    yet, that is, its back-reference is null or points to the node
    without a semantic kind. *)
Definition unowned (s : Store) (child : NodePtr) : bool :=
  match parent_of s child with
  | None => true
  | Some q => match s !! q with
              | Some n => bool_decide (kind n = None)
              | None => false
              end
  end.

(** Modelled from the spec: the caller of a parse takes the child into
    its own [children] and becomes its parent, unless another entity owns
    the child already. *)
Definition adopt (p child : NodePtr) (s : Store) : Store :=
  if unowned s child
  then update child (set_parent (Some p)) (push_back p child s)
  else s.

(** Modelled from the spec: the children of the entity at [p], one after
    the other.  A child that is in the cache is taken from there, any
    other is parsed by [rec].  A parse that fails is caught by its caller
    for that entity alone: the child is left out and the loop goes on
    with the next one.  Only running out of nesting ends the loop. *)
Fixpoint parse_children
    (rec : Store → NodeCacheMap → string → Store * NodeCacheMap * option (exception + NodePtr))
    (p : NodePtr) (l : list string) (s : Store) (c : NodeCacheMap)
  : Store * NodeCacheMap * option (exception + NodePtr) :=
  match l with
  | [] => (s, c, Some (inr p))
  | m :: l =>
      match c !! m with
      | Some child => parse_children rec p l (adopt p child s) c
      | None =>
          match rec s c m with
          | (s, c, Some (inr child)) => parse_children rec p l (adopt p child s) c
          | (s, c, Some (inl _)) => parse_children rec p l s c
          | (s, c, None) => (s, c, None)
          end
      end
  end.

(** Modelled from the spec: [Node::parse] of [Node.cpp], which is not
    among the sources.  It loads the document of [refid] (a missing or
    malformed one throws), creates the node and enters it in the cache,
    and recursively parses each declared child that is not in the cache
    yet; member declarations are expanded only with [recurseMembers].  A
    child already owned by another entity keeps its first position, and a
    child whose own document is missing or malformed is left out.  The
    nesting of the recursion is bounded by [fuel]; [None] stands for
    running out of it. *)
Fixpoint parse_fuel (docs : gmap string EntityDoc) (fuel : nat)
    (s : Store) (c : NodeCacheMap) (refid : string) (recurseMembers : bool)
  : Store * NodeCacheMap * option (exception + NodePtr) :=
  match fuel with
  | 0 => (s, c, None)
  | S fuel =>
      match docs !! refid with
      | None => (s, c, Some (inl (ParseError refid)))
      | Some doc =>
          let p := length s in
          parse_children
            (λ s c m, parse_fuel docs fuel s c m recurseMembers) p
            (doc_compounds doc ++ if recurseMembers then doc_members doc else [])
            (s ++ [mkNode refid (Some (doc_kind doc)) [] None])
            (cache_insert refid p c)
      end
  end.

(** Modelled from the spec: [Node::parse] over the documents [docs] of
    the input directory.  Each nested parse enters a refid of [docs] that
    the cache lacked, so the nesting never exceeds the number of
    documents by more than one; [Node_parse_spec_fuel] below shows that
    the last case is never taken in a load. *)
Definition Node_parse_spec (docs : gmap string EntityDoc)
    (s : Store) (c : NodeCacheMap) (inputDir refid : string) (recurseMembers : bool)
  : Store * NodeCacheMap * (exception + NodePtr) :=
  match parse_fuel docs (S (S (size docs))) s c refid recurseMembers with
  | (s, c, Some r) => (s, c, r)
  | (s, c, None) => (s, c, inl (ParseError "nesting"))
  end.

(** ** Reading the tree *)

(** The refids of the children of [p], in order. *)
Definition child_refids (d : Doxygen) (p : NodePtr) : list string :=
  refid_of (nodes d) <$> children_of (nodes d) p.

(** Ownership: [q] stands in the [children] sequence of [p]. *)
Definition owns (s : Store) (p q : NodePtr) : Prop := q ∈ children_of s p.

(** The nodes of the tree: the proper descendants of the root. *)
Definition in_tree (d : Doxygen) (q : NodePtr) : Prop :=
  tc (owns (nodes d)) (index d) q.

(** The proper descendants of [p] in depth-first order, parents first. *)
Fixpoint preorder (fuel : nat) (s : Store) (p : NodePtr) : option (list NodePtr) :=
  match fuel with
  | 0 => None
  | S fuel =>
      fold_opt (λ acc child, match s !! child with
                             | Some _ => (λ l, acc ++ child :: l) <$> preorder fuel s child
                             | None => Some acc
                             end)
               [] (children_of s p)
  end.

(** The refids of the tree in depth-first order. *)
Definition tree_refids (d : Doxygen) : option (list string) :=
  (λ l : list NodePtr, refid_of (nodes d) <$> l)
    <$> preorder (length (nodes d)) (nodes d) (index d).

(** The cache after inserting the nodes of [l] in turn. *)
Definition cache_fill (s : Store) (c : NodeCacheMap) (l : list NodePtr) : NodeCacheMap :=
  foldl (λ c q, cache_insert (refid_of s q) q c) c l.

#[warnings="-register-all"]
Inductive Tree : Type :=
  | T (label : string) (kids : list Tree).

(** The tree below [p] with the refids as labels. *)
Fixpoint subtree (fuel : nat) (s : Store) (p : NodePtr) : option Tree :=
  match fuel with
  | 0 => None
  | S fuel => T (refid_of s p) <$> mapM (subtree fuel s) (children_of s p)
  end.

Definition tree_of (d : Doxygen) : option Tree :=
  subtree (length (nodes d)) (nodes d) (index d).

(** The tree a load returned with. *)
Definition loaded_tree (r : result Doxygen) : option Tree :=
  match r with Return d => tree_of d | _ => None end.

(** Two trees are isomorphic when the roots carry the same refid and the
    children correspond one to one, in whatever order, to isomorphic
    children. *)
#[warnings="-register-all"]
Inductive tree_iso : Tree → Tree → Prop :=
  | tree_iso_node r ks ks' ks'' :
      ks' ≡ₚ ks'' → Forall2 tree_iso ks ks'' → tree_iso (T r ks) (T r ks').

(** ** The vocabulary of the statements *)

(** The events one construction pass may add: calls of [Node::parse] with
    the flag of the pass, and warnings about a failed parse, each for the
    refid of an entry of [m] whose kind the pass accepts. *)
Definition pass_event (allowed : string → bool) (recurseMembers : bool)
    (m : list (string * string)) (e : event) : Prop :=
  ∃ k r, (k, r) ∈ m ∧ allowed k = true ∧
         (e = call_Node_parse r recurseMembers ∨
          ∃ x, e = WARNING "Failed to parse member {} error: {}" [Text r; What x]).


(** The entries a pass accepts. *)
Definition accepted (allowed : string → bool) (l : list (string * string))
  : list (string * string) :=
  filter (λ pr, allowed pr.1 = true) l.

(** The kinds some pass accepts. *)
Definition in_some_pass (k : string) : Prop :=
  isKindAllowedLanguage k = true ∨ isKindAllowedGroup k = true ∨ isKindAllowedDirs k = true.

(** Every node holds its place in one children sequence only, once, and
    the nodes of the tree hang below the root without a cycle. *)
Definition strict_forest (d : Doxygen) : Prop :=
  (∀ p p' q, owns (nodes d) p q → owns (nodes d) p' q → p = p')
  ∧ (∀ p, NoDup (children_of (nodes d) p))
  ∧ (∀ q, in_tree d q → (∃ p, owns (nodes d) p q) ∧ ¬ tc (owns (nodes d)) q q).

(** The entry a [compound] element adds to the multimap; it adds none
    when [kind] or [refid] cannot be read. *)
Definition entry_of (compound : Element) : option (string * string) :=
  match getAttr "kind" compound, getAttr "refid" compound with
  | inr kind, inr refid => Some (kind, refid)
  | _, _ => None
  end.

Definition is_compound_error (e : event) : Prop :=
  ∃ x, e = WARNING "compound error {}" [What x].

(** Whether [e] is a call of [Node::parse] for [refid]. *)
Definition is_parse_of (refid : string) (e : event) : bool :=
  match e with
  | call_Node_parse r _ => bool_decide (r = refid)
  | _ => false
  end.

(** How often a trace calls [Node::parse] for [refid]. *)
Definition parse_calls (refid : string) (t : list event) : nat :=
  length (filter (λ e, is_parse_of refid e = true) t).

(** How many entries with [refid] a pass with the filter [allowed] accepts. *)
Definition listed (allowed : string → bool) (refid : string)
    (m : list (string * string)) : nat :=
  length (filter (λ pr, pr.2 = refid ∧ allowed pr.1 = true) m).

(** The kinds that one of the three passes accepts. *)
Definition isKindAllowed (kind : string) : bool :=
  isKindAllowedLanguage kind || isKindAllowedGroup kind || isKindAllowedDirs kind.

(** The loader after [Node::finalize] was called on the nodes of [l] in turn. *)
Definition finalized (d : Doxygen) (l : list NodePtr) : Doxygen :=
  mkDoxygen (index d) (inputDir d) (cache d) (nodes d)
            (trace d ++ (call_Node_finalize <$> l)).

(** [Node::finalize] called on the nodes of [l] in turn, up to the first
    call that does not return. *)
Definition finalize_each (Node_finalize : Store → NodeCacheMap → NodePtr → result unit)
    (d : Doxygen) (l : list NodePtr) : result Doxygen :=
  foldM (λ d q, let d := emit (call_Node_finalize q) d in
                bind (Node_finalize (nodes d) (cache d) q) (λ _, Return d))
        d l.

(** [Node::finalize] returns on [q]. *)
Definition finalizes (Node_finalize : Store → NodeCacheMap → NodePtr → result unit)
    (d : Doxygen) (q : NodePtr) : Prop :=
  ∃ u, Node_finalize (nodes d) (cache d) q = Return u.

(** *** The stages of a load, by what they leave behind *)






(** *** What the documents declare *)

(** The refids a document declares as children: its compounds, and its
    members when they are expanded. *)
Definition declared (recurseMembers : bool) (doc : EntityDoc) : list string :=
  doc_compounds doc ++ if recurseMembers then doc_members doc else [].

(** The document of [r] declares [m]. *)
Definition declares (docs : gmap string EntityDoc) (recurseMembers : bool)
    (r m : string) : Prop :=
  ∃ doc, docs !! r = Some doc ∧ m ∈ declared recurseMembers doc.



(** The refids a pass makes nodes for, when it starts with nodes for the
    refids [old]: the entries it accepts, and what these declare, as far
    as there is a document and no node yet. *)
Inductive reach (docs : gmap string EntityDoc) (old : string → Prop)
    (allowed : string → bool) (recurseMembers : bool) (l : list (string * string))
  : string → Prop :=
  | reach_entry k r :
      (k, r) ∈ l → allowed k = true → is_Some (docs !! r) → ¬ old r →
      reach docs old allowed recurseMembers l r
  | reach_declared r' r :
      reach docs old allowed recurseMembers l r' →
      declares docs recurseMembers r' r → is_Some (docs !! r) → ¬ old r →
      reach docs old allowed recurseMembers l r.

(** The refids of one pass, with the flag of the pass. *)
Definition level : Type := (string → Prop) * bool.

(** The refids the three passes of [load] make nodes for, over the
    multimap [m]. *)
Definition made_language (docs : gmap string EntityDoc) (m : KindRefidMap) : string → Prop :=
  reach docs (λ _, False) isKindAllowedLanguage false m.
Definition made_groups (docs : gmap string EntityDoc) (m : KindRefidMap) : string → Prop :=
  reach docs (made_language docs m) isKindAllowedGroup true m.
Definition made_dirs (docs : gmap string EntityDoc) (m : KindRefidMap) : string → Prop :=
  reach docs (λ r, made_language docs m r ∨ made_groups docs m r) isKindAllowedDirs true m.

Definition levels (docs : gmap string EntityDoc) (m : KindRefidMap) : list level :=
  [(made_language docs m, false); (made_groups docs m, true); (made_dirs docs m, true)].

(** The refids that the passes [levels] made. *)
Definition known (levels : list level) (r : string) : Prop := ∃ lv, lv ∈ levels ∧ lv.1 r.

(** No two refids that a pass made declare, under the flag of the pass,
    the same documented child. *)
Definition sole_owner (docs : gmap string EntityDoc) (lv : level) : Prop :=
  ∀ r r' x, lv.1 r → lv.1 r' → declares docs lv.2 r x → declares docs lv.2 r' x →
            is_Some (docs !! x) → r = r'.

(** No two entities that [load] constructs in the same pass declare a
    common child. *)
Definition no_shared_child (docs : gmap string EntityDoc) (m : KindRefidMap) : Prop :=
  sole_owner docs (made_language docs m, false)
  ∧ sole_owner docs (made_groups docs m, true)
  ∧ sole_owner docs (made_dirs docs m, true).

(** ** Invariants of the store *)

(** What holds of the store and the cache at every moment of a load that
    starts from a fresh loader: the root is the node without kind and
    without parent; a node that stands among the children of an entity
    has that entity as its parent; no children sequence repeats a node;
    the cache and the nodes other than the root correspond one to one
    through the refid. *)
Record wf (s : Store) (c : NodeCacheMap) : Prop := mkWf {
  wf_root : 0 < length s ∧ kind_of s 0 = None ∧ parent_of s 0 = None;
  wf_kind : ∀ p, p ≠ 0 → p < length s → kind_of s p ≠ None;
  wf_owner : ∀ p q, p ≠ 0 → q ∈ children_of s p → parent_of s q = Some p ∧ q ≠ 0;
  wf_nodup : ∀ p, NoDup (children_of s p);
  wf_top : ∀ q, q ∈ children_of s 0 → q ≠ 0 ∧ q < length s;
  wf_cache : ∀ r p, c !! r = Some p → p ≠ 0 ∧ refid_at s p = Some r;
  wf_cached : ∀ p r, p ≠ 0 → refid_at s p = Some r → c !! r = Some p
}.

(** After a cleanup the children of the root point back to the root too. *)
Definition tidy (s : Store) : Prop :=
  ∀ q, q ∈ children_of s 0 → parent_of s q = Some 0.

(** The loader points at the root of a well-formed store. *)
Definition wfd (d : Doxygen) : Prop := index d = 0 ∧ wf (nodes d) (cache d).

(** A parse only adds nodes and cache entries and leaves the root alone. *)
Definition grows (s : Store) (c : NodeCacheMap) (s' : Store) (c' : NodeCacheMap) : Prop :=
  length s ≤ length s' ∧ c ⊆ c' ∧ s' !! 0 = s !! 0.

(** What a parse of an uncached refid guarantees. *)
Definition parse_ok (s : Store) (c : NodeCacheMap)
    (out : Store * NodeCacheMap * option (exception + NodePtr)) : Prop :=
  wf out.1.1 out.1.2 ∧ grows s c out.1.1 out.1.2
  ∧ ∀ q, out.2 = Some (inr q) → q = length s ∧ q < length out.1.1.

(** The refids that have a document and are not in the cache yet bound
    the nesting that is still possible. *)
Definition pending (docs : gmap string EntityDoc) (c : NodeCacheMap) : nat :=
  size (dom docs ∖ dom c).

(** Only refids that have a document get into the cache. *)
Definition documented (docs : gmap string EntityDoc) (c : NodeCacheMap) : Prop :=
  ∀ r, is_Some (c !! r) → is_Some (docs !! r).

(** A descending path: each node stands among the children of the one before. *)
Fixpoint chain (s : Store) (p : NodePtr) (l : list NodePtr) : Prop :=
  match l with
  | [] => True
  | q :: l => owns s p q ∧ chain s q l
  end.

(** The contribution of one child to the traversal of its parent. *)
Definition visit (fuel : nat) (s : Store) (child : NodePtr) (part : list NodePtr) : Prop :=
  match s !! child with
  | Some _ => ∃ l, preorder fuel s child = Some l ∧ part = child :: l
  | None => part = []
  end.

(** Every entry of a children sequence is the address of a node, as a
    [shared_ptr] is. *)
Definition live_children (s : Store) : Prop :=
  ∀ p q, owns s p q → is_Some (s !! q).

(** No node stands in two children sequences. *)
Definition one_owner (s : Store) : Prop :=
  ∀ p p' q, owns s p q → owns s p' q → p = p'.

(** *** Inside and between the passes *)

(** An entity, not the root, is the parent of [q]. *)
Definition owned (s : Store) (q : NodePtr) : Prop :=
  ∃ x, parent_of s q = Some x ∧ x ≠ 0.

(** The node a back-reference names lists the node among its children. *)
Definition linked (s : Store) : Prop :=
  ∀ q p, parent_of s q = Some p → q ∈ children_of s p.

(** From [s] to [s'] no node changed its refid and no node left an
    entity that was its parent. *)
Definition keeps (s s' : Store) : Prop :=
  (∀ q, q < length s → refid_at s' q = refid_at s q)
  ∧ (∀ q x, parent_of s q = Some x → x ≠ 0 → parent_of s' q = Some x).

(** Why a pass that started with [n0] nodes may parse [m] when the store
    is [s]: the pass accepts an entry for it, or a node made in this pass
    declares it. *)
Definition wanted (docs : gmap string EntityDoc) (recurseMembers : bool)
    (allowed : string → bool) (l : list (string * string)) (n0 : nat)
    (s : Store) (bound : nat) (m : string) : Prop :=
  (∃ k, (k, m) ∈ l ∧ allowed k = true)
  ∨ (∃ P, n0 ≤ P ∧ P < bound ∧ declares docs recurseMembers (refid_of s P) m).

(** What holds inside a pass over the entries [l] that started from the
    store [s0]: besides [wf], every back-reference is matched by a
    children entry; a node without parent is one of [loose]; a node made
    in this pass and not among [open], the nodes under construction, has
    each documented child it declares in the cache and owned; each node
    made in this pass was wanted; and an entity that is the parent of a
    node was so before the pass or was made in it and declares the node. *)
Record pinv (docs : gmap string EntityDoc) (recurseMembers : bool)
    (allowed : string → bool) (l : list (string * string)) (s0 : Store)
    (s : Store) (c : NodeCacheMap) (open loose : list NodePtr) : Prop := mkPinv {
  pi_wf : wf s c;
  pi_len : length s0 ≤ length s;
  pi_doc : documented docs c;
  pi_link : linked s;
  pi_orphan : ∀ q, q ≠ 0 → q < length s → parent_of s q = None → q ∈ loose;
  pi_closed : ∀ P r doc m,
      length s0 ≤ P → P ∉ open → refid_at s P = Some r → docs !! r = Some doc →
      m ∈ declared recurseMembers doc → is_Some (docs !! m) →
      ∃ q, c !! m = Some q ∧ owned s q;
  pi_origin : ∀ q, length s0 ≤ q → q < length s →
      wanted docs recurseMembers allowed l (length s0) s q (refid_of s q);
  pi_parent : ∀ q x, parent_of s q = Some x → x ≠ 0 →
      parent_of s0 q = Some x
      ∨ (length s0 ≤ x ∧ declares docs recurseMembers (refid_of s x) (refid_of s q))
}.

(** What a parse of the uncached refid [m] guarantees inside a pass. *)
Definition parse_post (docs : gmap string EntityDoc) (recurseMembers : bool)
    (allowed : string → bool) (l : list (string * string)) (s0 : Store)
    (s : Store) (c : NodeCacheMap) (open loose : list NodePtr) (m : string)
    (out : Store * NodeCacheMap * option (exception + NodePtr)) : Prop :=
  match out with
  | (s', c', Some (inr p)) =>
      p = length s ∧ is_Some (docs !! m) ∧ c' !! m = Some p
      ∧ pinv docs recurseMembers allowed l s0 s' c' open (p :: loose)
      ∧ grows s c s' c' ∧ keeps s s'
  | (s', c', Some (inl _)) => docs !! m = None ∧ s' = s ∧ c' = c
  | (_, _, None) => True
  end.

(** What holds of the store between the passes: besides [wf], the root
    is tidy, every back-reference is matched by a children entry, and
    every node but the root has a parent. *)
Record settled (docs : gmap string EntityDoc) (s : Store) (c : NodeCacheMap) : Prop :=
  mkSettled {
  st_wf : wf s c;
  st_tidy : tidy s;
  st_doc : documented docs c;
  st_link : linked s;
  st_parent : ∀ q, q ≠ 0 → q < length s → parent_of s q ≠ None
}.

(** What holds after the passes that made the refids [levels]: the
    cache holds exactly these refids; each documented child that a refid
    of a pass declares under the flag of the pass is owned; and the parent
    of an owned node belongs to the first pass that has a refid declaring
    the node, and declares it. *)
Record ginv (docs : gmap string EntityDoc) (levels : list level)
    (s : Store) (c : NodeCacheMap) : Prop := mkGinv {
  g_settled : settled docs s c;
  g_cached : ∀ r, is_Some (c !! r) ↔ ∃ lv, lv ∈ levels ∧ lv.1 r;
  g_closed : ∀ lv r m, lv ∈ levels → lv.1 r → declares docs lv.2 r m → is_Some (docs !! m) →
                       ∃ q, c !! m = Some q ∧ owned s q;
  g_parent : ∀ q x, parent_of s q = Some x → x ≠ 0 →
      ∃ i lv, levels !! i = Some lv ∧ lv.1 (refid_of s x)
              ∧ declares docs lv.2 (refid_of s x) (refid_of s q)
              ∧ ∀ j lv' r', j < i → levels !! j = Some lv' → lv'.1 r' →
                            ¬ declares docs lv'.2 r' (refid_of s q)
}.

(** The nodes of two stores that stand for the same entity: the two
    roots, or the nodes the two caches hold for one refid. *)
Definition same_entity (c c' : NodeCacheMap) (q q' : NodePtr) : Prop :=
  (q = 0 ∧ q' = 0) ∨ ∃ r, c !! r = Some q ∧ c' !! r = Some q'.

(** ** Concrete inputs *)

(** One class, one group that declares the class, one file. *)
Module Scenario.

Definition index_xml : list Element :=
  [Elem "doxygenindex" []
     [Elem "compound" [("refid", "C1"); ("kind", "class")] [];
      Elem "compound" [("refid", "G1"); ("kind", "group")] [];
      Elem "compound" [("refid", "F1"); ("kind", "file")] []]].

Definition docs : gmap string EntityDoc :=
  {[ "C1" := mkDoc CLASS [] [];
     "G1" := mkDoc GROUP ["C1"] [];
     "F1" := mkDoc FILE [] [] ]}.

Definition Path_join (a b : string) : string := a +:+ "/" +:+ b.

Definition loaded : result Doxygen :=
  load true Path_join (λ _, inr index_xml) id (Node_parse_spec docs) (Doxygen_new "xml").

End Scenario.

(** Two groups that declare the same class. *)
Module TwoGroups.

Definition doxygenindex (first second : string) : Element :=
  Elem "doxygenindex" []
    [Elem "compound" [("refid", first); ("kind", "group")] [];
     Elem "compound" [("refid", second); ("kind", "group")] []].

Definition index_xml (first second : string) : list Element :=
  [doxygenindex first second].

Definition docs : gmap string EntityDoc :=
  {[ "C1" := mkDoc CLASS [] [];
     "G1" := mkDoc GROUP ["C1"] [];
     "G2" := mkDoc GROUP ["C1"] [] ]}.

(** The load with the multimap iterated in document order. *)
Definition loaded (first second : string) : result Doxygen :=
  load true Scenario.Path_join (λ _, inr (index_xml first second)) id
       (Node_parse_spec docs) (Doxygen_new "xml").

End TwoGroups.

(** A class that a namespace and a group both declare. *)
Module Precedence.

Definition index_xml : list Element :=
  [Elem "doxygenindex" []
     [Elem "compound" [("refid", "G1"); ("kind", "group")] [];
      Elem "compound" [("refid", "C1"); ("kind", "class")] [];
      Elem "compound" [("refid", "N1"); ("kind", "namespace")] []]].

Definition docs : gmap string EntityDoc :=
  {[ "C1" := mkDoc CLASS [] [];
     "N1" := mkDoc NAMESPACE ["C1"] [];
     "G1" := mkDoc GROUP ["C1"] [] ]}.

Definition loaded : result Doxygen :=
  load true Scenario.Path_join (λ _, inr index_xml) id (Node_parse_spec docs)
       (Doxygen_new "xml").

End Precedence.

Module Stale.

(** A store in which the node 1 lists the node 2 among its children
    although the back-reference of 2 names the root. *)
Definition d : Doxygen :=
  mkDoxygen 0 "xml" ∅
    [mkNode "index" None [1; 2] None;
     mkNode "A" (Some NAMESPACE) [2] (Some 0);
     mkNode "B" (Some CLASS) [] (Some 0)]
    [].

End Stale.

Module EmptyIndex.

Definition index_xml : list Element := [Elem "doxygenindex" [] []].

End EmptyIndex.

Module MissingRefid.

(** An index whose first compound has no [refid] attribute. *)
Definition index_xml : list Element :=
  [Elem "doxygenindex" []
     [Elem "compound" [("kind", "class")] [];
      Elem "compound" [("refid", "C1"); ("kind", "class")] []]].

End MissingRefid.

Module Orphan.

(** A store where the cache already holds another node for the refid of
    the root's only child. *)
Definition store : Store :=
  [mkNode "index" None [1] None;
   mkNode "A" (Some CLASS) [] (Some 0);
   mkNode "A" (Some CLASS) [] None].

End Orphan.

Module TenEntries.

(** Eight classes, a class X whose document is malformed, and a group. *)
Definition compound (kind refid : string) : Element :=
  Elem "compound" [("refid", refid); ("kind", kind)] [].

Definition index_xml : list Element :=
  [Elem "doxygenindex" []
     (((compound "class") <$> ["K1"; "K2"; "K3"; "K4"; "K5"; "K6"; "K7"; "K8"; "X"])
      ++ [compound "group" "G1"])].



Definition loaded (docs : gmap string EntityDoc) : result Doxygen :=
  load true Scenario.Path_join (λ _, inr index_xml) id (Node_parse_spec docs)
       (Doxygen_new "xml").

End TenEntries.

Module Cached.

(** A loader whose cache holds the refid of the one entry a pass accepts. *)
Definition d : Doxygen := mkDoxygen 0 "xml" {[ "A" := 1 ]} Orphan.store [].

Definition kindRefidMap : KindRefidMap := [("class", "A"); ("page", "P")].

End Cached.

Module SmallTree.

(** The store that the class C1, the group G1 declaring it and the file
    F1 leave behind. *)
Definition d : Doxygen :=
  mkDoxygen 0 "xml" ∅
    [mkNode "index" None [2; 3] None;
     mkNode "C1" (Some CLASS) [] (Some 2);
     mkNode "G1" (Some GROUP) [1] (Some 0);
     mkNode "F1" (Some FILE) [] (Some 0)]
    [].

(** A [Node::finalize] that returns for every node, and one that throws
    for the node [q0] alone. *)
Definition finalize_ok (s : Store) (c : NodeCacheMap) (q : NodePtr) : result unit :=
  Return tt.

Definition finalize_but (q0 : NodePtr) (s : Store) (c : NodeCacheMap) (q : NodePtr)
  : result unit :=
  if decide (q = q0) then Throw (ParseError "detail") else Return tt.

End SmallTree.

Module Cycle.

(** A store in which the namespace A and the class B list each other. *)
Definition d : Doxygen :=
  mkDoxygen 0 "xml" ∅
    [mkNode "index" None [1] None;
     mkNode "A" (Some NAMESPACE) [2] (Some 0);
     mkNode "B" (Some CLASS) [1] (Some 1)]
    [].

End Cycle.

Module Plain.

(** A stand-in for inja: a template is its source text, the empty text
    does not parse, the environment counts the templates it was handed,
    and rendering writes the template followed by the data. *)
Definition what (e : exception) : string := "error".

Definition parse (e : nat) (src : string) : nat * result string :=
  (e, if decide (src = EmptyString) then Throw (ParseError "empty") else Return src).

Definition include_template (e : nat) (name tmpl : string) : nat := S e.

Definition render_to (templates : gmap string string) (e : nat) (tmpl data : string)
  : string * result unit :=
  (tmpl +:+ data, Return tt).

Definition renderer : @Renderer string nat := Renderer_new 0 "out".

End Plain.

(** ** Proof steps *)

(** Over a store of at most five nodes the children are seen to be live
    by going through the nodes. *)
Ltac live_children_by_cases :=
  let p := fresh "p" in
  let q := fresh "q" in
  let H := fresh "H" in
  intros p q H; unfold owns in H;
  do 5 (try destruct p as [|p]); vm_compute in H;
  repeat (apply elem_of_cons in H as [->|H]; [by eexists|]); by apply elem_of_nil in H.

(** * Lemmas and theorems *)

(** ** Reading and writing the store *)

Lemma update_length p f (s : Store) : length (update p f s) = length s.
Proof. unfold update. destruct (s !! p); [apply length_insert | done]. Qed.

Lemma update_lookup_ne p q f (s : Store) : p ≠ q → update p f s !! q = s !! q.
Proof.
  intros Hne. unfold update. destruct (s !! p); [|done].
  by apply list_lookup_insert_ne.
Qed.

Lemma update_lookup_eq p f (s : Store) : update p f s !! p = f <$> s !! p.
Proof.
  unfold update. destruct (s !! p) as [n|] eqn:E; [|by rewrite E].
  rewrite list_lookup_insert_eq; [done|]. by eapply lookup_lt_Some.
Qed.

Lemma update_lookup p q f (s : Store) :
  update p f s !! q = if decide (p = q) then f <$> s !! q else s !! q.
Proof.
  case_decide as E; [subst; apply update_lookup_eq | by apply update_lookup_ne].
Qed.

(** ** The loader, whatever [Node::parse] does *)

Section LoaderFacts.

Variable NDEBUG : bool.
Variable Path_join : string → string → string.
Variable Xml_open : string → exception + list Element.
Variable iteration : KindRefidMap → list (string * string).
Variable Node_parse :
  Store → NodeCacheMap → string → string → bool →
  Store * NodeCacheMap * (exception + NodePtr).

Local Abbreviation getIndexKinds' := (getIndexKinds NDEBUG Path_join Xml_open).
Local Abbreviation construct' := (construct Node_parse).
Local Abbreviation pass' := (pass iteration Node_parse).
Local Abbreviation load' := (load NDEBUG Path_join Xml_open iteration Node_parse).

(** *** The index document *)

Lemma foldM_read_compound_no_throw l acc e :
  foldM (read_compound NDEBUG) acc l ≠ Throw e.
Proof.
  revert acc. induction l as [|c l IH]; intros [m w]; simpl; [done|].
  unfold read_compound at 1.
  destruct (getAttr "kind" c); simpl; [apply IH|].
  destruct (getAttr "refid" c); simpl; [apply IH|].
  destruct (NDEBUG || negb _); simpl; [apply IH | done].
Qed.

Lemma rebuild_cache_no_throw d e : rebuild_cache d ≠ Throw e.
Proof. unfold rebuild_cache. by destruct (getIndexCache _ _ _ _). Qed.

Lemma rebuild_cache_trace d d' :
  rebuild_cache d = Return d' →
  trace d' = trace d ++ [call_getIndexCache (index d)].
Proof.
  unfold rebuild_cache. destruct (getIndexCache _ _ _ _); [|done].
  by intros [= <-].
Qed.

Lemma load_throw_iff d e : load' d = Throw e ↔ getIndexKinds' d = Throw e.
Proof.
  unfold load. destruct (getIndexKinds' d) as [[m w]| | |]; cbn [bind]; [|naive_solver..].
  split; [|done]. intros H. by apply rebuild_cache_no_throw in H.
Qed.

(** A compound without its [kind] or [refid] attribute costs a warning
    and nothing else. *)
Lemma read_compound_missing_attr m w c :
  assoc "kind" (Attrs c) = None ∨ assoc "refid" (Attrs c) = None →
  ∃ name, read_compound NDEBUG (m, w) c
          = Return (m, w ++ [WARNING "compound error {}" [What (XmlError name)]]).
Proof.
  intros H. unfold read_compound, getAttr.
  destruct (assoc "kind" (Attrs c)) as [k|]; [|by eexists].
  destruct H as [H|H]; [done|]. rewrite H. by eexists.
Qed.

(** C10: an index whose [doxygenindex] element has no [compound] child
    makes [load] throw, although a single compound that cannot be read
    only costs a warning. *)
Theorem C10_empty_index_is_fatal d xml root :
  Xml_open (Path_join (inputDir d) "index.xml") = inr xml →
  firstChildElement "doxygenindex" xml = Some root →
  allChildElements "compound" (Elems root) = [] →
  load' d = Throw (DOXYGEN_EXCEPTION "No <compound> element in file {}"
                     [Path_join (inputDir d) "index.xml"])
  ∧ ∀ l acc e, foldM (read_compound NDEBUG) acc l ≠ Throw e.
Proof.
  intros Hxml Hroot Hnone. split; [|intros; apply foldM_read_compound_no_throw].
  apply load_throw_iff. unfold getIndexKinds.
  rewrite Hxml, Hroot. unfold firstChildElement. by rewrite Hnone.
Qed.

(** C7, as the code has it: [load] throws exactly when the index file
    cannot be opened, has no [doxygenindex] element, or that element has
    no [compound] child; a compound that lacks its [kind] or [refid]
    attribute is logged and skipped. *)
Theorem C7_fatal_index_errors d :
  ((∃ e, load' d = Throw e) ↔
   match Xml_open (Path_join (inputDir d) "index.xml") with
   | inl _ => True
   | inr xml =>
       match firstChildElement "doxygenindex" xml with
       | None => True
       | Some root => allChildElements "compound" (Elems root) = []
       end
   end)
  ∧ (∀ m w c,
       assoc "kind" (Attrs c) = None ∨ assoc "refid" (Attrs c) = None →
       ∃ name, read_compound NDEBUG (m, w) c
               = Return (m, w ++ [WARNING "compound error {}" [What (XmlError name)]])).
Proof.
  split; [|apply read_compound_missing_attr].
  setoid_rewrite load_throw_iff. unfold getIndexKinds, firstChildElement.
  destruct (Xml_open _) as [e|xml]; [split; eauto|].
  destruct (head (allChildElements "doxygenindex" xml)) as [root|]; [|split; eauto].
  destruct (allChildElements "compound" (Elems root)) as [|c l] eqn:E.
  - split; eauto.
  - split; [|done]. intros [e He]. exfalso.
    by apply foldM_read_compound_no_throw in He.
Qed.

(** *** The cleanup pass *)

Lemma cleanup_length node s : length (cleanup node s) = length s.
Proof. apply update_length. Qed.

Lemma cleanup_lookup_ne node p s : p ≠ node → cleanup node s !! p = s !! p.
Proof. intros. by apply update_lookup_ne. Qed.

Lemma cleanup_lookup_eq node s :
  cleanup node s !! node
  = (λ n, set_children (filter (λ c, parent_of s c = Some node) (children n)) n)
      <$> s !! node.
Proof. apply update_lookup_eq. Qed.

Lemma cleanup_parent_of node s q : parent_of (cleanup node s) q = parent_of s q.
Proof.
  unfold parent_of, cleanup. rewrite update_lookup.
  case_decide; [|done]. by destruct (s !! q).
Qed.

(** C9: a cleanup pass changes nothing but the [children] sequence of the
    root: every other node keeps its fields, stale children included, and
    the root keeps its refid, kind and back-reference; the cache is not
    touched. *)
Theorem C9_cleanup_touches_root_children_only (d : Doxygen) (p : NodePtr) :
  p ≠ index d →
  nodes (run_cleanup d) !! p = nodes d !! p
  ∧ (∀ q, q ∈ children_of (nodes d) p → parent_of (nodes d) q ≠ Some p →
          q ∈ children_of (nodes (run_cleanup d)) p)
  ∧ refid <$> nodes (run_cleanup d) !! index d = refid <$> nodes d !! index d
  ∧ kind <$> nodes (run_cleanup d) !! index d = kind <$> nodes d !! index d
  ∧ parent <$> nodes (run_cleanup d) !! index d = parent <$> nodes d !! index d
  ∧ cache (run_cleanup d) = cache d
  ∧ index (run_cleanup d) = index d.
Proof.
  intros Hp. unfold run_cleanup; simpl.
  assert (cleanup (index d) (nodes d) !! p = nodes d !! p) as E
    by by apply cleanup_lookup_ne.
  split_and!; try done.
  - intros q Hq _. unfold children_of in *. by rewrite E.
  - rewrite cleanup_lookup_eq. by destruct (nodes d !! index d).
  - rewrite cleanup_lookup_eq. by destruct (nodes d !! index d).
  - rewrite cleanup_lookup_eq. by destruct (nodes d !! index d).
Qed.

Lemma foldM_read_compound_entries l m0 w0 m w :
  foldM (read_compound NDEBUG) (m0, w0) l = Return (m, w) →
  m = m0 ++ omap entry_of l
  ∧ ∃ w1, w = w0 ++ w1 ∧ Forall is_compound_error w1
          ∧ length (omap entry_of l) + length w1 = length l.
Proof.
  revert m0 w0. induction l as [|c l IH]; intros m0 w0; simpl.
  { intros [= <- <-]. rewrite app_nil_r. split; [done|]. exists [].
    by rewrite app_nil_r. }
  unfold read_compound at 1.
  destruct (entry_of c) as [[k r]|] eqn:E; unfold entry_of in E;
    destruct (getAttr "kind" c) as [e|k']; try done;
    destruct (getAttr "refid" c) as [e'|r']; simplify_eq; simpl.
  - destruct (NDEBUG || negb _); simpl; [|done].
    intros (-> & w1 & -> & Hf & Hl)%IH. rewrite <- app_assoc. split; [done|].
    exists w1. split; [done|]. split; [done|]. unfold omap in *; simpl; lia.
  - intros (-> & w1 & -> & Hf & Hl)%IH. split; [done|].
    exists (WARNING "compound error {}" [What e] :: w1). rewrite <- app_assoc.
    split; [done|]. split; [constructor; [by eexists|done]|]. unfold omap in *; simpl; lia.
  - intros (-> & w1 & -> & Hf & Hl)%IH. split; [done|].
    exists (WARNING "compound error {}" [What e] :: w1). rewrite <- app_assoc.
    split; [done|]. split; [constructor; [by eexists|done]|]. unfold omap in *; simpl; lia.
  - intros (-> & w1 & -> & Hf & Hl)%IH. split; [done|].
    exists (WARNING "compound error {}" [What e'] :: w1). rewrite <- app_assoc.
    split; [done|]. split; [constructor; [by eexists|done]|]. unfold omap in *; simpl; lia.
Qed.

Lemma getIndexKinds_warnings d m w :
  getIndexKinds NDEBUG Path_join Xml_open d = Return (m, w) → Forall is_compound_error w.
Proof.
  unfold getIndexKinds. destruct (Xml_open _) as [e|xml]; [done|].
  destruct (firstChildElement "doxygenindex" xml) as [root|]; [|done].
  destruct (firstChildElement "compound" (Elems root)); [|done].
  by intros (_ & w1 & -> & Hf & _)%foldM_read_compound_entries.
Qed.

(** *** The order of the calls *)

Lemma construct_index allowed flag d pr : index (construct' allowed flag d pr) = index d.
Proof.
  unfold construct. destruct (negb _); [done|].
  destruct (cache d !! pr.2); [done|]. simpl.
  by destruct (Node_parse _ _ _ _ _) as [[s c] [e|child]].
Qed.

Lemma construct_trace allowed flag d pr :
  ∃ t, trace (construct' allowed flag d pr) = trace d ++ t
       ∧ Forall (pass_event allowed flag [pr]) t.
Proof.
  unfold construct. destruct (allowed pr.1) eqn:Ha; simpl.
  2:{ exists []. by rewrite app_nil_r. }
  destruct (cache d !! pr.2).
  { exists []. by rewrite app_nil_r. }
  assert (pass_event allowed flag [pr] (call_Node_parse pr.2 flag)) as Hcall.
  { exists pr.1, pr.2. destruct pr. split_and!; [apply list_elem_of_singleton|..]; auto. }
  simpl. destruct (Node_parse _ _ _ _ _) as [[s c] [e|child]]; simpl.
  - eexists [_; _]. rewrite <- app_assoc. split; [done|].
    repeat constructor; [done|].
    exists pr.1, pr.2. destruct pr. split_and!; [apply list_elem_of_singleton|..]; eauto.
  - eexists [_]. split; [done|]. by repeat constructor.
Qed.

Lemma pass_event_mono allowed flag m m' e :
  m ⊆ m' → pass_event allowed flag m e → pass_event allowed flag m' e.
Proof. intros Hm (k & r & Hin & H). exists k, r. split; [by apply Hm|done]. Qed.

Lemma fold_construct_trace allowed flag l d :
  index (fold_left (construct' allowed flag) l d) = index d
  ∧ ∃ t, trace (fold_left (construct' allowed flag) l d) = trace d ++ t
         ∧ Forall (pass_event allowed flag l) t.
Proof.
  revert d. induction l as [|pr l IH]; intros d; simpl.
  { split; [done|]. exists []. by rewrite app_nil_r. }
  destruct (IH (construct' allowed flag d pr)) as (Hi & t2 & Ht2 & Hf2).
  destruct (construct_trace allowed flag d pr) as (t1 & Ht1 & Hf1).
  split; [by rewrite Hi, construct_index|].
  exists (t1 ++ t2). rewrite Ht2, Ht1, app_assoc. split; [done|].
  apply Forall_app. split.
  - eapply Forall_impl; [done|]. intros e. apply pass_event_mono.
    intros x Hx. apply list_elem_of_singleton in Hx as ->. by left.
  - eapply Forall_impl; [done|]. intros e. apply pass_event_mono.
    intros x Hx. by right.
Qed.

Lemma stage_trace allowed flag m d :
  index (run_cleanup (pass' allowed flag m d)) = index d
  ∧ ∃ t, trace (run_cleanup (pass' allowed flag m d))
         = trace d ++ t ++ [call_cleanup (index d)]
         ∧ Forall (pass_event allowed flag (iteration m)) t.
Proof.
  destruct (fold_construct_trace allowed flag (iteration m) d) as (Hi & t & Ht & Hf).
  split; [done|]. exists t. split; [|done].
  unfold run_cleanup, pass; simpl. by rewrite Ht, Hi, app_assoc.
Qed.

End LoaderFacts.

(** ** The store under [Node::parse] as the spec describes it *)

Lemma parent_of_lt s q p : parent_of s q = Some p → q < length s.
Proof.
  unfold parent_of. destruct (s !! q) eqn:E; [|done].
  intros _. by eapply lookup_lt_Some.
Qed.

Lemma refid_at_lt s q r : refid_at s q = Some r → q < length s.
Proof.
  unfold refid_at. destruct (s !! q) eqn:E; [|done].
  intros _. by eapply lookup_lt_Some.
Qed.

Lemma children_of_update p f s q :
  children_of (update p f s) q
  = if decide (p = q) then from_option (children ∘ f) [] (s !! q) else children_of s q.
Proof.
  unfold children_of. rewrite update_lookup. case_decide; [|done].
  by destruct (s !! q).
Qed.

Lemma parent_of_update p f s q :
  parent_of (update p f s) q
  = if decide (p = q) then s !! q ≫= (parent ∘ f) else parent_of s q.
Proof.
  unfold parent_of. rewrite update_lookup. case_decide; [|done].
  by destruct (s !! q).
Qed.

Lemma kind_of_update p f s q :
  (∀ n, kind (f n) = kind n) → kind_of (update p f s) q = kind_of s q.
Proof.
  intros Hf. unfold kind_of. rewrite update_lookup. case_decide; [|done].
  destruct (s !! q); simpl; [by rewrite Hf|done].
Qed.

Lemma refid_at_update p f s q :
  (∀ n, refid (f n) = refid n) → refid_at (update p f s) q = refid_at s q.
Proof.
  intros Hf. unfold refid_at. rewrite update_lookup. case_decide; [|done].
  destruct (s !! q); simpl; [by rewrite Hf|done].
Qed.

(** *** Taking a child *)

Lemma adopt_length p child s : length (adopt p child s) = length s.
Proof.
  unfold adopt, push_back. destruct (unowned s child); [|done].
  by rewrite !update_length.
Qed.

Lemma adopt_kind_of p child s q : kind_of (adopt p child s) q = kind_of s q.
Proof.
  unfold adopt, push_back. destruct (unowned s child); [|done].
  by rewrite !kind_of_update.
Qed.

Lemma adopt_refid_at p child s q : refid_at (adopt p child s) q = refid_at s q.
Proof.
  unfold adopt, push_back. destruct (unowned s child); [|done].
  by rewrite !refid_at_update.
Qed.

Lemma adopt_children_of p child s q :
  p < length s →
  children_of (adopt p child s) q
  = if unowned s child && bool_decide (q = p)
    then children_of s q ++ [child] else children_of s q.
Proof.
  intros Hp. unfold adopt, push_back. destruct (unowned s child); [|done].
  simpl. rewrite !children_of_update.
  destruct (lookup_lt_is_Some_2 s p Hp) as [np Enp].
  case_bool_decide as E1; subst.
  - rewrite (decide_True (P := p = p)) by done.
    case_decide as E2; subst.
    + rewrite update_lookup_eq. unfold children_of. by rewrite Enp.
    + unfold children_of. by rewrite Enp.
  - rewrite (decide_False (P := p = q)) by done.
    case_decide as E2; subst; [|done].
    rewrite update_lookup_ne by done. unfold children_of.
    by destruct (s !! q).
Qed.

Lemma adopt_parent_of p child s q :
  child < length s →
  parent_of (adopt p child s) q
  = if unowned s child && bool_decide (q = child) then Some p else parent_of s q.
Proof.
  intros Hc. unfold adopt, push_back. destruct (unowned s child); [|done].
  simpl. rewrite parent_of_update.
  destruct (lookup_lt_is_Some_2 s child Hc) as [nc Enc].
  case_bool_decide as E1; subst.
  - rewrite decide_True by done. rewrite update_lookup.
    case_decide; subst; rewrite Enc; done.
  - rewrite decide_False by done. rewrite parent_of_update.
    case_decide; subst; [|done]. unfold parent_of. by destruct (s !! q).
Qed.

Lemma unowned_spec s c child :
  wf s c → unowned s child = true →
  parent_of s child = None ∨ parent_of s child = Some 0.
Proof.
  intros Hwf. unfold unowned.
  destruct (parent_of s child) as [q|] eqn:Eq; [|by left].
  destruct (s !! q) as [n|] eqn:En; [|done].
  case_bool_decide as Hk; [|done]. intros _. right. f_equal.
  destruct (decide (q = 0)) as [|Hq]; [done|]. exfalso.
  apply (wf_kind _ _ Hwf q Hq); [by eapply lookup_lt_Some|].
  unfold kind_of. by rewrite En.
Qed.

Lemma unowned_not_child s c p child :
  wf s c → unowned s child = true → p ≠ 0 → child ∉ children_of s p.
Proof.
  intros Hwf Hu Hp Hin.
  destruct (wf_owner _ _ Hwf p child Hp Hin) as [Hpar _].
  destruct (unowned_spec _ _ _ Hwf Hu) as [E|E]; rewrite E in Hpar; congruence.
Qed.

Lemma wf_adopt s c p child :
  wf s c → p ≠ 0 → p < length s → child ≠ 0 → child < length s →
  wf (adopt p child s) c.
Proof.
  intros Hwf Hp Hpl Hc Hcl.
  destruct (unowned s child) eqn:Hu; [|by unfold adopt; rewrite Hu].
  pose proof (λ p, unowned_not_child s c p child Hwf Hu) as Hfree.
  split.
  - rewrite adopt_length, adopt_kind_of, adopt_parent_of, Hu by done.
    rewrite bool_decide_eq_false_2 by done. apply Hwf.
  - intros q. rewrite adopt_length, adopt_kind_of. apply Hwf.
  - intros q1 q2 Hq1. rewrite adopt_children_of, adopt_parent_of, Hu by done. simpl.
    case_bool_decide as E1; subst.
    + rewrite elem_of_app, list_elem_of_singleton. intros [Hin | ->].
      * rewrite bool_decide_eq_false_2; [by apply Hwf|].
        intros ->. by eapply Hfree.
      * by rewrite bool_decide_eq_true_2.
    + intros Hin. rewrite bool_decide_eq_false_2; [by apply Hwf|].
      intros ->. by eapply Hfree.
  - intros q. rewrite adopt_children_of, Hu by done. simpl.
    case_bool_decide as E1; subst; [|apply Hwf].
    apply NoDup_app. split_and!; [apply Hwf| |apply NoDup_singleton].
    intros x Hx Hx'. apply list_elem_of_singleton in Hx' as ->.
    eapply Hfree; [|exact Hx]. done.
  - intros q. rewrite adopt_children_of, adopt_length, Hu by done. simpl.
    rewrite bool_decide_eq_false_2 by done. apply Hwf.
  - intros r q. rewrite adopt_refid_at. apply Hwf.
  - intros q r. rewrite adopt_refid_at. apply Hwf.
Qed.

(** *** Creating a node *)

Lemma lookup_snoc (s : Store) n q :
  (s ++ [n]) !! q = if decide (q = length s) then Some n else s !! q.
Proof.
  case_decide as E; subst.
  - by rewrite list_lookup_middle.
  - destruct (decide (q < length s)).
    + by rewrite lookup_app_l.
    + rewrite !lookup_ge_None_2; [done|lia|]. rewrite length_app. simpl. lia.
Qed.

Lemma wf_alloc s c r k :
  wf s c → c !! r = None →
  wf (s ++ [mkNode r (Some k) [] None]) (cache_insert r (length s) c).
Proof.
  intros Hwf Hr. pose proof (wf_root _ _ Hwf) as (Hlen & Hrk & Hrp).
  unfold cache_insert. rewrite Hr.
  assert (∀ q, children_of (s ++ [mkNode r (Some k) [] None]) q = children_of s q) as Hch.
  { intros q. unfold children_of. rewrite lookup_snoc. case_decide; subst; [|done].
    by rewrite lookup_ge_None_2. }
  assert (∀ q, parent_of (s ++ [mkNode r (Some k) [] None]) q = parent_of s q) as Hpa.
  { intros q. unfold parent_of. rewrite lookup_snoc. case_decide; subst; [|done].
    by rewrite lookup_ge_None_2. }
  split.
  - rewrite length_app, Hpa. unfold kind_of. rewrite lookup_snoc.
    rewrite decide_False by lia. split_and!; [lia|done..].
  - intros q Hq. rewrite length_app. simpl. intros Hl. unfold kind_of.
    rewrite lookup_snoc. case_decide; [done|]. apply Hwf; [done|lia].
  - intros q1 q2. rewrite Hch, Hpa. apply Hwf.
  - intros q. rewrite Hch. apply Hwf.
  - intros q. rewrite Hch, length_app. intros Hq.
    destruct (wf_top _ _ Hwf q Hq). split; [done|lia].
  - intros r' q. unfold refid_at. rewrite lookup_snoc. rewrite lookup_insert.
    case_decide as E; subst.
    + intros [= <-]. rewrite decide_True by done. split; [lia|done].
    + intros Hq. destruct (wf_cache _ _ Hwf r' q Hq) as [Hq0 Hrq].
      rewrite decide_False; [done|]. apply refid_at_lt in Hrq. lia.
  - intros q r' Hq. unfold refid_at. rewrite lookup_snoc. rewrite lookup_insert.
    case_decide as E; subst.
    + intros [= <-]. by rewrite decide_True.
    + intros Hrq. pose proof (wf_cached _ _ Hwf q r' Hq Hrq) as Hc.
      rewrite decide_False; [done|]. intros ->. congruence.
Qed.

(** *** Parsing *)

Lemma grows_refl s c : grows s c s c.
Proof. by split_and!. Qed.

Lemma grows_trans s1 c1 s2 c2 s3 c3 :
  grows s1 c1 s2 c2 → grows s2 c2 s3 c3 → grows s1 c1 s3 c3.
Proof.
  intros (L1 & C1 & R1) (L2 & C2 & R2). split_and!; [lia| |congruence].
  by etrans.
Qed.

Lemma adopt_lookup_ne p child s q :
  q ≠ p → q ≠ child → adopt p child s !! q = s !! q.
Proof.
  intros Hp Hc. unfold adopt, push_back. destruct (unowned s child); [|done].
  by rewrite !update_lookup_ne.
Qed.

Lemma grows_adopt s c p child : p ≠ 0 → child ≠ 0 → grows s c (adopt p child s) c.
Proof.
  intros Hp Hc. split_and!; [by rewrite adopt_length|done|].
  by apply adopt_lookup_ne.
Qed.

Lemma grows_alloc s c n r : 0 < length s → grows s c (s ++ [n]) (cache_insert r (length s) c).
Proof.
  intros Hl. split_and!.
  - rewrite length_app. lia.
  - unfold cache_insert. destruct (c !! r) eqn:E; [done|]. by apply insert_subseteq.
  - by rewrite lookup_app_l.
Qed.

Lemma parse_children_wf rec p :
  (∀ s c m, wf s c → c !! m = None → parse_ok s c (rec s c m)) →
  ∀ l s c, wf s c → p ≠ 0 → p < length s →
    let out := parse_children rec p l s c in
    wf out.1.1 out.1.2 ∧ grows s c out.1.1 out.1.2
    ∧ ∀ q, out.2 = Some (inr q) → q = p.
Proof.
  intros Hrec. induction l as [|m l IH]; intros s c Hwf Hp Hpl; simpl.
  { split_and!; [done|apply grows_refl|]. by intros q [= <-]. }
  destruct (c !! m) as [child|] eqn:Em.
  - destruct (wf_cache _ _ Hwf m child Em) as [Hc0 Hcr].
    apply refid_at_lt in Hcr.
    destruct (IH (adopt p child s) c) as (W & G & R).
    + by apply wf_adopt.
    + done.
    + by rewrite adopt_length.
    + split_and!; [done| |done].
      eapply grows_trans; [|exact G]. by apply grows_adopt.
  - destruct (Hrec s c m Hwf Em) as (W1 & G1 & R1).
    destruct (rec s c m) as [[s1 c1] [[e|child]|]]; simpl in *.
    + destruct (IH s1 c1) as (W & G & R); [done|done|destruct G1; lia|].
      split_and!; [done| |done]. by eapply grows_trans.
    + destruct (R1 child eq_refl) as [-> Hl].
      pose proof (wf_root _ _ Hwf) as (Hlen & _).
      destruct G1 as (GL & GC & GR).
      destruct (IH (adopt p (length s) s1) c1) as (W & G & R).
      * apply wf_adopt; [done|done|lia|lia|done].
      * done.
      * rewrite adopt_length. lia.
      * split_and!; [done| |done].
        eapply grows_trans; [|exact G].
        eapply grows_trans; [|apply grows_adopt; [done|lia]]. by split_and!.
    + split_and!; [done..|]. by intros q [=].
Qed.

Section Parse.

Variable docs : gmap string EntityDoc.

Lemma parse_fuel_wf fuel s c r flag :
  wf s c → c !! r = None → parse_ok s c (parse_fuel docs fuel s c r flag).
Proof.
  revert s c r. induction fuel as [|fuel IH]; intros s c r Hwf Hr; simpl.
  { split_and!; [done|apply grows_refl|]. by intros q [=]. }
  destruct (docs !! r) as [doc|] eqn:Ed.
  2:{ split_and!; [done|apply grows_refl|]. by intros q [=]. }
  pose proof (wf_root _ _ Hwf) as (Hlen & _).
  set (n := mkNode r (Some (doc_kind doc)) [] None).
  destruct (parse_children_wf (λ s c m, parse_fuel docs fuel s c m flag) (length s)
              (λ s c m, IH s c m)
              (doc_compounds doc ++ if flag then doc_members doc else [])
              (s ++ [n]) (cache_insert r (length s) c)) as (W & G & R).
  - by apply wf_alloc.
  - lia.
  - rewrite length_app. simpl. lia.
  - split_and!; [done| |].
    + eapply grows_trans; [|exact G]. by apply grows_alloc.
    + intros q Hq. apply R in Hq as ->. split; [done|].
      destruct G as (GL & _). rewrite length_app in GL. simpl in GL. lia.
Qed.

Lemma pending_mono c c' : c ⊆ c' → pending docs c' ≤ pending docs c.
Proof.
  intros Hc. unfold pending. apply subseteq_size.
  apply subseteq_dom in Hc. intros x [Hx Hn]%elem_of_difference.
  apply elem_of_difference. split; [done|]. intros Hxc. by apply Hn, Hc.
Qed.

Lemma pending_insert c r p doc :
  docs !! r = Some doc → c !! r = None → pending docs (<[r := p]> c) < pending docs c.
Proof.
  intros Hd Hc. unfold pending. apply subset_size. rewrite dom_insert_L.
  split.
  { intros x [Hx Hn]%elem_of_difference. apply elem_of_difference.
    split; [done|]. intros Hxc. apply Hn, elem_of_union. by right. }
  intros Hsub. assert (r ∈ dom docs ∖ dom c) as Hin.
  { apply elem_of_difference. split; [by apply elem_of_dom|].
    by apply not_elem_of_dom. }
  apply Hsub, elem_of_difference in Hin as [_ Hn].
  apply Hn, elem_of_union. left. by apply elem_of_singleton.
Qed.

Lemma parse_children_enough rec p fuel :
  (∀ s c m, wf s c → c !! m = None → parse_ok s c (rec s c m)) →
  (∀ s c m, wf s c → c !! m = None → pending docs c < fuel → (rec s c m).2 ≠ None) →
  ∀ l s c, wf s c → p ≠ 0 → p < length s → pending docs c < fuel →
    (parse_children rec p l s c).2 ≠ None.
Proof.
  intros Hok Hrec. induction l as [|m l IH]; intros s c Hwf Hp Hpl Hf; simpl; [done|].
  destruct (c !! m) as [child|] eqn:Em.
  - destruct (wf_cache _ _ Hwf m child Em) as [Hc0 Hcr].
    apply refid_at_lt in Hcr.
    apply IH; [by apply wf_adopt|done|by rewrite adopt_length|done].
  - destruct (Hok s c m Hwf Em) as (W1 & (GL & GC & GR) & R1).
    pose proof (Hrec s c m Hwf Em Hf) as Hsome.
    destruct (rec s c m) as [[s1 c1] [[e|child]|]]; simpl in *; [| |done].
    { pose proof (pending_mono _ _ GC). apply IH; [done|done|lia|lia]. }
    destruct (R1 child eq_refl) as [-> Hl].
    pose proof (wf_root _ _ Hwf) as (Hlen & _).
    apply IH.
    + apply wf_adopt; [done|done|lia|lia|done].
    + done.
    + rewrite adopt_length. lia.
    + pose proof (pending_mono _ _ GC). lia.
Qed.

(** Enough fuel: with more fuel than pending refids the parse does not
    run out of it. *)
Lemma parse_fuel_enough fuel s c r flag :
  wf s c → c !! r = None → pending docs c < fuel →
  (parse_fuel docs fuel s c r flag).2 ≠ None.
Proof.
  revert s c r. induction fuel as [|fuel IH]; intros s c r Hwf Hr Hf; [lia|].
  simpl. destruct (docs !! r) as [doc|] eqn:Ed; [|done].
  pose proof (wf_root _ _ Hwf) as (Hlen & _).
  apply (parse_children_enough _ _ fuel).
  - intros. by apply parse_fuel_wf.
  - intros. by apply IH.
  - by apply wf_alloc.
  - lia.
  - rewrite length_app. simpl. lia.
  - unfold cache_insert. rewrite Hr.
    pose proof (pending_insert c r (length s) doc Ed Hr). lia.
Qed.

Lemma parse_children_stable rec rec' p :
  (∀ s c m, (rec s c m).2 ≠ None → rec' s c m = rec s c m) →
  ∀ l s c, (parse_children rec p l s c).2 ≠ None →
    parse_children rec' p l s c = parse_children rec p l s c.
Proof.
  intros Hrec. induction l as [|m l IH]; intros s c; simpl; [done|].
  destruct (c !! m) as [child|]; [apply IH|].
  pose proof (Hrec s c m) as Hm.
  destruct (rec s c m) as [[s1 c1] [[e|child]|]] eqn:E; simpl in *.
  - intros H. rewrite Hm by done. by apply IH.
  - intros H. rewrite Hm by done. by apply IH.
  - done.
Qed.

(** Once the fuel is enough, more of it changes nothing. *)
Lemma parse_fuel_stable fuel s c r flag :
  (parse_fuel docs fuel s c r flag).2 ≠ None →
  parse_fuel docs (S fuel) s c r flag = parse_fuel docs fuel s c r flag.
Proof.
  revert s c r. induction fuel as [|fuel IH]; intros s c r; [done|].
  change (parse_fuel docs (S (S fuel)) s c r flag) with
    (match docs !! r with
     | None => (s, c, Some (inl (ParseError r)))
     | Some doc =>
         parse_children (λ s c m, parse_fuel docs (S fuel) s c m flag) (length s)
           (doc_compounds doc ++ if flag then doc_members doc else [])
           (s ++ [mkNode r (Some (doc_kind doc)) [] None])
           (cache_insert r (length s) c)
     end).
  simpl. destruct (docs !! r) as [doc|]; [|done].
  apply parse_children_stable. intros s' c' m. apply IH.
Qed.

(** [Node::parse] as modelled never runs into the bound on the nesting. *)
Lemma Node_parse_spec_fuel s c dir r flag :
  wf s c → c !! r = None →
  ∃ res, parse_fuel docs (S (S (size docs))) s c r flag
         = ((Node_parse_spec docs s c dir r flag).1, Some res)
         ∧ (Node_parse_spec docs s c dir r flag).2 = res.
Proof.
  intros Hwf Hr. unfold Node_parse_spec.
  pose proof (parse_fuel_enough (S (S (size docs))) s c r flag Hwf Hr) as H.
  destruct (parse_fuel _ _ _ _ _ _) as [[s' c'] [res|]]; simpl in *.
  - by exists res.
  - exfalso. apply H; [|done]. unfold pending.
    assert (size (dom docs ∖ dom c) ≤ size (dom docs))
      by (apply subseteq_size; intros x [Hx _]%elem_of_difference; done).
    rewrite size_dom in *. lia.
Qed.

Lemma Node_parse_spec_ok s c dir r flag :
  wf s c → c !! r = None →
  let out := Node_parse_spec docs s c dir r flag in
  wf out.1.1 out.1.2 ∧ grows s c out.1.1 out.1.2
  ∧ ∀ q, out.2 = inr q → q = length s ∧ q < length out.1.1.
Proof.
  intros Hwf Hr.
  destruct (Node_parse_spec_fuel s c dir r flag Hwf Hr) as (res & E & Eres).
  pose proof (parse_fuel_wf (S (S (size docs))) s c r flag Hwf Hr) as (W & G & R).
  rewrite E in W, G, R. simpl in *.
  destruct (Node_parse_spec docs s c dir r flag) as [[s' c'] res']; simpl in *. subst.
  split_and!; [done..|]. intros q ->. by apply R.
Qed.

End Parse.

(** *** The passes of [load] *)

Lemma push_back_parent_of p child s q : parent_of (push_back p child s) q = parent_of s q.
Proof.
  unfold push_back. rewrite parent_of_update. case_decide; [|done].
  unfold parent_of. by destruct (s !! q).
Qed.

Lemma push_back_children_of p child s q :
  p < length s →
  children_of (push_back p child s) q
  = if decide (q = p) then children_of s q ++ [child] else children_of s q.
Proof.
  intros Hp. unfold push_back. rewrite children_of_update.
  destruct (lookup_lt_is_Some_2 s p Hp) as [np Enp].
  case_decide; subst.
  - rewrite decide_True by done. unfold children_of. by rewrite Enp.
  - by rewrite decide_False by done.
Qed.

Lemma attach_length root child s : length (attach root child s) = length s.
Proof.
  unfold attach, push_back. destruct (parent_of _ child); by rewrite ?update_length.
Qed.

Lemma attach_kind_of root child s q : kind_of (attach root child s) q = kind_of s q.
Proof.
  unfold attach, push_back. destruct (parent_of _ child); by rewrite ?kind_of_update.
Qed.

Lemma attach_refid_at root child s q : refid_at (attach root child s) q = refid_at s q.
Proof.
  unfold attach, push_back. destruct (parent_of _ child); by rewrite ?refid_at_update.
Qed.

Lemma attach_children_of root child s q :
  root < length s →
  children_of (attach root child s) q
  = if decide (q = root) then children_of s q ++ [child] else children_of s q.
Proof.
  intros Hr. unfold attach. rewrite <- (push_back_children_of root child s q Hr).
  destruct (parent_of _ child); [done|].
  rewrite children_of_update. case_decide; [|done]. subst.
  unfold children_of. by destruct (_ !! q).
Qed.

Lemma attach_parent_of root child s q :
  child < length s →
  parent_of (attach root child s) q
  = if decide (q = child)
    then Some (default root (parent_of s child))
    else parent_of s q.
Proof.
  intros Hc. unfold attach. rewrite push_back_parent_of.
  destruct (lookup_lt_is_Some_2 s child Hc) as [nc Enc].
  destruct (parent_of s child) as [pc|] eqn:Epc; simpl.
  - rewrite push_back_parent_of. case_decide; by subst.
  - rewrite parent_of_update. case_decide; subst.
    + rewrite decide_True by done. unfold push_back. rewrite update_lookup.
      case_decide; subst; by rewrite Enc.
    + rewrite decide_False by done. apply push_back_parent_of.
Qed.

Lemma wf_attach s c child :
  wf s c → child ≠ 0 → child < length s → child ∉ children_of s 0 →
  wf (attach 0 child s) c.
Proof.
  intros Hwf Hc Hcl Hfresh. pose proof (wf_root _ _ Hwf) as (Hlen & Hrk & Hrp).
  split.
  - rewrite attach_length, attach_kind_of, attach_parent_of by done.
    by rewrite decide_False by done.
  - intros q. rewrite attach_length, attach_kind_of. apply Hwf.
  - intros p q Hp. rewrite attach_children_of, attach_parent_of by done.
    rewrite decide_False by done. intros Hin.
    destruct (wf_owner _ _ Hwf p q Hp Hin) as [Hpar Hq]. split; [|done].
    case_decide; subst; [|done]. by rewrite Hpar.
  - intros q. rewrite attach_children_of by done. case_decide; subst; [|apply Hwf].
    apply NoDup_app. split_and!; [apply Hwf| |apply NoDup_singleton].
    intros x Hx Hx'. apply list_elem_of_singleton in Hx' as ->. done.
  - intros q. rewrite attach_children_of, attach_length by done.
    rewrite decide_True by done. rewrite elem_of_app, list_elem_of_singleton.
    intros [Hin | ->]; [by apply Hwf|done].
  - intros r q. rewrite attach_refid_at. apply Hwf.
  - intros q r. rewrite attach_refid_at. apply Hwf.
Qed.

Lemma cleanup_children_of node s q :
  children_of (cleanup node s) q
  = if decide (q = node)
    then filter (λ c, parent_of s c = Some node) (children_of s q)
    else children_of s q.
Proof.
  unfold cleanup. rewrite children_of_update. case_decide; subst.
  - rewrite decide_True by done. unfold children_of. by destruct (s !! q).
  - by rewrite decide_False by done.
Qed.

Lemma cleanup_kind_of node s q : kind_of (cleanup node s) q = kind_of s q.
Proof. unfold cleanup. by rewrite kind_of_update. Qed.

Lemma cleanup_refid_at node s q : refid_at (cleanup node s) q = refid_at s q.
Proof. unfold cleanup. by rewrite refid_at_update. Qed.

Lemma wf_cleanup s c : wf s c → wf (cleanup 0 s) c ∧ tidy (cleanup 0 s).
Proof.
  intros Hwf. split; [split|].
  - rewrite cleanup_length, cleanup_parent_of, cleanup_kind_of. apply Hwf.
  - intros q. rewrite cleanup_length, cleanup_kind_of. apply Hwf.
  - intros p q Hp. rewrite cleanup_children_of, cleanup_parent_of.
    rewrite decide_False by done. by apply Hwf.
  - intros q. rewrite cleanup_children_of. case_decide; [|apply Hwf].
    apply NoDup_filter, Hwf.
  - intros q. rewrite cleanup_children_of, cleanup_length.
    rewrite decide_True by done. intros [_ Hin]%list_elem_of_filter. by apply Hwf.
  - intros r q. rewrite cleanup_refid_at. apply Hwf.
  - intros q r. rewrite cleanup_refid_at. apply Hwf.
  - intros q. rewrite cleanup_children_of, cleanup_parent_of.
    rewrite decide_True by done. by intros [Hpar _]%list_elem_of_filter.
Qed.

Lemma wfd_new path w : wfd (mkDoxygen 0 path ∅ [mkNode "index" None [] None] w).
Proof.
  split; [done|]. split; simpl.
  - split_and!; [lia|done..].
  - intros p Hp Hl. lia.
  - intros p q Hp. unfold children_of. destruct p as [|[|p]]; simpl; by rewrite ?elem_of_nil.
  - intros p. unfold children_of. destruct p as [|[|p]]; simpl; apply NoDup_nil_2.
  - intros q. unfold children_of. simpl. by rewrite elem_of_nil.
  - intros r p. by rewrite lookup_empty.
  - intros p r Hp. unfold refid_at. by destruct p as [|[|p]].
Qed.

Section ModelLoad.

Variable iteration : KindRefidMap → list (string * string).
Variable docs : gmap string EntityDoc.

Lemma construct_wfd allowed flag d pr :
  wfd d → wfd (construct (Node_parse_spec docs) allowed flag d pr).
Proof.
  intros [Hi Hwf]. unfold construct. destruct (negb _); [done|].
  destruct (cache d !! pr.2) eqn:Ec; [done|]. cbn [emit nodes cache inputDir index trace].
  pose proof (Node_parse_spec_ok docs (nodes d) (cache d) (inputDir d) pr.2 flag Hwf Ec)
    as (W & (GL & GC & GR) & R).
  destruct (Node_parse_spec docs _ _ _ _ _) as [[s' c'] [e|child]]; simpl in *.
  - done.
  - split; [done|]. simpl. destruct (R child eq_refl) as [-> Hl].
    pose proof (wf_root _ _ Hwf) as (Hlen & _).
    rewrite Hi. apply (wf_attach s' c' (length (nodes d))); [done|lia|done|].
    intros Hin. unfold children_of in Hin. rewrite GR in Hin.
    apply (wf_top _ _ Hwf) in Hin. lia.
Qed.

Lemma fold_construct_wfd allowed flag l d :
  wfd d → wfd (fold_left (construct (Node_parse_spec docs) allowed flag) l d).
Proof.
  revert d. induction l as [|pr l IH]; intros d Hd; simpl; [done|].
  by apply IH, construct_wfd.
Qed.

Lemma run_cleanup_wfd d : wfd d → wfd (run_cleanup d) ∧ tidy (nodes (run_cleanup d)).
Proof.
  intros [Hi Hwf]. unfold run_cleanup; simpl. rewrite Hi.
  destruct (wf_cleanup _ _ Hwf). by split.
Qed.

Lemma stage_wfd allowed flag m d :
  wfd d →
  wfd (run_cleanup (pass iteration (Node_parse_spec docs) allowed flag m d))
  ∧ tidy (nodes (run_cleanup (pass iteration (Node_parse_spec docs) allowed flag m d))).
Proof. intros Hd. by apply run_cleanup_wfd, fold_construct_wfd. Qed.

End ModelLoad.

(** ** The strict forest *)

Lemma tc_last {A} (R : relation A) x z : tc R x z → ∃ y, rtc R x y ∧ R y z.
Proof.
  induction 1 as [x z H|x x' z H _ (y & Hy & Hz)].
  - exists x. by split.
  - exists y. split; [by eapply rtc_l|done].
Qed.

Lemma chain_lookup s p l i x :
  chain s p l → (p :: l) !! S i = Some x →
  ∃ a, (p :: l) !! i = Some a ∧ owns s a x.
Proof.
  revert p i. induction l as [|q l IH]; intros p i; simpl; [done|].
  intros [Hq Hl]. destruct i as [|i]; simpl.
  - intros [= <-]. by exists p.
  - intros Hx. by apply (IH q i).
Qed.

Section Forest.

Variable s : Store.
Variable c : NodeCacheMap.
Hypothesis Hwf : wf s c.
Hypothesis Htidy : tidy s.

Lemma owns_parent p q : owns s p q → parent_of s q = Some p ∧ q ≠ 0.
Proof.
  intros H. destruct (decide (p = 0)) as [->|Hp].
  - split; [by apply Htidy|]. by apply (wf_top _ _ Hwf).
  - by apply (wf_owner _ _ Hwf).
Qed.

Lemma owns_unique p p' q : owns s p q → owns s p' q → p = p'.
Proof.
  intros [H _]%owns_parent [H' _]%owns_parent. congruence.
Qed.

Lemma owns_allocated p q : owns s p q → q < length s.
Proof. intros [H _]%owns_parent. by eapply parent_of_lt. Qed.

Lemma root_not_reached p : ¬ tc (owns s) p 0.
Proof. intros (y & _ & [_ H]%owns_parent)%tc_last. done. Qed.

Lemma no_cycle q : tc (owns s) 0 q → ¬ tc (owns s) q q.
Proof.
  revert q. apply tc_ind_r.
  - intros z Hz (y & Hy & Hyz)%tc_last.
    rewrite (owns_unique _ _ _ Hyz Hz) in Hy.
    apply rtc_tc in Hy as [->|Hy]; [|by eapply root_not_reached].
    by apply owns_parent in Hz as [_ ?].
  - intros y z _ Hyz IH (y' & Hy' & Hy'z)%tc_last.
    rewrite (owns_unique _ _ _ Hy'z Hyz) in Hy'.
    apply IH. eapply tc_rtc_r; [by apply tc_once|done].
Qed.

Lemma chain_distinct l i j x :
  chain s 0 l → i < j → (0 :: l) !! i = Some x → (0 :: l) !! j = Some x → False.
Proof.
  intros Hl. revert j x. induction i as [|i IH]; intros [|j] x Hij; try lia.
  - intros [= <-] Hj.
    destruct (chain_lookup s 0 l _ _ Hl Hj) as (a & _ & [_ H]%owns_parent). done.
  - intros Hi Hj.
    destruct (chain_lookup s 0 l _ _ Hl Hi) as (a & Ha & Hax).
    destruct (chain_lookup s 0 l _ _ Hl Hj) as (b & Hb & Hbx).
    rewrite (owns_unique _ _ _ Hbx Hax) in Hb.
    apply (IH j a); [lia|done..].
Qed.

Lemma chain_allocated p l : p < length s → chain s p l → ∀ x, x ∈ p :: l → x < length s.
Proof.
  revert p. induction l as [|q l IH]; intros p Hp; simpl.
  - intros _ x ->%list_elem_of_singleton. done.
  - intros [Hq Hl] x [->|Hx]%elem_of_cons; [done|].
    apply (IH q); [by eapply owns_allocated|done..].
Qed.

(** A path down from the root is shorter than the store. *)
Lemma chain_short l : chain s 0 l → length l < length s.
Proof.
  intros Hl. pose proof (wf_root _ _ Hwf) as (Hlen & _).
  assert (NoDup (0 :: l)) as Hnd.
  { apply NoDup_alt. intros i j x Hi Hj.
    destruct (Nat.lt_trichotomy i j) as [H|[H|H]]; [|done|];
      exfalso; eauto using chain_distinct. }
  assert (0 :: l ⊆+ seq 0 (length s)) as Hsub.
  { apply NoDup_submseteq; [done|]. intros x Hx. apply elem_of_seq.
    pose proof (chain_allocated 0 l Hlen Hl x Hx). lia. }
  apply submseteq_length in Hsub. rewrite length_seq in Hsub. simpl in Hsub. lia.
Qed.

End Forest.

Lemma chain_tc s p l i j a b :
  chain s p l → i < j → (p :: l) !! i = Some a → (p :: l) !! j = Some b →
  tc (owns s) a b.
Proof.
  intros Hl. revert b. induction j as [|j IH]; intros b Hij Ha Hb; [lia|].
  destruct (chain_lookup s p l _ _ Hl Hb) as (a' & Ha' & Hab).
  destruct (decide (i = j)) as [->|Hne].
  - rewrite Ha in Ha'. injection Ha' as <-. by apply tc_once.
  - eapply tc_r; [|done]. apply IH; [lia|done..].
Qed.

Lemma chain_live s p l :
  live_children s → p < length s → chain s p l → ∀ x, x ∈ p :: l → x < length s.
Proof.
  intros Hlive. revert p. induction l as [|q l IH]; intros p Hp; simpl.
  - intros _ x ->%list_elem_of_singleton. done.
  - intros [Hq Hl] x [->|Hx]%elem_of_cons; [done|].
    apply (IH q); [|done..]. apply lookup_lt_is_Some_1. by apply (Hlive p).
Qed.

Lemma repeated_element (l : list NodePtr) :
  ¬ NoDup l → ∃ i j x, i < j ∧ l !! i = Some x ∧ l !! j = Some x.
Proof.
  induction l as [|a l IH]; intros Hnd.
  { destruct Hnd. apply NoDup_nil_2. }
  destruct (decide (a ∈ l)) as [Hin|Hin].
  - apply list_elem_of_lookup in Hin as (k & Hk). exists 0, (S k), a.
    split; [lia|]. by split.
  - destruct IH as (i & j & x & Hij & Hi & Hj).
    { intros H. apply Hnd. by apply NoDup_cons. }
    exists (S i), (S j), x. split; [lia|]. by split.
Qed.

(** A descending path with as many steps as the store has nodes runs
    through a cycle. *)
Lemma chain_cycle s p l :
  live_children s → p < length s → chain s p l → length s ≤ length l →
  ∃ q, rtc (owns s) p q ∧ tc (owns s) q q.
Proof.
  intros Hlive Hp Hl Hlen.
  destruct (decide (NoDup (p :: l))) as [Hnd|Hnd].
  - assert (p :: l ⊆+ seq 0 (length s)) as Hsub.
    { apply NoDup_submseteq; [done|]. intros x Hx. apply elem_of_seq.
      pose proof (chain_live s p l Hlive Hp Hl x Hx). lia. }
    apply submseteq_length in Hsub. rewrite length_seq in Hsub. simpl in Hsub. lia.
  - apply repeated_element in Hnd as (i & j & x & Hij & Hi & Hj).
    exists x. split; [|by eapply chain_tc].
    destruct i as [|i]; [by injection Hi as <-|].
    apply tc_rtc. eapply (chain_tc s p l 0 (S i)); [done|lia|done..].
Qed.

(** ** The depth-first traversals *)

Lemma fold_opt_None {A B} (f : A → B → option A) a l :
  fold_opt f a l = None → ∃ a' b, b ∈ l ∧ f a' b = None.
Proof.
  revert a. induction l as [|b l IH]; intros a; simpl; [done|].
  destruct (f a b) as [a1|] eqn:E; simpl.
  - intros (a' & b' & Hin & H)%IH. exists a', b'. split; [by right|done].
  - intros _. exists a, b. split; [by left|done].
Qed.

Lemma preorder_fold fuel s l acc res :
  fold_opt (λ acc child, match s !! child with
                         | Some _ => (λ l, acc ++ child :: l) <$> preorder fuel s child
                         | None => Some acc
                         end) acc l = Some res
  ↔ ∃ parts, Forall2 (visit fuel s) l parts ∧ res = acc ++ mjoin parts.
Proof.
  revert acc. induction l as [|child l IH]; intros acc; simpl.
  { split.
    - intros [= <-]. exists []. split; [constructor|]. by rewrite app_nil_r.
    - intros (parts & ->%Forall2_nil_inv_l & ->). by rewrite app_nil_r. }
  split.
  - destruct (s !! child) as [n|] eqn:E.
    + destruct (preorder fuel s child) as [l1|] eqn:E1; simpl; [|done].
      intros (parts & Hf & ->)%IH. exists ((child :: l1) :: parts). split.
      * constructor; [|done]. unfold visit. rewrite E. by exists l1.
      * simpl. by rewrite <- app_assoc.
    + simpl. intros (parts & Hf & ->)%IH. exists ([] :: parts). split; [|done].
      constructor; [|done]. unfold visit. by rewrite E.
  - intros (parts & Hf & ->). apply Forall2_cons_inv_l in Hf as (part & parts' & Hv & Hf & ->).
    unfold visit in Hv. destruct (s !! child) as [n|] eqn:E.
    + destruct Hv as (l1 & -> & ->). simpl. apply IH. exists parts'. split; [done|].
      simpl. by rewrite <- app_assoc.
    + subst part. simpl. apply IH. by exists parts'.
Qed.

Lemma preorder_S fuel s p l :
  preorder (S fuel) s p = Some l
  ↔ ∃ parts, Forall2 (visit fuel s) (children_of s p) parts ∧ l = mjoin parts.
Proof. simpl. by rewrite preorder_fold. Qed.

(** Running out of depth leaves a descending path as long as the fuel. *)
Lemma preorder_None fuel s p :
  preorder fuel s p = None → ∃ l, length l = fuel ∧ chain s p l.
Proof.
  revert p. induction fuel as [|fuel IH]; intros p; simpl.
  { intros _. by exists []. }
  intros (acc & child & Hin & H)%fold_opt_None.
  destruct (s !! child) eqn:E; [|done].
  destruct (preorder fuel s child) as [l|] eqn:E1; [done|].
  apply IH in E1 as (l & Hl & Hc). exists (child :: l). split; [by simpl; f_equal|].
  by split.
Qed.

(** The traversal lists nodes below [p] only, each an allocated one. *)
Lemma preorder_sound fuel s p l q :
  preorder fuel s p = Some l → q ∈ l → tc (owns s) p q ∧ is_Some (s !! q).
Proof.
  revert p l q. induction fuel as [|fuel IH]; intros p l q; [done|].
  intros (parts & Hf & ->)%preorder_S Hq.
  apply list_elem_of_join in Hq as (part & Hq & Hpart).
  apply list_elem_of_lookup in Hpart as (i & Hi).
  destruct (Forall2_lookup_r _ _ _ _ _ Hf Hi) as (child & Hc & Hv).
  assert (owns s p child) as Hown by (eapply list_elem_of_lookup_2; done).
  unfold visit in Hv. destruct (s !! child) as [n|] eqn:E.
  - destruct Hv as (l1 & H1 & ->). apply elem_of_cons in Hq as [->|Hq].
    + split; [by apply tc_once|by rewrite E].
    + destruct (IH _ _ _ H1 Hq) as [Ht Hs]. split; [|done]. by eapply tc_l.
  - subst part. by apply elem_of_nil in Hq.
Qed.

(** When children are always allocated, it lists every node below [p]. *)
Lemma preorder_complete fuel s p l q :
  (∀ a b, owns s a b → is_Some (s !! b)) →
  preorder fuel s p = Some l → tc (owns s) p q → q ∈ l.
Proof.
  intros Hclosed. revert p l q. induction fuel as [|fuel IH]; intros p l q; [done|].
  intros (parts & Hf & ->)%preorder_S Ht.
  assert (∃ child, owns s p child ∧ (q = child ∨ tc (owns s) child q))
    as (child & Hown & Hq).
  { inversion Ht; subst; eauto. }
  pose proof Hown as Hown'. apply list_elem_of_lookup in Hown' as (i & Hi).
  destruct (Forall2_lookup_l _ _ _ _ _ Hf Hi) as (part & Hp & Hv).
  apply list_elem_of_join. exists part. split; [|by eapply list_elem_of_lookup_2].
  unfold visit in Hv. destruct (Hclosed _ _ Hown) as [n E]. rewrite E in Hv.
  destruct Hv as (l1 & H1 & ->). destruct Hq as [->|Hq]; [by left|].
  right. by eapply IH.
Qed.

Lemma cache_insert_subseteq r p (c : NodeCacheMap) : c ⊆ cache_insert r p c.
Proof. unfold cache_insert. destruct (c !! r) eqn:E; [done|]. by apply insert_subseteq. Qed.

Lemma cache_fill_subseteq s c l : c ⊆ cache_fill s c l.
Proof.
  revert c. induction l as [|q l IH]; intros c; simpl; [done|].
  etrans; [apply cache_insert_subseteq|apply IH].
Qed.

Lemma cache_fill_is_Some s c l q : q ∈ l → is_Some (cache_fill s c l !! refid_of s q).
Proof.
  revert c. induction l as [|q' l IH]; intros c Hq; [by apply elem_of_nil in Hq|].
  apply elem_of_cons in Hq as [->|Hq]; simpl; [|by apply IH].
  assert (is_Some (cache_insert (refid_of s q') q' c !! refid_of s q')) as [x Hx].
  { unfold cache_insert. destruct (c !! refid_of s q') eqn:E; [by rewrite E|].
    rewrite lookup_insert_eq. by eexists. }
  exists x. eapply lookup_weaken; [done|apply cache_fill_subseteq].
Qed.

(** [getIndexCache] walks the tree below [parent] depth-first and inserts
    each node it meets, in that order. *)
Lemma getIndexCache_preorder fuel s c p :
  getIndexCache fuel s c p = cache_fill s c <$> preorder fuel s p.
Proof.
  revert c p. induction fuel as [|fuel IH]; intros c p; simpl; [done|].
  change c with (cache_fill s c []) at 1.
  generalize (@nil NodePtr) as acc. generalize (children_of s p) as l.
  induction l as [|child l IHl]; intros acc; simpl; [done|].
  destruct (s !! child) as [n|] eqn:E; [|apply IHl].
  rewrite IH. destruct (preorder fuel s child) as [l1|]; simpl; [|done].
  rewrite <- IHl. f_equal. unfold cache_fill. rewrite foldl_app. simpl.
  replace (refid_of s child) with (refid n); [done|].
  unfold refid_of. by rewrite E.
Qed.

(** Once the depth is enough, more of it changes nothing. *)
Lemma preorder_stable fuel s p l :
  preorder fuel s p = Some l → preorder (S fuel) s p = Some l.
Proof.
  revert p l. induction fuel as [|fuel IH]; intros p l; [done|].
  rewrite !preorder_S. intros (parts & Hf & ->). exists parts. split; [|done].
  eapply Forall2_impl; [done|]. intros child part. unfold visit.
  destruct (s !! child); [|done]. intros (l1 & H1 & ->). exists l1. split; [|done].
  by apply IH.
Qed.

Lemma getIndexCache_stable fuel s c p c' :
  getIndexCache fuel s c p = Some c' → getIndexCache (S fuel) s c p = Some c'.
Proof.
  rewrite !getIndexCache_preorder.
  destruct (preorder fuel s p) as [l|] eqn:E; [|done].
  by rewrite (preorder_stable _ _ _ _ E).
Qed.

Lemma foldM_app {A B} (f : A → B → result A) a l1 l2 :
  foldM f a (l1 ++ l2) = bind (foldM f a l1) (λ a, foldM f a l2).
Proof.
  revert a. induction l1 as [|b l1 IH]; intros a; simpl; [done|].
  destruct (f a b); simpl; [apply IH|done..].
Qed.

Lemma finalized_emit d acc child l :
  finalized (emit (call_Node_finalize child) (finalized d acc)) l
  = finalized d (acc ++ child :: l).
Proof.
  unfold finalized, emit; simpl. f_equal.
  rewrite fmap_app. simpl. by rewrite <- !app_assoc.
Qed.

Lemma finalized_nil d : finalized d [] = d.
Proof. destruct d. unfold finalized. simpl. by rewrite app_nil_r. Qed.

Lemma finalized_app d l1 l2 : finalized (finalized d l1) l2 = finalized d (l1 ++ l2).
Proof. unfold finalized. simpl. by rewrite fmap_app, app_assoc. Qed.

Section Finalize.

Variable Node_finalize : Store → NodeCacheMap → NodePtr → result unit.

Lemma finalize_each_cons d q l :
  finalize_each Node_finalize d (q :: l)
  = bind (Node_finalize (nodes d) (cache d) q)
         (λ _, finalize_each Node_finalize (emit (call_Node_finalize q) d) l).
Proof.
  unfold finalize_each. cbn [foldM emit nodes cache].
  by destruct (Node_finalize (nodes d) (cache d) q).
Qed.

Lemma finalize_each_app d l1 l2 :
  finalize_each Node_finalize d (l1 ++ l2)
  = bind (finalize_each Node_finalize d l1) (λ d, finalize_each Node_finalize d l2).
Proof. apply foldM_app. Qed.

(** When every call returns, the loader has only its log extended. *)
Lemma finalize_each_Return d l d' :
  finalize_each Node_finalize d l = Return d'
  ↔ d' = finalized d l ∧ Forall (finalizes Node_finalize d) l.
Proof.
  revert d. induction l as [|q l IH]; intros d.
  { unfold finalize_each. simpl. rewrite finalized_nil.
    split; [by intros [= <-]|by intros [-> _]]. }
  rewrite finalize_each_cons.
  assert (finalized (emit (call_Node_finalize q) d) l = finalized d (q :: l)) as Hfin.
  { unfold finalized, emit. simpl. by rewrite <- app_assoc. }
  destruct (Node_finalize (nodes d) (cache d) q) as [u| | |] eqn:E; cbn [bind].
  - rewrite IH, Hfin. split.
    + intros [-> Hf]. split; [done|]. constructor; [by exists u|done].
    + intros [-> Hf]. split; [done|]. by inversion Hf.
  - split; [done|]. intros [_ Hf]. inversion Hf as [|? ? [u Hu]]; subst. congruence.
  - split; [done|]. intros [_ Hf]. inversion Hf as [|? ? [u Hu]]; subst. congruence.
  - split; [done|]. intros [_ Hf]. inversion Hf as [|? ? [u Hu]]; subst. congruence.
Qed.

Lemma finalize_each_nodes d l d' :
  finalize_each Node_finalize d l = Return d' → nodes d' = nodes d ∧ cache d' = cache d.
Proof. by intros [-> _]%finalize_each_Return. Qed.

(** [finalizeRecursively] calls [Node::finalize] on the nodes below
    [node] in depth-first order, parents first, and stops with the first
    call that does not return. *)
Lemma finalizeRecursively_preorder fuel d node l :
  live_children (nodes d) →
  preorder fuel (nodes d) node = Some l →
  finalizeRecursively Node_finalize fuel d node = Some (finalize_each Node_finalize d l).
Proof.
  intros Hlive. remember (nodes d) as s eqn:Hs. revert d node l Hs.
  induction fuel as [|fuel IH]; intros d node l Hs; [done|].
  intros (parts & Hf & ->)%preorder_S. simpl. rewrite <- Hs.
  assert (∀ k, k ∈ children_of s node → is_Some (s !! k)) as Hl
    by (intros k Hk; by eapply Hlive).
  revert d parts Hs Hl Hf. generalize (children_of s node) as kids.
  induction kids as [|k kids IHk]; intros d parts Hs Hl Hf.
  { by apply Forall2_nil_inv_l in Hf as ->. }
  apply Forall2_cons_inv_l in Hf as (part & parts' & Hv & Hf & ->).
  destruct (Hl k) as [n Hn]; [by left|]. unfold visit in Hv. rewrite Hn in Hv.
  destruct Hv as (l1 & Hl1 & ->).
  cbn [fold_res mjoin list_join]. rewrite <- app_comm_cons, finalize_each_cons.
  cbn [emit nodes cache].
  destruct (Node_finalize (nodes d) (cache d) k) as [u| | |]; cbn [bind]; [|done..].
  rewrite (IH _ k l1) by done. rewrite finalize_each_app.
  destruct (finalize_each Node_finalize (emit (call_Node_finalize k) d) l1)
    as [a| | |] eqn:Ea; cbn [bind]; [|done..].
  apply finalize_each_nodes in Ea as [Ea _].
  apply IHk; [by rewrite Ea|intros k' Hk'; apply Hl; by right|done].
Qed.

(** Running out of depth leaves a descending path as long as the fuel. *)
Lemma finalizeRecursively_None fuel d node :
  live_children (nodes d) →
  finalizeRecursively Node_finalize fuel d node = None →
  ∃ l, length l = fuel ∧ chain (nodes d) node l.
Proof.
  intros Hlive H. destruct (preorder fuel (nodes d) node) as [l|] eqn:E.
  - by rewrite (finalizeRecursively_preorder _ _ _ _ Hlive E) in H.
  - by apply preorder_None.
Qed.

Lemma finalize_each_stuck d l :
  (∀ d', finalize_each Node_finalize d l ≠ Return d') → ∃ q, q ∈ l ∧ ¬ finalizes Node_finalize d q.
Proof.
  revert d. induction l as [|q l IH]; intros d H.
  { by destruct (H d). }
  destruct (Node_finalize (nodes d) (cache d) q) as [u| | |] eqn:E.
  - destruct (IH (emit (call_Node_finalize q) d)) as (q' & Hq' & Hn).
    + intros d'. specialize (H d'). by rewrite finalize_each_cons, E in H.
    + exists q'. split; [by right|done].
  - exists q. split; [by left|]. intros [u Hu]. congruence.
  - exists q. split; [by left|]. intros [u Hu]. congruence.
  - exists q. split; [by left|]. intros [u Hu]. congruence.
Qed.

(** A traversal that runs out of depth does not return; if it ends at
    all, then with a call of [Node::finalize] that did not return. *)
Lemma finalizeRecursively_deep fuel d node r :
  live_children (nodes d) →
  preorder fuel (nodes d) node = None →
  finalizeRecursively Node_finalize fuel d node = Some r →
  (∀ d', r ≠ Return d') ∧ ∃ q, tc (owns (nodes d)) node q ∧ ¬ finalizes Node_finalize d q.
Proof.
  intros Hlive.
  assert (∀ d0 q, nodes d0 = nodes d → cache d0 = cache d →
            ¬ finalizes Node_finalize d0 q → ¬ finalizes Node_finalize d q) as Hsame.
  { intros d0 q Hn Hc0 H [u Hu]. apply H. exists u. by rewrite Hn, Hc0. }
  assert (∀ fuel d0 node r, nodes d0 = nodes d → cache d0 = cache d →
            preorder fuel (nodes d) node = None →
            finalizeRecursively Node_finalize fuel d0 node = Some r →
            (∀ d', r ≠ Return d') ∧ ∃ q, tc (owns (nodes d)) node q ∧ ¬ finalizes Node_finalize d q)
    as Hmain.
  2:{ by apply (Hmain fuel d node r). }
  clear fuel node r. induction fuel as [|fuel IH]; intros d0 node r Hs Hc; [done|].
  simpl. rewrite Hs.
  assert (∀ k, k ∈ children_of (nodes d) node → owns (nodes d) node k) as Hown by done.
  revert Hown. generalize (children_of (nodes d) node) as kids.
  generalize (@nil NodePtr) as acc.
  intros acc kids. revert d0 acc Hs Hc.
  induction kids as [|k kids IHk]; intros d0 acc Hs Hc Hown; [done|].
  cbn [fold_opt fold_res]. destruct (Hlive node k) as [n Hn]; [apply Hown; by left|].
  rewrite Hn.
  assert (owns (nodes d) node k) as Hk by (apply Hown; by left).
  assert (∀ r' : result Doxygen, (∀ d', r' ≠ Return d') →
            match r' with Return a => False | _ => True end) as Hnot.
  { intros [a| | |] Hr; [by destruct (Hr a)|done..]. }
  destruct (Node_finalize (nodes d0) (cache d0) k) as [u| | |] eqn:E.
  2,3,4: (intros _ [= <-]; split; [done|]; exists k; split; [by apply tc_once|];
          apply (Hsame d0); [done..|]; intros [u Hu]; congruence).
  destruct (preorder fuel (nodes d) k) as [l1|] eqn:E1; cbn [fmap option_fmap option_map mbind option_bind].
  - rewrite (finalizeRecursively_preorder fuel _ k l1);
      [|by cbn [emit nodes]; rewrite Hs..].
    destruct (finalize_each Node_finalize (emit (call_Node_finalize k) d0) l1)
      as [a| | |] eqn:Ea.
    { apply finalize_each_nodes in Ea as [Ea1 Ea2]. cbn [emit nodes cache] in Ea1, Ea2.
      apply IHk; [congruence|congruence|]. intros k' Hk'. apply Hown. by right. }
    all: intros _ [= <-]; split; [done|].
    all: destruct (finalize_each_stuck (emit (call_Node_finalize k) d0) l1)
           as (q & Hq & Hnq); [intros d'; by rewrite Ea|].
    all: exists q; split;
           [eapply tc_l; [exact Hk|];
            by destruct (preorder_sound _ _ _ _ _ E1 Hq)
           |by apply (Hsame (emit (call_Node_finalize k) d0))].
  - intros _.
    destruct (finalizeRecursively Node_finalize fuel (emit (call_Node_finalize k) d0) k)
      as [r'|] eqn:Er; [|done].
    destruct (IH (emit (call_Node_finalize k) d0) k r' Hs Hc E1 Er)
      as (Hr' & q & Hq & Hnq).
    apply Hnot in Hr' as Hr''. destruct r' as [a| | |]; [done|..].
    all: intros [= <-]; split; [done|]; exists q; split; [by eapply tc_l|done].
Qed.

(** Over a finite tree [finalize] is the sequence of the calls of
    [Node::finalize] in depth-first order. *)
Lemma finalize_preorder d l :
  live_children (nodes d) →
  preorder (length (nodes d)) (nodes d) (index d) = Some l →
  finalize Node_finalize d = finalize_each Node_finalize d l.
Proof.
  intros Hlive E. unfold finalize. by rewrite (finalizeRecursively_preorder _ _ _ _ Hlive E).
Qed.

End Finalize.

(** ** The stages of [load] *)


Section Stages.

Variable NDEBUG : bool.
Variable Path_join : string → string → string.
Variable Xml_open : string → exception + list Element.
Variable iteration : KindRefidMap → list (string * string).
Variable Node_parse :
  Store → NodeCacheMap → string → string → bool →
  Store * NodeCacheMap * (exception + NodePtr).







End Stages.


Lemma cache_fill_noop s c l :
  (∀ q, q ∈ l → is_Some (c !! refid_of s q)) → cache_fill s c l = c.
Proof.
  revert c. induction l as [|q l IH]; intros c Hl; simpl; [done|].
  assert (cache_insert (refid_of s q) q c = c) as ->.
  { unfold cache_insert. destruct (Hl q) as [x ->]; [by left|done]. }
  apply IH. intros q' Hq'. apply Hl. by right.
Qed.

(** ** The load over the modelled [Node::parse] *)

Lemma wfd_strict_forest d : wfd d → tidy (nodes d) → strict_forest d.
Proof.
  intros [Hi Hwf] Ht. split_and!.
  - intros p p' q. by eapply owns_unique.
  - apply Hwf.
  - intros q Hq. split.
    + apply tc_last in Hq as (p & _ & Hp). by exists p.
    + unfold in_tree in Hq. rewrite Hi in Hq. by eapply no_cycle.
Qed.

Lemma wfd_preorder d :
  wfd d → tidy (nodes d) →
  ∃ l, preorder (length (nodes d)) (nodes d) (index d) = Some l
       ∧ cache_fill (nodes d) (cache d) l = cache d.
Proof.
  intros [Hi Hwf] Ht. rewrite Hi.
  destruct (preorder (length (nodes d)) (nodes d) 0) as [l|] eqn:E.
  - exists l. split; [done|]. apply cache_fill_noop. intros q Hq.
    destruct (preorder_sound _ _ _ _ _ E Hq) as [(p & _ & Hp)%tc_last [n Hn]].
    destruct (owns_parent _ _ Hwf Ht _ _ Hp) as [_ Hq0].
    exists q. apply (wf_cached _ _ Hwf); [done|].
    unfold refid_at, refid_of. by rewrite Hn.
  - apply preorder_None in E as (l & Hl & Hc).
    pose proof (chain_short _ _ Hwf Ht l Hc). lia.
Qed.

(** The cache rebuild comes back, and finds every node of the tree in
    the cache already. *)
Lemma rebuild_cache_model d :
  wfd d → tidy (nodes d) →
  rebuild_cache d = Return (emit (call_getIndexCache (index d)) d).
Proof.
  intros Hd Ht. unfold rebuild_cache. cbn [emit nodes cache index].
  rewrite getIndexCache_preorder.
  destruct (wfd_preorder d Hd Ht) as (l & -> & Hl). simpl. by rewrite Hl.
Qed.

Section ModelFacts.

Variable NDEBUG : bool.
Variable Path_join : string → string → string.
Variable Xml_open : string → exception + list Element.
Variable iteration : KindRefidMap → list (string * string).
Variable docs : gmap string EntityDoc.

Local Abbreviation stage1 := (after_language iteration (Node_parse_spec docs)).
Local Abbreviation stage2 := (after_groups iteration (Node_parse_spec docs)).
Local Abbreviation stage3 := (after_dirs iteration (Node_parse_spec docs)).
Local Abbreviation load' := (load NDEBUG Path_join Xml_open iteration (Node_parse_spec docs)).

Lemma stages_wfd m d :
  wfd d →
  (wfd (stage1 m d) ∧ tidy (nodes (stage1 m d)))
  ∧ (wfd (stage2 m d) ∧ tidy (nodes (stage2 m d)))
  ∧ (wfd (stage3 m d) ∧ tidy (nodes (stage3 m d))).
Proof.
  intros Hd.
  pose proof (stage_wfd iteration docs isKindAllowedLanguage false m d Hd) as H1.
  pose proof (stage_wfd iteration docs isKindAllowedGroup true m _ (proj1 H1)) as H2.
  pose proof (stage_wfd iteration docs isKindAllowedDirs true m _ (proj1 H2)) as H3.
  done.
Qed.

(** Over a well-formed store [load] returns whenever the index could be
    read, and its result is the state after the third cleanup. *)
Lemma load_model d m w :
  wfd d →
  getIndexKinds NDEBUG Path_join Xml_open d = Return (m, w) →
  load' d = Return (emit (call_getIndexCache (index d))
                      (stage3 m (mkDoxygen (index d) (inputDir d) (cache d) (nodes d)
                                   (trace d ++ w)))).
Proof.
  intros Hd Hk. unfold load. rewrite Hk. cbn [bind].
  set (d0 := mkDoxygen _ _ _ _ _).
  assert (wfd d0) as Hd0 by done.
  destruct (stages_wfd m d0 Hd0) as (_ & _ & H3 & T3).
  rewrite rebuild_cache_model by done. do 2 f_equal.
  destruct (stage_trace iteration (Node_parse_spec docs) isKindAllowedDirs true m
              (stage2 m d0)) as (I3 & _).
  destruct (stage_trace iteration (Node_parse_spec docs) isKindAllowedGroup true m
              (stage1 m d0)) as (I2 & _).
  destruct (stage_trace iteration (Node_parse_spec docs) isKindAllowedLanguage false m d0)
    as (I1 & _).
  unfold after_dirs. rewrite I3. unfold after_groups. rewrite I2.
  unfold after_language. by rewrite I1.
Qed.

(** C3: after each of the three cleanups of a load that starts from a
    fresh loader, no node stands in two children sequences or twice in
    one, every node of the tree stands in one, and no node of the tree
    is its own ancestor. *)
Theorem C3_strict_forest_after_cleanup (path : string) (w : list event) (m : KindRefidMap) :
  let d0 := mkDoxygen 0 path ∅ [mkNode "index" None [] None] w in
  strict_forest (stage1 m d0) ∧ strict_forest (stage2 m d0) ∧ strict_forest (stage3 m d0).
Proof.
  intros d0. destruct (stages_wfd m d0 (wfd_new path w)) as ([] & [] & []).
  split_and!; by apply wfd_strict_forest.
Qed.

End ModelFacts.

(** ** What the order of the index entries decides *)

Section Order.

Variable Node_parse :
  Store → NodeCacheMap → string → string → bool →
  Store * NodeCacheMap * (exception + NodePtr).

Lemma fold_construct_accepted allowed flag l d :
  fold_left (construct Node_parse allowed flag) l d
  = fold_left (construct Node_parse allowed flag) (accepted allowed l) d.
Proof.
  revert d. induction l as [|pr l IH]; intros d; [done|].
  unfold accepted. rewrite filter_cons. case_decide as Ha; simpl.
  - apply IH.
  - rewrite <- IH. f_equal. unfold construct.
    destruct (allowed pr.1); [done|]. done.
Qed.

Lemma pass_accepted it it' allowed flag m d :
  accepted allowed (it m) = accepted allowed (it' m) →
  pass it Node_parse allowed flag m d = pass it' Node_parse allowed flag m d.
Proof.
  intros H. unfold pass.
  by rewrite fold_construct_accepted, H, <- fold_construct_accepted.
Qed.

(** Two iteration orders that show each pass the same sequence of
    accepted entries lead to the same state after the third cleanup. *)
Lemma after_dirs_accepted it it' m d :
  accepted isKindAllowedLanguage (it m) = accepted isKindAllowedLanguage (it' m) →
  accepted isKindAllowedGroup (it m) = accepted isKindAllowedGroup (it' m) →
  accepted isKindAllowedDirs (it m) = accepted isKindAllowedDirs (it' m) →
  after_dirs it Node_parse m d = after_dirs it' Node_parse m d.
Proof.
  intros H1 H2 H3. unfold after_dirs, after_groups, after_language.
  rewrite (pass_accepted it it' isKindAllowedLanguage false m _ H1).
  rewrite (pass_accepted it it' isKindAllowedGroup true m _ H2).
  by rewrite (pass_accepted it it' isKindAllowedDirs true m _ H3).
Qed.

End Order.

Lemma accepted_singleton allowed (l l' : list (string * string)) x :
  l ≡ₚ l' → accepted allowed l' = [x] → accepted allowed l = [x].
Proof.
  intros Hp Hx. apply Permutation_singleton_r. rewrite <- Hx.
  unfold accepted. by rewrite Hp.
Qed.

(** C2: with the index listing the class C1, the group G1 and the file
    F1, where only G1 declares a child, namely C1, the loaded root has the
    children G1 and F1 in this order, G1 has the child C1, and C1 is no
    child of the root; this for every order in which the multimap hands
    out its three entries. *)
Theorem C2_class_group_file (NDEBUG : bool) (Path_join : string → string → string)
    (iteration : KindRefidMap → list (string * string)) (dir : string) :
  (∀ m, iteration m ≡ₚ m) →
  ∃ d g,
    load NDEBUG Path_join (λ _, inr Scenario.index_xml) iteration
         (Node_parse_spec Scenario.docs) (Doxygen_new dir) = Return d
    ∧ child_refids d (index d) = ["G1"; "F1"]
    ∧ cache d !! "G1" = Some g
    ∧ child_refids d g = ["C1"]
    ∧ "C1" ∉ child_refids d (index d).
Proof.
  intros Hperm. unfold load.
  assert (getIndexKinds NDEBUG Path_join (λ _, inr Scenario.index_xml) (Doxygen_new dir)
          = Return ([("class", "C1"); ("group", "G1"); ("file", "F1")], [])) as ->
    by by destruct NDEBUG.
  cbn [bind].
  rewrite (after_dirs_accepted _ iteration id);
    [|eapply accepted_singleton; [apply Hperm|by vm_compute]..].
  eexists _, _. split; [vm_compute; reflexivity|].
  split_and!; [by vm_compute..|].
  vm_compute. intros H. repeat (apply elem_of_cons in H as [H|H]; [done|]).
  by apply elem_of_nil in H.
Qed.

Lemma C2_class_group_file_witness :
  ∃ d g,
    load true Scenario.Path_join (λ _, inr Scenario.index_xml) id
         (Node_parse_spec Scenario.docs) (Doxygen_new "xml") = Return d
    ∧ child_refids d (index d) = ["G1"; "F1"]
    ∧ cache d !! "G1" = Some g
    ∧ child_refids d g = ["C1"]
    ∧ "C1" ∉ child_refids d (index d).
Proof.
  apply (C2_class_group_file true Scenario.Path_join id "xml").
  intros m. reflexivity.
Defined.

(** *** Trees up to the order of the children *)

Lemma tree_iso_label t t' : tree_iso t t' → 
  match t, t' with T r _, T r' _ => r = r' end.
Proof. by destruct 1. Qed.

Lemma tree_iso_kids r ks r' ks' :
  tree_iso (T r ks) (T r' ks') → length ks = length ks'.
Proof.
  inversion 1 as [? ? ? ks'' Hp Hf]; subst.
  apply Forall2_length in Hf. apply Permutation_length in Hp. congruence.
Qed.

(** C8 fails as stated: the index documents that list the groups G1 and
    G2 in the two possible orders differ by a permutation inside the
    group pass only, yet with G1 first the class C1 that both declare
    ends up below G1, and with G2 first below G2. *)
Lemma C8_counterexample :
  Elems (TwoGroups.doxygenindex "G1" "G2") ≡ₚ Elems (TwoGroups.doxygenindex "G2" "G1")
  ∧ ∃ t t',
      loaded_tree (TwoGroups.loaded "G1" "G2") = Some t
      ∧ loaded_tree (TwoGroups.loaded "G2" "G1") = Some t'
      ∧ ¬ tree_iso t t'.
Proof.
  split; [apply perm_swap|].
  eexists _, _. split; [vm_compute; reflexivity|]. split; [vm_compute; reflexivity|].
  inversion 1 as [? ? ? ks'' Hp Hf]; subst.
  apply Forall2_cons_inv_l in Hf as (a & ks1 & Ha & Hf & ->).
  apply Forall2_cons_inv_l in Hf as (b & ks2 & Hb & Hf & ->).
  apply Forall2_nil_inv_l in Hf as ->.
  assert (a ∈ [T "G2" [T "C1" []]; T "G1" []]) as Hin.
  { rewrite Hp. by left. }
  apply elem_of_cons in Hin as [->|Hin].
  - by apply tree_iso_label in Ha.
  - apply list_elem_of_singleton in Hin as ->. by apply tree_iso_kids in Ha.
Qed.

(** ** One node for each refid *)

Lemma construct_cached parse allowed flag d k r p :
  cache d !! r = Some p → construct parse allowed flag d (k, r) = d.
Proof. intros H. unfold construct. simpl. rewrite H. by destruct (negb _). Qed.

(** C4: a pass leaves an entry alone whose refid is in the cache, so that
    after [load] over a fresh loader no two nodes besides the root carry
    the same refid, however often the index names it, and the cache maps
    a refid to the one node that carries it. *)
Theorem C4_one_node_for_each_refid (NDEBUG : bool)
    (Path_join : string → string → string)
    (Xml_open : string → exception + list Element)
    (iteration : KindRefidMap → list (string * string))
    (docs : gmap string EntityDoc) (path : string) (d : Doxygen) :
  load NDEBUG Path_join Xml_open iteration (Node_parse_spec docs) (Doxygen_new path) = Return d →
  (∀ allowed flag d' k r p,
     cache d' !! r = Some p → construct (Node_parse_spec docs) allowed flag d' (k, r) = d')
  ∧ (∀ p p' r, p ≠ index d → p' ≠ index d →
               refid_at (nodes d) p = Some r → refid_at (nodes d) p' = Some r → p = p')
  ∧ (∀ r p p', cache d !! r = Some p → cache d !! r = Some p' → p = p')
  ∧ (∀ r p, cache d !! r = Some p → refid_at (nodes d) p = Some r).
Proof.
  intros Hload. split; [intros; by eapply construct_cached|].
  assert (wfd d) as [Hi Hwf].
  { destruct (getIndexKinds NDEBUG Path_join Xml_open (Doxygen_new path))
      as [[m w]| | |] eqn:Hk; [|unfold load in Hload; by rewrite Hk in Hload..].
    pose proof (load_model NDEBUG Path_join Xml_open iteration docs
                  (Doxygen_new path) m w (wfd_new path []) Hk) as E.
    rewrite E in Hload. injection Hload as <-.
    by destruct (stages_wfd iteration docs m _ (wfd_new path ([] ++ w))) as (_ & _ & [] & _). }
  rewrite Hi. split_and!.
  - intros p p' r Hp Hp' Hr Hr'.
    pose proof (wf_cached _ _ Hwf p r Hp Hr). pose proof (wf_cached _ _ Hwf p' r Hp' Hr').
    congruence.
  - congruence.
  - intros r p Hc. by apply (wf_cache _ _ Hwf).
Qed.

Lemma C4_one_node_for_each_refid_witness :
  ∃ d, Scenario.loaded = Return d
       ∧ (∀ p p' r, p ≠ index d → p' ≠ index d →
                    refid_at (nodes d) p = Some r → refid_at (nodes d) p' = Some r → p = p')
       ∧ (∀ r p, cache d !! r = Some p → refid_at (nodes d) p = Some r).
Proof.
  eexists. split; [vm_compute; reflexivity|].
  edestruct (C4_one_node_for_each_refid true Scenario.Path_join
               (λ _, inr Scenario.index_xml) id Scenario.docs "xml")
    as (_ & H1 & _ & H2); [vm_compute; reflexivity|].
  split; [exact H1|exact H2].
Defined.

(** ** Concrete runs *)

(** The modelled parse gives the precedence the spec describes: the class
    that a namespace and a group both declare ends up below the
    namespace only. *)
Lemma phase_precedence :
  loaded_tree Precedence.loaded
  = Some (T "index" [T "N1" [T "C1" []]; T "G1" []]).
Proof. by vm_compute. Qed.

Lemma C9_cleanup_touches_root_children_only_witness :
  parent_of (nodes Stale.d) 2 ≠ Some 1
  ∧ children_of (nodes (run_cleanup Stale.d)) 1 = [2].
Proof.
  split; [done|].
  destruct (C9_cleanup_touches_root_children_only Stale.d 1 ltac:(done)) as (H & _).
  unfold children_of. rewrite H. reflexivity.
Defined.

Lemma C10_empty_index_is_fatal_witness :
  load false Scenario.Path_join (λ _, inr EmptyIndex.index_xml) id
       (Node_parse_spec Scenario.docs) (Doxygen_new "xml")
  = Throw (DOXYGEN_EXCEPTION "No <compound> element in file {}" ["xml/index.xml"]).
Proof.
  apply (C10_empty_index_is_fatal false Scenario.Path_join
           (λ _, inr EmptyIndex.index_xml) id (Node_parse_spec Scenario.docs)
           (Doxygen_new "xml") EmptyIndex.index_xml (Elem "doxygenindex" [] []));
    reflexivity.
Defined.

(** C7 fails as stated: a compound without [refid] does not abort the
    load; it is logged, and the class C1 listed after it is loaded. *)
Lemma C7_counterexample :
  ∃ d,
    load false Scenario.Path_join (λ _, inr MissingRefid.index_xml) id
         (Node_parse_spec Scenario.docs) (Doxygen_new "xml") = Return d
    ∧ child_refids d (index d) = ["C1"]
    ∧ trace d = [WARNING "compound error {}" [What (XmlError "refid")];
                 call_Node_parse "C1" false; call_cleanup 0; call_cleanup 0;
                 call_cleanup 0; call_getIndexCache 0].
Proof. eexists. split; [vm_compute; reflexivity|]. by vm_compute. Qed.

Lemma C7_fatal_index_errors_witness :
  ¬ (∃ e, load false Scenario.Path_join (λ _, inr MissingRefid.index_xml) id
               (Node_parse_spec Scenario.docs) (Doxygen_new "xml") = Throw e)
  ∧ ∃ name, read_compound false ([], []) (Elem "compound" [("kind", "class")] [])
            = Return ([], [WARNING "compound error {}" [What (XmlError name)]]).
Proof.
  destruct (C7_fatal_index_errors false Scenario.Path_join
              (λ _, inr MissingRefid.index_xml) id (Node_parse_spec Scenario.docs)
              (Doxygen_new "xml")) as [H1 H2].
  split.
  - intros H. apply H1 in H. vm_compute in H. discriminate H.
  - apply (H2 [] []). right. reflexivity.
Defined.

(** ** The cache after the rebuild *)

(** C6, as the code has it: the rebuild walks the tree depth-first and
    inserts each node under its refid where the cache has no entry for
    that refid; an entry made during construction is never replaced or
    removed.  After a load over a fresh loader the traversal has met
    exactly the nodes of the tree, and each of them is the node the
    cache holds for its refid. *)
Theorem C6_cache_rebuild (NDEBUG : bool)
    (Path_join : string → string → string)
    (Xml_open : string → exception + list Element)
    (iteration : KindRefidMap → list (string * string))
    (docs : gmap string EntityDoc) (path : string) (d : Doxygen) :
  load NDEBUG Path_join Xml_open iteration (Node_parse_spec docs) (Doxygen_new path) = Return d →
  (∀ fuel s c p, getIndexCache fuel s c p = cache_fill s c <$> preorder fuel s p)
  ∧ (∀ s c l, c ⊆ cache_fill s c l)
  ∧ (∀ s c l q, q ∈ l → is_Some (cache_fill s c l !! refid_of s q))
  ∧ ∃ l, preorder (length (nodes d)) (nodes d) (index d) = Some l
         ∧ (∀ q, q ∈ l ↔ in_tree d q)
         ∧ (∀ q, in_tree d q → cache d !! refid_of (nodes d) q = Some q).
Proof.
  intros Hload.
  split; [apply getIndexCache_preorder|]. split; [apply cache_fill_subseteq|].
  split; [apply cache_fill_is_Some|].
  assert (wfd d ∧ tidy (nodes d)) as [[Hi Hwf] Ht].
  { destruct (getIndexKinds NDEBUG Path_join Xml_open (Doxygen_new path))
      as [[m w]| | |] eqn:Hk; [|unfold load in Hload; by rewrite Hk in Hload..].
    pose proof (load_model NDEBUG Path_join Xml_open iteration docs
                  (Doxygen_new path) m w (wfd_new path []) Hk) as E.
    rewrite E in Hload. injection Hload as <-.
    by destruct (stages_wfd iteration docs m _ (wfd_new path ([] ++ w))) as (_ & _ & ?). }
  destruct (wfd_preorder d (conj Hi Hwf) Ht) as (l & Hl & _).
  exists l. split; [done|].
  assert (∀ q, in_tree d q → q ≠ 0 ∧ is_Some (nodes d !! q)) as Hnode.
  { intros q (p & _ & Hp)%tc_last. split; [by eapply owns_parent|].
    apply lookup_lt_is_Some_2. by eapply owns_allocated. }
  split.
  - intros q. unfold in_tree. rewrite Hi in *. split.
    + intros Hq. by destruct (preorder_sound _ _ _ _ _ Hl Hq).
    + intros Hq. apply (preorder_complete (length (nodes d)) (nodes d) 0 l q); [|done..].
      intros a b Hab.
      apply lookup_lt_is_Some_2. by eapply owns_allocated.
  - intros q Hq. destruct (Hnode q Hq) as [Hq0 [n Hn]].
    apply (wf_cached _ _ Hwf); [done|]. unfold refid_at, refid_of. by rewrite Hn.
Qed.

Lemma C6_cache_rebuild_witness :
  ∃ d l, Scenario.loaded = Return d
         ∧ preorder (length (nodes d)) (nodes d) (index d) = Some l
         ∧ (∀ q, in_tree d q → cache d !! refid_of (nodes d) q = Some q).
Proof.
  eexists.
  edestruct (C6_cache_rebuild true Scenario.Path_join (λ _, inr Scenario.index_xml) id
               Scenario.docs "xml") as (_ & _ & _ & l & Hl & _ & Hc);
    [vm_compute; reflexivity|].
  exists l. split; [vm_compute; reflexivity|]. split; [exact Hl|exact Hc].
Defined.

(** C6 fails as stated: the rebuild does not overwrite an entry.  Where
    the cache holds a node outside the tree for the refid of a node of
    the tree, it holds it after the rebuild too. *)
Lemma C6_counterexample :
  (owns Orphan.store 0 1 ∧ refid_of Orphan.store 1 = "A"
   ∧ ∃ c, getIndexCache 3 Orphan.store {[ "A" := 2 ]} 0 = Some c ∧ c !! "A" = Some 2)
  ∧ refid_of Orphan.store 2 = "A" ∧ ¬ tc (owns Orphan.store) 0 2.
Proof.
  split.
  - split; [by left|]. split; [done|]. eexists. split; [vm_compute; reflexivity|].
    by vm_compute.
  - split; [done|]. intros (y & _ & Hy)%tc_last. vm_compute in Hy.
    destruct y as [|[|[|y]]]; [|by apply elem_of_nil in Hy..].
    by apply list_elem_of_singleton in Hy.
Qed.

(** ** A parse that fails *)

Section Failure.

Variable iteration : KindRefidMap → list (string * string).
Variable docs : gmap string EntityDoc.

Local Abbreviation construct' := (construct (Node_parse_spec docs)).

Lemma documented_insert c r p doc :
  docs !! r = Some doc → documented docs c → documented docs (cache_insert r p c).
Proof.
  intros Hd Hc r'. unfold cache_insert. destruct (c !! r) eqn:E; [apply Hc|].
  rewrite lookup_insert. case_decide; subst; [by rewrite Hd|apply Hc].
Qed.









End Failure.

Lemma children_of_snoc (s : Store) n q :
  children_of (s ++ [n]) q = if decide (q = length s) then children n else children_of s q.
Proof.
  unfold children_of. rewrite lookup_snoc. case_decide; [done|done].
Qed.

Lemma parent_of_snoc (s : Store) n q :
  parent_of (s ++ [n]) q = if decide (q = length s) then parent n else parent_of s q.
Proof.
  unfold parent_of. rewrite lookup_snoc. case_decide; [done|done].
Qed.


(** ** The passes, entity by entity *)

Lemma refid_of_at s q r : refid_at s q = Some r → refid_of s q = r.
Proof. unfold refid_at, refid_of. by destruct (s !! q); intros [= <-]. Qed.

Lemma refid_at_of s q : q < length s → refid_at s q = Some (refid_of s q).
Proof.
  intros Hq. destruct (lookup_lt_is_Some_2 s q Hq) as [n Hn].
  unfold refid_at, refid_of. by rewrite Hn.
Qed.

Lemma refid_of_keeps s s' q : keeps s s' → q < length s → refid_of s' q = refid_of s q.
Proof.
  intros [Hr _] Hq. apply refid_of_at. rewrite Hr by done. by apply refid_at_of.
Qed.

Lemma keeps_refl s : keeps s s.
Proof. by split. Qed.

Lemma keeps_trans s1 s2 s3 :
  length s1 ≤ length s2 → keeps s1 s2 → keeps s2 s3 → keeps s1 s3.
Proof.
  intros Hl [R1 P1] [R2 P2]. split.
  - intros q Hq. rewrite R2 by lia. by apply R1.
  - intros q x Hq Hx. apply P2; [|done]. by apply P1.
Qed.

Lemma owned_keeps s s' q : keeps s s' → owned s q → owned s' q.
Proof. intros [_ Hk] (x & Hx & Hx0). exists x. split; [by apply Hk|done]. Qed.

Lemma unowned_false_owned s c q :
  wf s c → unowned s q = false → owned s q.
Proof.
  intros Hwf. unfold unowned. destruct (parent_of s q) as [x|] eqn:Ex; [|done].
  intros H. exists x. split; [done|]. intros ->.
  pose proof (wf_root _ _ Hwf) as (Hlen & Hk & _).
  destruct (lookup_lt_is_Some_2 s 0 Hlen) as [n Hn]. rewrite Hn in H.
  unfold kind_of in Hk. rewrite Hn in Hk. simpl in Hk.
  by rewrite bool_decide_eq_true_2 in H.
Qed.

Lemma owned_not_unowned s c q : wf s c → owned s q → unowned s q = false.
Proof.
  intros Hwf (x & Hx & Hx0). destruct (unowned s q) eqn:Hu; [|done].
  destruct (unowned_spec _ _ _ Hwf Hu) as [E|E]; rewrite E in Hx; congruence.
Qed.

Lemma keeps_adopt s c p child :
  wf s c → child < length s → keeps s (adopt p child s).
Proof.
  intros Hwf Hc. split.
  - intros q _. apply adopt_refid_at.
  - intros q x Hq Hx. rewrite adopt_parent_of by done.
    destruct (unowned s child) eqn:Hu; [|done]. simpl.
    case_bool_decide as E; [|done]. subst.
    destruct (unowned_spec _ _ _ Hwf Hu) as [E|E]; rewrite E in Hq; congruence.
Qed.

Lemma owned_adopt s c p child :
  wf s c → p ≠ 0 → child < length s → owned (adopt p child s) child.
Proof.
  intros Hwf Hp Hc. destruct (unowned s child) eqn:Hu.
  - exists p. split; [|done]. rewrite adopt_parent_of, Hu by done.
    by rewrite bool_decide_eq_true_2.
  - unfold adopt. rewrite Hu. by eapply unowned_false_owned.
Qed.

Lemma refid_of_adopt p child s q : refid_of (adopt p child s) q = refid_of s q.
Proof.
  pose proof (adopt_refid_at p child s q) as H. unfold refid_at, refid_of in *.
  destruct (adopt p child s !! q), (s !! q); simpl in *; congruence.
Qed.

Section ParseInv.

Variable docs : gmap string EntityDoc.
Variable flag : bool.
Variable allowed : string → bool.
Variable l : list (string * string).
Variable s0 : Store.

Local Abbreviation pinv' := (pinv docs flag allowed l s0).
Local Abbreviation wanted' := (wanted docs flag allowed l (length s0)).
Local Abbreviation parse_post' := (parse_post docs flag allowed l s0).

Lemma wanted_keeps s s' bound m :
  keeps s s' → bound ≤ length s → wanted' s bound m → wanted' s' bound m.
Proof.
  intros Hk Hb [H|(P & HP & HPb & Hd)]; [by left|]. right.
  exists P. split; [done|]. split; [done|]. by rewrite (refid_of_keeps s s') by (done || lia).
Qed.

Lemma pinv_loose s c open loose loose' :
  pinv' s c open loose →
  (∀ q, q ∈ loose → parent_of s q = None → q ∈ loose') →
  pinv' s c open loose'.
Proof.
  intros [] Hl. split; try done. intros q Hq0 Hq Hpar. apply Hl; [|done]. by apply pi_orphan0.
Qed.

Lemma pinv_close s c p open loose :
  pinv' s c (p :: open) loose →
  (∀ r doc m, refid_at s p = Some r → docs !! r = Some doc →
              m ∈ declared flag doc → is_Some (docs !! m) →
              ∃ q, c !! m = Some q ∧ owned s q) →
  pinv' s c open loose.
Proof.
  intros [] Hp. split; try done. intros P r doc m HP0 HP Hr Hd Hm Hdm.
  destruct (decide (P = p)) as [->|Hne]; [by eapply Hp|].
  eapply pi_closed0; try done. by apply not_elem_of_cons.
Qed.

Lemma linked_adopt s c p child :
  wf s c → p < length s → child < length s → linked s → linked (adopt p child s).
Proof.
  intros Hwf Hp Hc Hl q x. rewrite adopt_parent_of, adopt_children_of by done.
  destruct (unowned s child) eqn:Hu; simpl; [|apply Hl].
  case_bool_decide as E; subst.
  - intros [= <-]. rewrite bool_decide_eq_true_2 by done. apply elem_of_app. right. by left.
  - intros Hq. apply Hl in Hq. case_bool_decide; [|done]. apply elem_of_app. by left.
Qed.

Lemma pinv_adopt s c open loose p child :
  pinv' s c open loose →
  p ≠ 0 → p < length s → child ≠ 0 → child < length s → length s0 ≤ p →
  declares docs flag (refid_of s p) (refid_of s child) →
  pinv' (adopt p child s) c open loose.
Proof.
  intros [] Hp0 Hp Hc0 Hc Hps Hd.
  pose proof (keeps_adopt s c p child pi_wf0 Hc) as Hk.
  split.
  - by apply wf_adopt.
  - by rewrite adopt_length.
  - done.
  - by eapply linked_adopt.
  - intros q Hq0. rewrite adopt_length, adopt_parent_of by done. intros Hq.
    destruct (unowned s child && bool_decide (q = child)); [done|]. by apply pi_orphan0.
  - intros P r doc m HP0 HP. rewrite adopt_refid_at. intros Hr Hdoc Hm Hdm.
    destruct (pi_closed0 P r doc m) as (q & Hq & Ho); try done.
    exists q. split; [done|]. by eapply owned_keeps.
  - intros q Hq0. rewrite adopt_length. intros Hq.
    rewrite refid_of_adopt. eapply wanted_keeps; [done|lia|]. by apply pi_origin0.
  - intros q x. rewrite adopt_parent_of, !refid_of_adopt by done.
    destruct (unowned s child) eqn:Hu; simpl; [|apply pi_parent0].
    case_bool_decide as E; subst; [|apply pi_parent0].
    intros [= <-] _. by right.
Qed.

Lemma refid_of_snoc (s : Store) n q :
  q < length s → refid_of (s ++ [n]) q = refid_of s q.
Proof. intros Hq. unfold refid_of. by rewrite lookup_app_l. Qed.

Lemma keeps_alloc (s : Store) n : keeps s (s ++ [n]).
Proof.
  split.
  - intros q Hq. unfold refid_at. by rewrite lookup_app_l.
  - intros q x Hq _. pose proof (parent_of_lt _ _ _ Hq).
    unfold parent_of in *. by rewrite lookup_app_l.
Qed.

Lemma pinv_alloc s c open loose r doc :
  pinv' s c open loose → c !! r = None → docs !! r = Some doc →
  wanted' s (length s) r →
  pinv' (s ++ [mkNode r (Some (doc_kind doc)) [] None]) (cache_insert r (length s) c)
        (length s :: open) (length s :: loose).
Proof.
  intros [] Hc Hd Hw. set (n := mkNode r (Some (doc_kind doc)) [] None).
  pose proof (keeps_alloc s n) as Hk.
  assert (∀ q, parent_of (s ++ [n]) q = parent_of s q) as Hpa.
  { intros q. rewrite parent_of_snoc. case_decide; subst; [|done].
    unfold parent_of. by rewrite lookup_ge_None_2. }
  assert (∀ q, children_of (s ++ [n]) q = children_of s q) as Hch.
  { intros q. rewrite children_of_snoc. case_decide; subst; [|done].
    unfold children_of. by rewrite lookup_ge_None_2. }
  split.
  - by apply wf_alloc.
  - rewrite length_app. lia.
  - by eapply documented_insert.
  - intros q x. rewrite Hpa, Hch. apply pi_link0.
  - intros q Hq0. rewrite length_app, Hpa. simpl. intros Hq Hpar.
    destruct (decide (q = length s)) as [->|Hne]; [by left|].
    right. apply pi_orphan0; [done|lia|done].
  - intros P r' doc' m HP0 [HPn HP]%not_elem_of_cons Hr Hdoc Hm Hdm.
    assert (refid_at s P = Some r') as Hr'.
    { unfold refid_at in *. rewrite lookup_snoc in Hr. by rewrite decide_False in Hr. }
    destruct (pi_closed0 P r' doc' m) as (q & Hq & Ho); try done.
    exists q. split; [|by eapply owned_keeps].
    eapply lookup_weaken; [done|apply cache_insert_subseteq].
  - intros q Hq0. rewrite length_app. simpl. intros Hq.
    destruct (decide (q = length s)) as [->|Hne].
    + assert (refid_of (s ++ [n]) (length s) = r) as ->.
      { unfold refid_of. by rewrite list_lookup_middle. }
      eapply wanted_keeps; [done|lia|done].
    + rewrite refid_of_snoc by lia. eapply wanted_keeps; [done|lia|].
      apply pi_origin0; [done|lia].
  - intros q x. rewrite Hpa. intros Hq Hx.
    pose proof (parent_of_lt _ _ _ Hq) as Hql.
    destruct (pi_parent0 q x Hq Hx) as [H|[H1 H2]]; [by left|right].
    split; [done|]. rewrite !refid_of_snoc; [done|done|].
    apply pi_link0 in Hq. destruct (decide (x < length s)); [done|].
    unfold children_of in Hq. rewrite lookup_ge_None_2 in Hq by lia.
    by apply elem_of_nil in Hq.
Qed.

Lemma parse_children_inv rec p :
  (∀ s c m open loose, pinv' s c open loose → c !! m = None → wanted' s (length s) m →
                       parse_post' s c open loose m (rec s c m)) →
  ∀ ls s c open loose r doc,
    pinv' s c (p :: open) (p :: loose) →
    length s0 ≤ p → p ≠ 0 → refid_at s p = Some r → docs !! r = Some doc →
    ls ⊆ declared flag doc →
    match parse_children rec p ls s c with
    | (s', c', Some res) =>
        res = inr p ∧ pinv' s' c' (p :: open) (p :: loose)
        ∧ grows s c s' c' ∧ keeps s s'
        ∧ ∀ m, m ∈ ls → is_Some (docs !! m) → ∃ q, c' !! m = Some q ∧ owned s' q
    | (_, _, None) => True
    end.
Proof.
  intros Hrec. induction ls as [|m ls IH]; intros s c open loose r doc Hinv Hps Hp0 Hr Hd Hls.
  { simpl. split_and!; [done|done|apply grows_refl|apply keeps_refl|].
    by intros m Hm%elem_of_nil. }
  pose proof (pi_wf _ _ _ _ _ _ _ _ _ Hinv) as Hwf.
  pose proof (refid_at_lt _ _ _ Hr) as Hpl.
  assert (declares docs flag (refid_of s p) m) as Hdecl.
  { rewrite (refid_of_at _ _ _ Hr). exists doc. split; [done|]. apply Hls. by left. }
  assert (ls ⊆ declared flag doc) as Hls' by (intros x Hx; apply Hls; by right).
  cbn [parse_children]. destruct (c !! m) as [child|] eqn:Em.
  - destruct (wf_cache _ _ Hwf m child Em) as [Hc0 Hcr].
    pose proof (refid_at_lt _ _ _ Hcr) as Hcl.
    pose proof (keeps_adopt s c p child Hwf Hcl) as Hk.
    specialize (IH (adopt p child s) c open loose r doc).
    destruct (parse_children rec p ls (adopt p child s) c) as [[s' c'] [res|]]; [|done].
    destruct IH as (-> & Hinv' & Hg & Hk' & Hcl'); try done.
    + apply pinv_adopt; try done. by rewrite (refid_of_at _ _ _ Hcr).
    + by rewrite adopt_refid_at.
    + split_and!; try done.
      * eapply grows_trans; [|done]. by apply grows_adopt.
      * eapply keeps_trans; [|done|done]. by rewrite adopt_length.
      * intros m' [->|Hm']%elem_of_cons Hdm; [|by apply Hcl'].
        exists child. split; [by eapply lookup_weaken; [|apply Hg]|].
        eapply owned_keeps; [done|]. by eapply owned_adopt.
  - specialize (Hrec s c m (p :: open) (p :: loose) Hinv Em).
    destruct (rec s c m) as [[s1 c1] [[e|child]|]]; [| |done].
    + destruct Hrec as (Hdm & -> & ->). { right. exists p. by split_and!. }
      specialize (IH s c open loose r doc Hinv Hps Hp0 Hr Hd Hls').
      destruct (parse_children rec p ls s c) as [[s' c'] [res|]]; [|done].
      destruct IH as (-> & Hinv' & Hg & Hk' & Hcl'). split_and!; try done.
      intros m' [->|Hm']%elem_of_cons Hdm'; [|by apply Hcl'].
      rewrite Hdm in Hdm'. by destruct Hdm'.
    + destruct Hrec as (-> & Hdm & Hcm & Hinv1 & Hg1 & Hk1). { right. exists p. by split_and!. }
      pose proof (pi_wf _ _ _ _ _ _ _ _ _ Hinv1) as Hwf1.
      destruct Hg1 as (GL & GC & GR).
      destruct (wf_cache _ _ Hwf1 m (length s) Hcm) as [Hc0 Hcr].
      pose proof (refid_at_lt _ _ _ Hcr) as Hcl.
      assert (refid_at s1 p = Some r) as Hr1 by (by rewrite (proj1 Hk1)).
      pose proof (keeps_adopt s1 c1 p (length s) Hwf1 Hcl) as Hk.
      specialize (IH (adopt p (length s) s1) c1 open loose r doc).
      destruct (parse_children rec p ls (adopt p (length s) s1) c1) as [[s' c'] [res|]]; [|done].
      destruct IH as (-> & Hinv' & Hg & Hk' & Hcl'); try done.
      * eapply pinv_loose.
        { apply pinv_adopt; [done|done|lia|done|done|done|].
          rewrite (refid_of_at _ _ _ Hcr), (refid_of_at _ _ _ Hr1).
          exists doc. split; [done|]. apply Hls. by left. }
        intros q [->|Hq]%elem_of_cons Hpar; [|done].
        destruct (owned_adopt s1 c1 p (length s) Hwf1 Hp0 Hcl) as (x & Hx & _). congruence.
      * by rewrite adopt_refid_at.
      * split_and!; try done.
        -- eapply grows_trans; [|done].
           eapply grows_trans; [by split_and!|]. apply grows_adopt; [done|lia].
        -- apply (keeps_trans s s1 s'); [done|done|].
           apply (keeps_trans s1 (adopt p (length s) s1) s'); [|done|done].
           by rewrite adopt_length.
        -- intros m' [->|Hm']%elem_of_cons Hdm'; [|by apply Hcl'].
           exists (length s). split; [by eapply lookup_weaken; [|apply Hg]|].
           eapply owned_keeps; [done|]. by eapply owned_adopt.
Qed.

Lemma parse_fuel_inv fuel s c m open loose :
  pinv' s c open loose → c !! m = None → wanted' s (length s) m →
  parse_post' s c open loose m (parse_fuel docs fuel s c m flag).
Proof.
  revert s c m open loose. induction fuel as [|fuel IH]; intros s c m open loose Hinv Hc Hw;
    [done|].
  cbn [parse_fuel]. destruct (docs !! m) as [doc|] eqn:Hd; [|done].
  set (n := mkNode m (Some (doc_kind doc)) [] None).
  pose proof (pi_wf _ _ _ _ _ _ _ _ _ Hinv) as Hwf.
  pose proof (wf_root _ _ Hwf) as (Hlen & _).
  pose proof (pinv_alloc s c open loose m doc Hinv Hc Hd Hw) as Hinv1.
  fold n in Hinv1.
  assert (refid_at (s ++ [n]) (length s) = Some m) as Hr.
  { unfold refid_at. by rewrite list_lookup_middle. }
  pose proof (parse_children_inv (λ s c m, parse_fuel docs fuel s c m flag) (length s)
                (λ s c m open loose, IH s c m open loose)
                (declared flag doc) (s ++ [n]) (cache_insert m (length s) c)
                open loose m doc Hinv1 (pi_len _ _ _ _ _ _ _ _ _ Hinv)
                ltac:(lia) Hr Hd ltac:(done)) as H.
  fold (declared flag doc).
  destruct (parse_children _ _ _ _ _) as [[s' c'] [res|]]; [|done].
  destruct H as (-> & Hinv' & Hg & Hk & Hcl). cbn [parse_post].
  split; [done|]. split; [done|]. split.
  { eapply lookup_weaken; [|apply Hg]. unfold cache_insert. by rewrite Hc, lookup_insert_eq. }
  split.
  { eapply pinv_close; [done|]. intros r doc' m' Hr' Hd' Hm' Hdm'.
    rewrite (proj1 Hk) in Hr' by (rewrite length_app; simpl; lia).
    rewrite Hr in Hr'. injection Hr' as <-. rewrite Hd in Hd'. injection Hd' as <-.
    by apply Hcl. }
  split.
  - eapply grows_trans; [|done]. by apply grows_alloc.
  - eapply (keeps_trans s (s ++ [n]) s'); [|apply keeps_alloc|done].
    rewrite length_app. lia.
Qed.

(** [Node::parse] as modelled, called by a pass for an entry it accepts. *)
Lemma Node_parse_spec_inv s c dir m loose :
  pinv' s c [] loose → c !! m = None → (∃ k, (k, m) ∈ l ∧ allowed k = true) →
  match Node_parse_spec docs s c dir m flag with
  | (s', c', inr p) =>
      p = length s ∧ is_Some (docs !! m) ∧ c' !! m = Some p
      ∧ pinv' s' c' [] (p :: loose) ∧ grows s c s' c' ∧ keeps s s'
  | (s', c', inl _) => docs !! m = None ∧ s' = s ∧ c' = c
  end.
Proof.
  intros Hinv Hc Hw.
  pose proof (pi_wf _ _ _ _ _ _ _ _ _ Hinv) as Hwf.
  destruct (Node_parse_spec_fuel docs s c dir m flag Hwf Hc) as (res & E & Eres).
  pose proof (parse_fuel_inv (S (S (size docs))) s c m [] loose Hinv Hc ltac:(by left)) as H.
  rewrite E in H. destruct (Node_parse_spec docs s c dir m flag) as [[s' c'] res'].
  simpl in *. subst res'. by destruct res.
Qed.

Lemma refid_of_attach root child s q : refid_of (attach root child s) q = refid_of s q.
Proof.
  pose proof (attach_refid_at root child s q) as H. unfold refid_at, refid_of in *.
  destruct (attach root child s !! q), (s !! q); simpl in *; congruence.
Qed.

Lemma refid_of_cleanup node s q : refid_of (cleanup node s) q = refid_of s q.
Proof.
  pose proof (cleanup_refid_at node s q) as H. unfold refid_at, refid_of in *.
  destruct (cleanup node s !! q), (s !! q); simpl in *; congruence.
Qed.

Lemma keeps_attach root child s : child < length s → keeps s (attach root child s).
Proof.
  intros Hc. split.
  - intros q _. apply attach_refid_at.
  - intros q x Hq _. rewrite attach_parent_of by done. case_decide; subst; [|done].
    by rewrite Hq.
Qed.

Lemma keeps_cleanup node s : keeps s (cleanup node s).
Proof.
  split.
  - intros q _. apply cleanup_refid_at.
  - intros q x Hq _. by rewrite cleanup_parent_of.
Qed.

Lemma pinv_attach s c p :
  pinv' s c [] [p] → p ≠ 0 → p < length s → p ∉ children_of s 0 →
  pinv' (attach 0 p s) c [] [].
Proof.
  intros [] Hp0 Hp Hfresh. pose proof (wf_root _ _ pi_wf0) as (Hlen & _).
  pose proof (keeps_attach 0 p s Hp) as Hk.
  split.
  - by apply wf_attach.
  - by rewrite attach_length.
  - done.
  - intros q x. rewrite attach_parent_of, attach_children_of by done.
    case_decide as E; subst.
    + destruct (parent_of s p) as [y|] eqn:Ey; simpl; intros [= <-].
      * apply pi_link0 in Ey. case_decide; [|done]. apply elem_of_app. by left.
      * rewrite decide_True by done. apply elem_of_app. right. by left.
    + intros Hq%pi_link0. case_decide; [|done]. apply elem_of_app. by left.
  - intros q Hq0. rewrite attach_length, attach_parent_of by done. intros Hq.
    case_decide as E; [done|]. intros Hpar.
    apply pi_orphan0 in Hpar; [|done..]. by apply list_elem_of_singleton in Hpar.
  - intros P r doc m HP0 HP. rewrite attach_refid_at. intros Hr Hdoc Hm Hdm.
    destruct (pi_closed0 P r doc m) as (q & Hq & Ho); try done.
    exists q. split; [done|]. by eapply owned_keeps.
  - intros q Hq0. rewrite attach_length. intros Hq.
    rewrite refid_of_attach. eapply wanted_keeps; [done|lia|]. by apply pi_origin0.
  - intros q x. rewrite attach_parent_of, !refid_of_attach by done.
    case_decide as E; subst; [|apply pi_parent0].
    destruct (parent_of s p) as [y|] eqn:Ey; simpl; intros [= <-]; [|done].
    by apply pi_parent0.
Qed.

Lemma pinv_cleanup s c :
  pinv' s c [] [] → pinv' (cleanup 0 s) c [] [] ∧ tidy (cleanup 0 s).
Proof.
  intros []. destruct (wf_cleanup _ _ pi_wf0) as [Hwf Ht]. split; [|done].
  pose proof (keeps_cleanup 0 s) as Hk.
  split.
  - done.
  - by rewrite cleanup_length.
  - done.
  - intros q x. rewrite cleanup_parent_of, cleanup_children_of. intros Hq.
    pose proof (pi_link0 _ _ Hq) as Hin. case_decide; subst; [|done].
    by apply list_elem_of_filter.
  - intros q Hq0. rewrite cleanup_length, cleanup_parent_of. by apply pi_orphan0.
  - intros P r doc m HP0 HP. rewrite cleanup_refid_at. intros Hr Hdoc Hm Hdm.
    destruct (pi_closed0 P r doc m) as (q & Hq & Ho); try done.
    exists q. split; [done|]. by eapply owned_keeps.
  - intros q Hq0. rewrite cleanup_length. intros Hq.
    rewrite refid_of_cleanup. eapply wanted_keeps; [done|lia|]. by apply pi_origin0.
  - intros q x. rewrite cleanup_parent_of, !refid_of_cleanup. apply pi_parent0.
Qed.

(** One entry of the pass. *)
Lemma construct_inv d pr :
  pr ∈ l → index d = 0 → pinv' (nodes d) (cache d) [] [] →
  let d' := construct (Node_parse_spec docs) allowed flag d pr in
  index d' = 0 ∧ pinv' (nodes d') (cache d') [] []
  ∧ cache d ⊆ cache d' ∧ length (nodes d) ≤ length (nodes d') ∧ keeps (nodes d) (nodes d')
  ∧ (allowed pr.1 = true → is_Some (docs !! pr.2) → is_Some (cache d' !! pr.2)).
Proof.
  intros Hin Hi Hinv. unfold construct. destruct (allowed pr.1) eqn:Ha; simpl.
  2:{ split_and!; by try apply keeps_refl. }
  destruct (cache d !! pr.2) as [q|] eqn:Ec.
  { split_and!; try done; try apply keeps_refl. }
  pose proof (pi_wf _ _ _ _ _ _ _ _ _ Hinv) as Hwf.
  pose proof (Node_parse_spec_inv (nodes d) (cache d) (inputDir d) pr.2 [] Hinv Ec) as H.
  destruct (Node_parse_spec docs _ _ _ _ _) as [[s' c'] [e|p]]; simpl.
  - destruct H as (Hd & -> & ->). { exists pr.1. by destruct pr. }
    split_and!; try done; try apply keeps_refl.
    intros _ Hd'. rewrite Hd in Hd'. by destruct Hd'.
  - destruct H as (-> & Hd & Hc & Hinv' & (GL & GC & GR) & Hk). { exists pr.1. by destruct pr. }
    pose proof (pi_wf _ _ _ _ _ _ _ _ _ Hinv') as Hwf'.
    pose proof (wf_root _ _ Hwf) as (Hlen & _).
    destruct (wf_cache _ _ Hwf' _ _ Hc) as [_ Hpl%refid_at_lt].
    rewrite Hi. split; [done|]. split.
    { apply pinv_attach; [done|lia|done|].
      intros Hin'. unfold children_of in Hin'. rewrite GR in Hin'.
      apply (wf_top _ _ Hwf) in Hin'. lia. }
    split; [done|]. split; [by rewrite attach_length|]. split.
    { eapply (keeps_trans _ s'); [done|done|]. by apply keeps_attach. }
    intros _ _. by rewrite Hc.
Qed.

Lemma fold_construct_inv ls d :
  ls ⊆ l → index d = 0 → pinv' (nodes d) (cache d) [] [] →
  let d' := fold_left (construct (Node_parse_spec docs) allowed flag) ls d in
  index d' = 0 ∧ pinv' (nodes d') (cache d') [] []
  ∧ cache d ⊆ cache d' ∧ length (nodes d) ≤ length (nodes d') ∧ keeps (nodes d) (nodes d')
  ∧ (∀ k r, (k, r) ∈ ls → allowed k = true → is_Some (docs !! r) → is_Some (cache d' !! r)).
Proof.
  revert d. induction ls as [|pr ls IH]; intros d Hls Hi Hinv.
  { simpl. split_and!; try done; try apply keeps_refl. by intros k r Hin%elem_of_nil. }
  cbn [fold_left].
  destruct (construct_inv d pr) as (Hi1 & Hinv1 & Hc1 & Hl1 & Hk1 & He1);
    [apply Hls; by left|done|done|].
  destruct (IH (construct (Node_parse_spec docs) allowed flag d pr))
    as (Hi2 & Hinv2 & Hc2 & Hl2 & Hk2 & He2); [intros x Hx; apply Hls; by right|done|done|].
  split_and!; try done.
  - by etrans.
  - lia.
  - by eapply keeps_trans.
  - intros k r [<-|Hin]%elem_of_cons Ha Hd; [|by apply (He2 k)].
    destruct (He1 Ha Hd) as [q Hq]. exists q. by eapply lookup_weaken.
Qed.

End ParseInv.

Section PassInv.

Variable docs : gmap string EntityDoc.

Lemma pinv_start flag allowed l s c :
  settled docs s c → pinv docs flag allowed l s s c [] [].
Proof.
  intros []. split; try done.
  - intros q Hq0 Hq Hpar. by destruct (st_parent0 q).
  - intros P r doc m HP _ Hr%refid_at_lt. lia.
  - intros q Hq Hq'. lia.
  - intros q x Hq _. by left.
Qed.

Lemma pinv_settled flag allowed l s0 s c :
  pinv docs flag allowed l s0 s c [] [] → tidy s → settled docs s c.
Proof.
  intros [] Ht. split; try done. intros q Hq0 Hq Hpar.
  by apply pi_orphan0, elem_of_nil in Hpar.
Qed.

(** A pass and its cleanup. *)
Lemma stage_inv it m allowed flag d :
  index d = 0 → settled docs (nodes d) (cache d) →
  let d' := run_cleanup (pass it (Node_parse_spec docs) allowed flag m d) in
  index d' = 0
  ∧ pinv docs flag allowed (it m) (nodes d) (nodes d') (cache d') [] []
  ∧ tidy (nodes d')
  ∧ cache d ⊆ cache d' ∧ length (nodes d) ≤ length (nodes d') ∧ keeps (nodes d) (nodes d')
  ∧ (∀ k r, (k, r) ∈ it m → allowed k = true → is_Some (docs !! r) →
            is_Some (cache d' !! r)).
Proof.
  intros Hi Hs.
  destruct (fold_construct_inv docs flag allowed (it m) (nodes d) (it m) d)
    as (Hi1 & Hinv1 & Hc1 & Hl1 & Hk1 & He1); [done|done|by apply pinv_start|].
  unfold run_cleanup, pass. cbn [with_nodes emit index nodes cache].
  rewrite Hi1. destruct (pinv_cleanup _ _ _ _ _ _ _ Hinv1) as [Hinv2 Ht].
  split_and!; try done.
  - by rewrite cleanup_length.
  - eapply keeps_trans; [done|done|apply keeps_cleanup].
Qed.

Section OnePass.

Variable flag : bool.
Variable allowed : string → bool.
Variable l : list (string * string).
Variable s0 s : Store.
Variable c0 c : NodeCacheMap.
Variable old : string → Prop.

Hypothesis Hstart : settled docs s0 c0.
Hypothesis Hinv : pinv docs flag allowed l s0 s c [] [].
Hypothesis Hcache : c0 ⊆ c.
Hypothesis Hkeeps : keeps s0 s.
Hypothesis Hentries :
  ∀ k r, (k, r) ∈ l → allowed k = true → is_Some (docs !! r) → is_Some (c !! r).
Hypothesis Hold : ∀ r, old r ↔ is_Some (c0 !! r).

Local Abbreviation reach' := (reach docs old allowed flag l).

Lemma made_not_old r q : c !! r = Some q → length s0 ≤ q → ¬ old r.
Proof.
  intros Hq Hl [q0 Hq0]%Hold.
  destruct (wf_cache _ _ (st_wf _ _ _ Hstart) _ _ Hq0) as [_ Hlt%refid_at_lt].
  pose proof (lookup_weaken _ _ _ _ Hq0 Hcache). simplify_eq. lia.
Qed.

Lemma not_old_made r q : c !! r = Some q → ¬ old r → length s0 ≤ q.
Proof.
  intros Hq Hn. destruct (decide (length s0 ≤ q)) as [|Hlt]; [done|]. destruct Hn.
  apply Hold. exists q.
  destruct (wf_cache _ _ (pi_wf _ _ _ _ _ _ _ _ _ Hinv) _ _ Hq) as [Hq0 Hr].
  apply (wf_cached _ _ (st_wf _ _ _ Hstart)); [done|].
  rewrite <- (proj1 Hkeeps) by lia. done.
Qed.

Lemma node_cached q :
  q ≠ 0 → q < length s → c !! refid_of s q = Some q.
Proof.
  intros Hq0 Hq. apply (wf_cached _ _ (pi_wf _ _ _ _ _ _ _ _ _ Hinv)); [done|].
  by apply refid_at_of.
Qed.

(** Every node the pass made stands for a refid of [reach]. *)
Lemma made_reach q : length s0 ≤ q → q < length s → reach' (refid_of s q).
Proof.
  pose proof (wf_root _ _ (st_wf _ _ _ Hstart)) as (Hlen & _).
  induction (lt_wf q) as [q _ IH]. intros Hq0 Hq.
  pose proof (node_cached q ltac:(lia) Hq) as Hc.
  assert (is_Some (docs !! refid_of s q)) as Hd.
  { apply (pi_doc _ _ _ _ _ _ _ _ _ Hinv). by rewrite Hc. }
  pose proof (made_not_old _ _ Hc Hq0) as Hn.
  destruct (pi_origin _ _ _ _ _ _ _ _ _ Hinv q Hq0 Hq) as [(k & Hk & Ha)|(P & HP0 & HP & Hdecl)].
  - by eapply reach_entry.
  - eapply reach_declared; [|done..]. apply IH; [done|done|lia].
Qed.

(** Every refid of [reach] has a node that the pass made, and the
    documented children it declares are owned. *)
Lemma reach_made r : reach' r → ∃ q, c !! r = Some q ∧ length s0 ≤ q.
Proof.
  induction 1 as [k r Hin Ha Hd Hn|r' r _ (q' & Hq' & Hl') Hdecl Hd Hn].
  - destruct (Hentries k r Hin Ha Hd) as [q Hq]. exists q. split; [done|].
    by eapply not_old_made.
  - destruct Hdecl as (doc & Hdoc & Hm).
    destruct (wf_cache _ _ (pi_wf _ _ _ _ _ _ _ _ _ Hinv) _ _ Hq') as [_ Hr'].
    destruct (pi_closed _ _ _ _ _ _ _ _ _ Hinv q' r' doc r) as (q & Hq & _); try done.
    { apply not_elem_of_nil. }
    exists q. split; [done|]. by eapply not_old_made.
Qed.

Lemma reach_closed r m :
  reach' r → declares docs flag r m → is_Some (docs !! m) → ∃ q, c !! m = Some q ∧ owned s q.
Proof.
  intros (q' & Hq' & Hl')%reach_made (doc & Hdoc & Hm) Hd.
  destruct (wf_cache _ _ (pi_wf _ _ _ _ _ _ _ _ _ Hinv) _ _ Hq') as [_ Hr'].
  apply (pi_closed _ _ _ _ _ _ _ _ _ Hinv q' r doc m); try done. apply not_elem_of_nil.
Qed.

End OnePass.

Lemma ginv_pass levels flag allowed l s0 c0 s c (mk : string → Prop) :
  ginv docs levels s0 c0 →
  pinv docs flag allowed l s0 s c [] [] → tidy s → c0 ⊆ c → keeps s0 s →
  (∀ k r, (k, r) ∈ l → allowed k = true → is_Some (docs !! r) → is_Some (c !! r)) →
  (∀ r, mk r ↔ reach docs (known levels) allowed flag l r) →
  ginv docs (levels ++ [(mk, flag)]) s c.
Proof.
  intros [Hst Hca Hcl Hpa] Hinv Ht Hc Hk He Hmk.
  assert (∀ r, known levels r ↔ is_Some (c0 !! r)) as Hold by (intros r; by rewrite Hca).
  pose proof (pi_wf _ _ _ _ _ _ _ _ _ Hinv) as Hwf.
  pose proof (wf_root _ _ (st_wf _ _ _ Hst)) as (Hlen & _).
  pose proof (pi_len _ _ _ _ _ _ _ _ _ Hinv) as Hl.
  split.
  - by eapply pinv_settled.
  - intros r. split.
    + intros [q Hq]. destruct (decide (length s0 ≤ q)) as [Hq0|Hq0].
      * exists (mk, flag). split; [apply elem_of_app; right; by left|]. simpl. apply Hmk.
        destruct (wf_cache _ _ Hwf _ _ Hq) as [Hq1 Hr].
        rewrite <- (refid_of_at _ _ _ Hr).
        apply (made_reach flag allowed l s0 s c0 c (known levels) Hst Hinv Hc Hold);
          [done|by eapply refid_at_lt].
      * destruct (wf_cache _ _ Hwf _ _ Hq) as [Hq1 Hr].
        rewrite (proj1 Hk) in Hr by lia.
        pose proof (wf_cached _ _ (st_wf _ _ _ Hst) _ _ Hq1 Hr) as Hq'.
        destruct (proj1 (Hca r)) as (lv & Hlv & Hr'); [by rewrite Hq'|].
        exists lv. split; [apply elem_of_app; by left|done].
    + intros (lv & [Hlv| ->%list_elem_of_singleton]%elem_of_app & Hr).
      * destruct (proj2 (Hca r)) as [q Hq]; [by exists lv|].
        exists q. by eapply lookup_weaken.
      * apply Hmk in Hr. destruct (reach_made flag allowed l s0 s c0 c (known levels)
                                     Hst Hinv Hk He Hold r Hr) as (q & Hq & _).
        by exists q.
  - intros lv r m [Hlv| ->%list_elem_of_singleton]%elem_of_app Hr Hd Hdm.
    + destruct (Hcl lv r m Hlv Hr Hd Hdm) as (q & Hq & Ho). exists q.
      split; [by eapply lookup_weaken|by eapply owned_keeps].
    + apply Hmk in Hr.
      by apply (reach_closed flag allowed l s0 s c0 c (known levels) Hst Hinv Hk He Hold r m).
  - intros q x Hq Hx.
    pose proof (parent_of_lt _ _ _ Hq) as Hql.
    assert (x < length s) as Hxl.
    { apply (pi_link _ _ _ _ _ _ _ _ _ Hinv) in Hq. destruct (decide (x < length s)); [done|].
      unfold children_of in Hq. rewrite lookup_ge_None_2 in Hq by lia.
      by apply elem_of_nil in Hq. }
    assert (q ≠ 0) as Hq0.
    { intros ->. destruct (wf_root _ _ Hwf) as (_ & _ & H0). congruence. }
    destruct (pi_parent _ _ _ _ _ _ _ _ _ Hinv q x Hq Hx) as [Hq'|[Hx0 Hd]].
    + pose proof (parent_of_lt _ _ _ Hq') as Hql'.
      assert (x < length s0) as Hxl'.
      { apply (st_link _ _ _ Hst) in Hq'. destruct (decide (x < length s0)); [done|].
        unfold children_of in Hq'. rewrite lookup_ge_None_2 in Hq' by lia.
        by apply elem_of_nil in Hq'. }
      destruct (Hpa q x Hq' Hx) as (i & lv & Hi & Hlv & Hd & Hmin).
      rewrite <- !(refid_of_keeps s0 s) in * by done.
      exists i, lv. split; [by apply lookup_app_l_Some|]. split; [done|]. split; [done|].
      intros j lv' r' Hj Hj'. apply (Hmin j); [done|].
      pose proof (lookup_lt_Some _ _ _ Hi).
      by rewrite lookup_app_l in Hj' by lia.
    + exists (length levels), (mk, flag). split.
      { by rewrite list_lookup_middle. }
      split.
      { apply Hmk. by apply (made_reach flag allowed l s0 s c0 c (known levels)
                               Hst Hinv Hc Hold). }
      split; [done|].
      intros j lv' r' Hj Hj' Hr' Hd'.
      rewrite lookup_app_l in Hj' by done.
      pose proof (node_cached flag allowed l s0 s c Hinv q Hq0 Hql) as Hcq.
      destruct (Hcl lv' r' (refid_of s q)) as (q0 & Hq0' & (y & Hy & Hy0));
        [by eapply list_elem_of_lookup_2|done|done| |].
      { apply (pi_doc _ _ _ _ _ _ _ _ _ Hinv). by rewrite Hcq. }
      pose proof (lookup_weaken _ _ _ _ Hq0' Hc). simplify_eq.
      pose proof (proj2 Hk _ _ Hy Hy0). simplify_eq.
      apply (st_link _ _ _ Hst) in Hy. unfold children_of in Hy.
      rewrite lookup_ge_None_2 in Hy by lia. by apply elem_of_nil in Hy.
Qed.

Lemma settled_new : settled docs [mkNode "index" None [] None] ∅.
Proof.
  split.
  - apply (wfd_new EmptyString []).
  - intros q Hq. unfold children_of in Hq. simpl in Hq. by apply elem_of_nil in Hq.
  - intros r [q Hq]. by rewrite lookup_empty in Hq.
  - intros q p Hq. unfold parent_of in Hq. by destruct q as [|[|q]].
  - intros q Hq0 Hq. simpl in Hq. lia.
Qed.

Lemma ginv_new : ginv docs [] [mkNode "index" None [] None] ∅.
Proof.
  split.
  - apply settled_new.
  - intros r. rewrite lookup_empty. split; [by intros [? ?]|].
    by intros (lv & Hlv%elem_of_nil & _).
  - by intros lv r m Hlv%elem_of_nil.
  - intros q x Hq. unfold parent_of in Hq. by destruct q as [|[|q]].
Qed.

(** A node that the root owns is declared by no refid of any pass. *)
Lemma ginv_top levels s c q :
  ginv docs levels s c → parent_of s q = Some 0 →
  ∀ lv r', lv ∈ levels → lv.1 r' → ¬ declares docs lv.2 r' (refid_of s q).
Proof.
  intros [Hst Hca Hcl Hpa] Hq lv r' Hlv Hr' Hd.
  pose proof (parent_of_lt _ _ _ Hq) as Hql.
  assert (q ≠ 0) as Hq0.
  { intros ->. destruct (wf_root _ _ (st_wf _ _ _ Hst)) as (_ & _ & H0). congruence. }
  pose proof (wf_cached _ _ (st_wf _ _ _ Hst) q _ Hq0 (refid_at_of _ _ Hql)) as Hc.
  destruct (Hcl lv r' (refid_of s q) Hlv Hr' Hd) as (q' & Hq' & (y & Hy & Hy0)).
  { apply (st_doc _ _ _ Hst). by rewrite Hc. }
  simplify_eq.
Qed.

Lemma reach_ext (old old' : string → Prop) allowed flag l l' r :
  (∀ x, x ∈ l ↔ x ∈ l') → (∀ r, old r ↔ old' r) →
  reach docs old allowed flag l r ↔ reach docs old' allowed flag l' r.
Proof.
  intros Hl Ho. split.
  - induction 1 as [k r Hin Ha Hd Hn|r' r _ IH Hdecl Hd Hn].
    + eapply reach_entry; [by apply Hl|done|done|by rewrite <- Ho].
    + eapply reach_declared; [done|done|done|by rewrite <- Ho].
  - induction 1 as [k r Hin Ha Hd Hn|r' r _ IH Hdecl Hd Hn].
    + eapply reach_entry; [by apply Hl|done|done|by rewrite Ho].
    + eapply reach_declared; [done|done|done|by rewrite Ho].
Qed.

(** After the three passes over any order of the multimap. *)
Lemma after_dirs_ginv it m m0 path w :
  (∀ x, x ∈ it m ↔ x ∈ m0) →
  let d := after_dirs it (Node_parse_spec docs) m
             (mkDoxygen 0 path ∅ [mkNode "index" None [] None] w) in
  index d = 0 ∧ ginv docs (levels docs m0) (nodes d) (cache d)
  ∧ refid_of (nodes d) 0 = "index"
  ∧ (∀ k r, (k, r) ∈ it m → in_some_pass k → is_Some (docs !! r) → is_Some (cache d !! r))
  ∧ (∀ r, is_Some (cache (after_language it (Node_parse_spec docs) m
                             (mkDoxygen 0 path ∅ [mkNode "index" None [] None] w)) !! r)
          ↔ made_language docs m0 r)
  ∧ (∀ r, is_Some (cache (after_groups it (Node_parse_spec docs) m
                             (mkDoxygen 0 path ∅ [mkNode "index" None [] None] w)) !! r)
          ↔ made_language docs m0 r ∨ made_groups docs m0 r).
Proof.
  intros Hm. set (d0 := mkDoxygen 0 path ∅ [mkNode "index" None [] None] w).
  destruct (stage_inv it m isKindAllowedLanguage false d0 eq_refl settled_new)
    as (I1 & P1 & T1 & C1 & _ & K1 & E1).
  fold (after_language it (Node_parse_spec docs) m d0) in I1, P1, T1, C1, K1, E1.
  pose proof (ginv_pass [] false isKindAllowedLanguage (it m) _ _ _ _
                (made_language docs m0) ginv_new P1 T1 C1 K1 E1) as G1.
  cbn [app] in G1.
  assert (ginv docs [(made_language docs m0, false)]
            (nodes (after_language it (Node_parse_spec docs) m d0))
            (cache (after_language it (Node_parse_spec docs) m d0))) as G1'.
  { apply G1. intros r. apply reach_ext; [by symmetry|].
    intros r'. split; [done|]. by intros (lv & Hlv%elem_of_nil & _). }
  clear G1.
  destruct (stage_inv it m isKindAllowedGroup true _ I1 (g_settled _ _ _ _ G1'))
    as (I2 & P2 & T2 & C2 & _ & K2 & E2).
  fold (after_groups it (Node_parse_spec docs) m d0) in I2, P2, T2, C2, K2, E2.
  pose proof (ginv_pass _ true isKindAllowedGroup (it m) _ _ _ _
                (made_groups docs m0) G1' P2 T2 C2 K2 E2) as G2.
  cbn [app] in G2.
  assert (ginv docs [(made_language docs m0, false); (made_groups docs m0, true)]
            (nodes (after_groups it (Node_parse_spec docs) m d0))
            (cache (after_groups it (Node_parse_spec docs) m d0))) as G2'.
  { apply G2. intros r. apply reach_ext; [by symmetry|].
    intros r'. split.
    - intros H. exists (made_language docs m0, false). split; [by left|done].
    - by intros (lv & ->%list_elem_of_singleton & H). }
  clear G2.
  destruct (stage_inv it m isKindAllowedDirs true _ I2 (g_settled _ _ _ _ G2'))
    as (I3 & P3 & T3 & C3 & _ & K3 & E3).
  fold (after_dirs it (Node_parse_spec docs) m d0) in I3, P3, T3, C3, K3, E3.
  pose proof (ginv_pass _ true isKindAllowedDirs (it m) _ _ _ _
                (made_dirs docs m0) G2' P3 T3 C3 K3 E3) as G3.
  cbn [app] in G3. split; [done|]. split; [|split; [|split; [|split]]].
  - apply G3.
    intros r. apply reach_ext; [by symmetry|].
    intros r'. split.
    + intros [H|H].
      * exists (made_language docs m0, false). split; [by left|done].
      * exists (made_groups docs m0, true). split; [by right; left|done].
    + intros (lv & [->|[->|H]%elem_of_cons]%elem_of_cons & H'); [by left|by right|].
      by apply elem_of_nil in H.
  - apply refid_of_at.
    rewrite (proj1 K3), (proj1 K2), (proj1 K1); [done|simpl; lia|..].
    + pose proof (pi_len _ _ _ _ _ _ _ _ _ P1). simpl in *. lia.
    + pose proof (pi_len _ _ _ _ _ _ _ _ _ P1). pose proof (pi_len _ _ _ _ _ _ _ _ _ P2).
      simpl in *. lia.
  - intros k r Hin [Ha|[Ha|Ha]] Hd.
    + destruct (E1 k r Hin Ha Hd) as [q Hq]. exists q.
      eapply lookup_weaken; [|exact C3]. by eapply lookup_weaken.
    + destruct (E2 k r Hin Ha Hd) as [q Hq]. exists q. by eapply lookup_weaken.
    + by apply (E3 k r).
  - intros r. rewrite (g_cached _ _ _ _ G1'). split.
    + by intros (lv & ->%list_elem_of_singleton & H).
    + intros H. exists (made_language docs m0, false). split; [by left|done].
  - intros r. rewrite (g_cached _ _ _ _ G2'). split.
    + intros (lv & [-> | ->%list_elem_of_singleton]%elem_of_cons & H); [by left|by right].
    + intros [H|H].
      * exists (made_language docs m0, false). split; [by left|done].
      * exists (made_groups docs m0, true). split; [by right; left|done].
Qed.

End PassInv.

(** ** Two loads of the same entities *)

Lemma subtree_None fuel s p :
  subtree fuel s p = None → ∃ l, length l = fuel ∧ chain s p l.
Proof.
  revert p. induction fuel as [|fuel IH]; intros p; simpl.
  { intros _. by exists []. }
  destruct (mapM (subtree fuel s) (children_of s p)) as [ks|] eqn:E; [done|]. intros _.
  assert (¬ Forall (is_Some ∘ subtree fuel s) (children_of s p)) as H.
  { intros H%mapM_is_Some. rewrite E in H. by destruct H. }
  apply not_Forall_Exists in H; [|apply _].
  apply Exists_exists in H as (child & Hin & Hn).
  destruct (subtree fuel s child) as [t|] eqn:Et; [by destruct Hn; eexists|].
  apply IH in Et as (l & Hl & Hc). exists (child :: l). split; [by simpl; f_equal|].
  by split.
Qed.

Lemma subtree_is_Some s c : wf s c → tidy s → is_Some (subtree (length s) s 0).
Proof.
  intros Hwf Ht. destruct (subtree (length s) s 0) as [t|] eqn:E; [by eexists|].
  apply subtree_None in E as (l & Hl & Hc).
  pose proof (chain_short _ _ Hwf Ht l Hc). lia.
Qed.

Lemma mapM_Permutation {A B} (f : A → option B) l l' k :
  l ≡ₚ l' → mapM f l = Some k → ∃ k', mapM f l' = Some k' ∧ k ≡ₚ k'.
Proof.
  intros Hp. revert k. induction Hp as [|x l l' Hp IH|x y l|l1 l2 l3 _ IH1 _ IH2]; intros k.
  - intros [= <-]. by exists [].
  - simpl. destruct (f x) as [b|]; [|done]. simpl.
    destruct (mapM f l) as [k1|] eqn:E; [|done]. simpl. intros [= <-].
    destruct (IH k1 eq_refl) as (k' & -> & Hk). exists (b :: k'). split; [done|].
    by constructor.
  - simpl. destruct (f y) as [b|]; [|done]. simpl. destruct (f x) as [a|]; [|done]. simpl.
    destruct (mapM f l) as [k1|]; [|done]. simpl. intros [= <-].
    exists (a :: b :: k1). split; [done|]. apply perm_swap.
  - intros (k2 & H2 & Hk2)%IH1. apply IH2 in H2 as (k3 & H3 & Hk3).
    exists k3. split; [done|]. by etrans.
Qed.

Section TwoLoads.

Variable docs : gmap string EntityDoc.
Variable lvls : list level.
Variable s s' : Store.
Variable c c' : NodeCacheMap.

Hypothesis Hsole : ∀ lv, lv ∈ lvls → sole_owner docs lv.
Hypothesis Hroot : refid_of s 0 = refid_of s' 0.

Lemma ginv_node_cached t k q :
  ginv docs lvls t k → q ≠ 0 → q < length t → k !! refid_of t q = Some q.
Proof.
  intros G Hq0 Hq. apply (wf_cached _ _ (st_wf _ _ _ (g_settled _ _ _ _ G))); [done|].
  by apply refid_at_of.
Qed.

Lemma ginv_parent_node t k q x :
  ginv docs lvls t k → parent_of t q = Some x → q ≠ 0 ∧ q < length t ∧ x < length t.
Proof.
  intros G Hq. pose proof (g_settled _ _ _ _ G) as [Hwf _ _ Hlink _].
  split; [|split].
  - intros ->. destruct (wf_root _ _ Hwf) as (_ & _ & H0). congruence.
  - by eapply parent_of_lt.
  - apply Hlink in Hq. destruct (decide (x < length t)); [done|].
    unfold children_of in Hq. rewrite lookup_ge_None_2 in Hq by lia.
    by apply elem_of_nil in Hq.
Qed.

(** The parent of an entity is the same entity in both stores. *)
Lemma same_parent_one t k t' k' r q q' x :
  ginv docs lvls t k → ginv docs lvls t' k' →
  k !! r = Some q → k' !! r = Some q' → parent_of t q = Some x →
  ∃ x', parent_of t' q' = Some x'
        ∧ ((x = 0 ∧ x' = 0) ∨ (x ≠ 0 ∧ x' ≠ 0 ∧ refid_of t x = refid_of t' x')).
Proof.
  intros G G' Hq Hq' Hx.
  pose proof (g_settled _ _ _ _ G) as St. pose proof (g_settled _ _ _ _ G') as St'.
  destruct (wf_cache _ _ (st_wf _ _ _ St) _ _ Hq) as [Hq0 Hr].
  destruct (wf_cache _ _ (st_wf _ _ _ St') _ _ Hq') as [Hq0' Hr'].
  pose proof (refid_of_at _ _ _ Hr) as Er. pose proof (refid_of_at _ _ _ Hr') as Er'.
  destruct (parent_of t' q') as [x'|] eqn:Hx'.
  2:{ by destruct (st_parent _ _ _ St' q' Hq0' (refid_at_lt _ _ _ Hr')). }
  exists x'. split; [done|].
  assert (is_Some (docs !! r)) as Hd by (apply (st_doc _ _ _ St); by rewrite Hq).
  destruct (decide (x = 0)) as [->|Hx0], (decide (x' = 0)) as [->|Hx0'].
  - by left.
  - exfalso. destruct (g_parent _ _ _ _ G' q' x' Hx' Hx0') as (i & lv & Hi & Hlv & Hdecl & _).
    apply (ginv_top docs lvls t k q G Hx lv (refid_of t' x'));
      [by eapply list_elem_of_lookup_2|done|]. by rewrite Er, <- Er'.
  - exfalso. destruct (g_parent _ _ _ _ G q x Hx Hx0) as (i & lv & Hi & Hlv & Hdecl & _).
    apply (ginv_top docs lvls t' k' q' G' Hx' lv (refid_of t x));
      [by eapply list_elem_of_lookup_2|done|]. by rewrite Er', <- Er.
  - right. split; [done|]. split; [done|].
    destruct (g_parent _ _ _ _ G q x Hx Hx0) as (i & lv & Hi & Hlv & Hdecl & Hmin).
    destruct (g_parent _ _ _ _ G' q' x' Hx' Hx0') as (i' & lv' & Hi' & Hlv' & Hdecl' & Hmin').
    rewrite Er in Hdecl, Hmin. rewrite Er' in Hdecl', Hmin'.
    destruct (Nat.lt_trichotomy i i') as [Hlt|[->|Hlt]].
    + by destruct (Hmin' i lv (refid_of t x) Hlt Hi Hlv).
    + rewrite Hi in Hi'. injection Hi' as <-.
      by apply (Hsole lv (list_elem_of_lookup_2 _ _ _ Hi) _ _ r).
    + by destruct (Hmin i' lv' (refid_of t' x') Hlt Hi' Hlv').
Qed.

Lemma same_entity_sym k k' q q' : same_entity k k' q q' → same_entity k' k q' q.
Proof. intros [[-> ->]|(r & H1 & H2)]; [by left|right; by exists r]. Qed.

Lemma same_entity_fun t k t' k' q q1 q2 :
  ginv docs lvls t k → ginv docs lvls t' k' →
  same_entity k k' q q1 → same_entity k k' q q2 → q1 = q2.
Proof.
  intros Gt Gt' [[-> ->]|(r & H1 & H2)] [[E ->]|(r' & H1' & H2')].
  - done.
  - by destruct (wf_cache _ _ (st_wf _ _ _ (g_settled _ _ _ _ Gt)) _ _ H1').
  - subst. by destruct (wf_cache _ _ (st_wf _ _ _ (g_settled _ _ _ _ Gt)) _ _ H1).
  - destruct (wf_cache _ _ (st_wf _ _ _ (g_settled _ _ _ _ Gt)) _ _ H1) as [_ E1].
    destruct (wf_cache _ _ (st_wf _ _ _ (g_settled _ _ _ _ Gt)) _ _ H1') as [_ E1'].
    simplify_eq. done.
Qed.

Lemma same_entity_child t k t' k' p p' q :
  ginv docs lvls t k → ginv docs lvls t' k' →
  same_entity k k' p p' → q ∈ children_of t p →
  ∃ q', same_entity k k' q q' ∧ q' ∈ children_of t' p'.
Proof.
  intros Gt Gt' Hp Hq.
  pose proof (g_settled _ _ _ _ Gt) as St. pose proof (g_settled _ _ _ _ Gt') as St'.
  destruct (owns_parent _ _ (st_wf _ _ _ St) (st_tidy _ _ _ St) _ _ Hq) as [Hpar Hq0].
  pose proof (parent_of_lt _ _ _ Hpar) as Hql.
  pose proof (ginv_node_cached _ _ _ Gt Hq0 Hql) as Hc.
  destruct (proj2 (g_cached _ _ _ _ Gt' (refid_of t q))) as [q' Hq'].
  { apply (g_cached _ _ _ _ Gt). by rewrite Hc. }
  destruct (same_parent_one _ _ _ _ _ _ _ _ Gt Gt' Hc Hq' Hpar) as (x' & Hx' & Hcase).
  exists q'. split; [right; by eexists|].
  assert (x' = p') as ->; [|by apply (st_link _ _ _ St')].
  destruct Hcase as [[-> ->]|(Hp0 & Hx0' & Hr)].
  - destruct Hp as [[_ ->]|(r & H1 & _)]; [done|].
    by destruct (wf_cache _ _ (st_wf _ _ _ St) _ _ H1).
  - destruct Hp as [[-> _]|(r & H1 & H2)]; [done|].
    destruct (wf_cache _ _ (st_wf _ _ _ St) _ _ H1) as [_ E1].
    rewrite (refid_of_at _ _ _ E1) in Hr.
    destruct (ginv_parent_node _ _ _ _ Gt' Hx') as (_ & _ & Hxl').
    pose proof (ginv_node_cached _ _ _ Gt' Hx0' Hxl') as Hcx. rewrite <- Hr in Hcx.
    congruence.
Qed.

Hypothesis G : ginv docs lvls s c.
Hypothesis G' : ginv docs lvls s' c'.

Lemma same_entity_refid q q' : same_entity c c' q q' → refid_of s q = refid_of s' q'.
Proof.
  intros [[-> ->]|(r & H1 & H2)]; [done|].
  destruct (wf_cache _ _ (st_wf _ _ _ (g_settled _ _ _ _ G)) _ _ H1) as [_ E1].
  destruct (wf_cache _ _ (st_wf _ _ _ (g_settled _ _ _ _ G')) _ _ H2) as [_ E2].
  by rewrite (refid_of_at _ _ _ E1), (refid_of_at _ _ _ E2).
Qed.

(** The children of the same entity are the same entities, up to their order. *)
Lemma same_entity_children p p' :
  same_entity c c' p p' →
  ∃ kids'', Forall2 (same_entity c c') (children_of s p) kids''
            ∧ children_of s' p' ≡ₚ kids''.
Proof.
  intros Hp.
  pose proof (wf_nodup _ _ (st_wf _ _ _ (g_settled _ _ _ _ G)) p) as Hnd.
  pose proof (wf_nodup _ _ (st_wf _ _ _ (g_settled _ _ _ _ G')) p') as Hnd'.
  assert (∀ kids, (∀ q, q ∈ kids → q ∈ children_of s p) →
            ∃ kids'', Forall2 (same_entity c c') kids kids''
                      ∧ ∀ q', q' ∈ kids'' → q' ∈ children_of s' p') as Hex.
  { induction kids as [|q kids IH]; intros Hin.
    { exists []. split; [constructor|]. by intros q' Hq'%elem_of_nil. }
    destruct IH as (kids'' & Hf & Hsub); [intros q' Hq'; apply Hin; by right|].
    destruct (same_entity_child _ _ _ _ _ _ q G G' Hp) as (q' & Hq' & Hin'); [apply Hin; by left|].
    exists (q' :: kids''). split; [by constructor|].
    intros x [->|Hx]%elem_of_cons; [done|by apply Hsub]. }
  destruct (Hex (children_of s p)) as (kids'' & Hf & Hsub); [done|].
  exists kids''. split; [done|]. symmetry. apply NoDup_Permutation; [|done|].
  - clear Hsub Hex. revert Hnd.
    induction Hf as [|q q' kids kids'' Hq Hf IH]; intros Hnd; [apply NoDup_nil_2|].
    apply NoDup_cons in Hnd as [Hq1 Hnd]. apply NoDup_cons. split; [|by apply IH].
    intros Hin. apply list_elem_of_lookup in Hin as (i & Hi).
    destruct (Forall2_lookup_r _ _ _ _ _ Hf Hi) as (q2 & Hi2 & Hq2).
    apply Hq1. apply list_elem_of_lookup. exists i.
    rewrite (same_entity_fun _ _ _ _ _ _ _ G' G (same_entity_sym _ _ _ _ Hq)
               (same_entity_sym _ _ _ _ Hq2)). done.
  - intros q'. split; [apply Hsub|]. intros Hq'.
    destruct (same_entity_child _ _ _ _ _ _ q' G' G (same_entity_sym _ _ _ _ Hp) Hq')
      as (q & Hq & Hin).
    apply list_elem_of_lookup in Hin as (i & Hi).
    destruct (Forall2_lookup_l _ _ _ _ _ Hf Hi) as (q2 & Hi2 & Hq2).
    apply list_elem_of_lookup. exists i.
    by rewrite (same_entity_fun _ _ _ _ _ _ _ G G' (same_entity_sym _ _ _ _ Hq) Hq2).
Qed.

(** The trees below the same entity are isomorphic. *)
Lemma subtree_iso fuel fuel' p p' t t' :
  same_entity c c' p p' →
  subtree fuel s p = Some t → subtree fuel' s' p' = Some t' → tree_iso t t'.
Proof.
  revert fuel' p p' t t'. induction fuel as [|fuel IH]; intros fuel' p p' t t' Hp; [done|].
  destruct fuel' as [|fuel']; [done|]. simpl.
  destruct (mapM (subtree fuel s) (children_of s p)) as [ks|] eqn:E; [|done].
  destruct (mapM (subtree fuel' s') (children_of s' p')) as [ks'|] eqn:E'; [|done].
  simpl. intros [= <-] [= <-]. rewrite (same_entity_refid _ _ Hp).
  destruct (same_entity_children p p' Hp) as (kids'' & Hf & Hperm).
  destruct (mapM_Permutation _ _ _ _ Hperm E') as (ks'' & E'' & Hk).
  apply (tree_iso_node _ _ _ ks''); [done|].
  apply mapM_Some in E. apply mapM_Some in E''.
  apply Forall2_same_length_lookup. split.
  { apply Forall2_length in E, E'', Hf. congruence. }
  intros i t1 t2 H1 H2.
  destruct (Forall2_lookup_r _ _ _ _ _ E H1) as (q & Hq & Ht1).
  destruct (Forall2_lookup_r _ _ _ _ _ E'' H2) as (q' & Hq' & Ht2).
  eapply IH; [|done..]. eapply Forall2_lookup_lr; done.
Qed.

End TwoLoads.

Lemma tree_of_emit e d : tree_of (emit e d) = tree_of d.
Proof. done. Qed.






Section Hierarchy.

Variable docs : gmap string EntityDoc.
Variable lvls : list level.
Variable s : Store.
Variable c : NodeCacheMap.
Hypothesis G : ginv docs lvls s c.






End Hierarchy.


Section ModelLoadFacts.

Variable NDEBUG : bool.
Variable Path_join : string → string → string.
Variable docs : gmap string EntityDoc.

(** The state a load over the modelled [Node::parse] returns. *)
Lemma load_ginv Xml_open it path m w m0 :
  getIndexKinds NDEBUG Path_join Xml_open (Doxygen_new path) = Return (m, w) →
  (∀ x, x ∈ it m ↔ x ∈ m0) →
  ∃ d, load NDEBUG Path_join Xml_open it (Node_parse_spec docs) (Doxygen_new path) = Return d
       ∧ index d = 0 ∧ ginv docs (levels docs m0) (nodes d) (cache d)
       ∧ refid_of (nodes d) 0 = "index"
       ∧ (∀ k r, (k, r) ∈ it m → in_some_pass k → is_Some (docs !! r) →
                 is_Some (cache d !! r)).
Proof.
  intros Hk Hm.
  pose proof (load_model NDEBUG Path_join Xml_open it docs
                (Doxygen_new path) m w (wfd_new path []) Hk) as E.
  eexists. split; [exact E|]. cbn [Doxygen_new index inputDir cache nodes trace emit].
  destruct (after_dirs_ginv docs it m m0 path ([] ++ w) Hm) as (H1 & H2 & H3 & H4 & _).
  by split_and!.
Qed.

End ModelLoadFacts.

(** C8, as the model has it.  The language pass makes nodes for the
    refids of [made_language], the group pass for those of [made_groups],
    the pass of directories and files for those of [made_dirs].  Two
    index documents and two iteration orders that hand the passes the same
    entries, in whatever order, give isomorphic trees, provided no two
    entities that are constructed in the same pass declare a common
    child. *)
Theorem C8_permuted_entries (NDEBUG : bool)
    (Path_join : string → string → string)
    (Xml_open Xml_open' : string → exception + list Element)
    (it it' : KindRefidMap → list (string * string))
    (docs : gmap string EntityDoc) (path : string)
    (m m' : KindRefidMap) (w w' : list event) :
  getIndexKinds NDEBUG Path_join Xml_open (Doxygen_new path) = Return (m, w) →
  getIndexKinds NDEBUG Path_join Xml_open' (Doxygen_new path) = Return (m', w') →
  it m ≡ₚ it' m' →
  (let d0 := mkDoxygen 0 path ∅ [mkNode "index" None [] None] w in
   (∀ r, is_Some (cache (after_language it (Node_parse_spec docs) m d0) !! r)
         ↔ made_language docs (it m) r)
   ∧ (∀ r, is_Some (cache (after_groups it (Node_parse_spec docs) m d0) !! r)
           ↔ made_language docs (it m) r ∨ made_groups docs (it m) r)
   ∧ (∀ r, is_Some (cache (after_dirs it (Node_parse_spec docs) m d0) !! r)
           ↔ made_language docs (it m) r ∨ made_groups docs (it m) r
             ∨ made_dirs docs (it m) r))
  ∧ (no_shared_child docs (it m) →
     ∃ t t',
       loaded_tree (load NDEBUG Path_join Xml_open it (Node_parse_spec docs)
                      (Doxygen_new path)) = Some t
       ∧ loaded_tree (load NDEBUG Path_join Xml_open' it' (Node_parse_spec docs)
                        (Doxygen_new path)) = Some t'
       ∧ tree_iso t t').
Proof.
  intros Hk Hk' Hperm. split.
  { destruct (after_dirs_ginv docs it m (it m) path w ltac:(done))
      as (_ & G & _ & _ & H1 & H2).
    split; [done|]. split; [done|].
    intros r. rewrite (g_cached _ _ _ _ G). split.
    - intros (lv & [-> |[-> | ->%list_elem_of_singleton]%elem_of_cons]%elem_of_cons & H);
        auto.
    - intros [H|[H|H]].
      + exists (made_language docs (it m), false). split; [by left|done].
      + exists (made_groups docs (it m), true). split; [by right; left|done].
      + exists (made_dirs docs (it m), true). split; [by right; right; left|done]. }
  intros (S1 & S2 & S3).
  destruct (load_ginv NDEBUG Path_join docs Xml_open it path m w (it m) Hk ltac:(done))
    as (d & -> & Hi & G & Hr & _).
  destruct (load_ginv NDEBUG Path_join docs Xml_open' it' path m' w' (it m) Hk')
    as (d' & -> & Hi' & G' & Hr' & _).
  { intros x. by rewrite Hperm. }
  pose proof (g_settled _ _ _ _ G) as St. pose proof (g_settled _ _ _ _ G') as St'.
  cbn [loaded_tree]. unfold tree_of. rewrite Hi, Hi'.
  destruct (subtree_is_Some _ _ (st_wf _ _ _ St) (st_tidy _ _ _ St)) as [t Ht].
  destruct (subtree_is_Some _ _ (st_wf _ _ _ St') (st_tidy _ _ _ St')) as [t' Ht'].
  exists t, t'. split; [done|]. split; [done|].
  eapply (subtree_iso docs (levels docs (it m)) (nodes d) (nodes d') (cache d) (cache d'));
    [| | | | |exact Ht|exact Ht']; [|by rewrite Hr, Hr'|exact G|exact G'|by left].
  intros lv [->|[->|[->|H]%elem_of_cons]%elem_of_cons]%elem_of_cons; try done.
  by apply elem_of_nil in H.
Qed.



Lemma Precedence_declares flag r x :
  declares Precedence.docs flag r x → x = "C1" ∧ (r = "N1" ∨ r = "G1").
Proof.
  intros (doc & Hd & Hm). unfold Precedence.docs in Hd.
  apply lookup_insert_Some in Hd as [[<- <-]|[_ Hd]].
  { destruct flag; by apply elem_of_nil in Hm. }
  apply lookup_insert_Some in Hd as [[<- <-]|[_ Hd]].
  { destruct flag; apply list_elem_of_singleton in Hm; auto. }
  apply lookup_singleton_Some in Hd as [<- <-].
  destruct flag; apply list_elem_of_singleton in Hm; auto.
Qed.

Lemma Precedence_no_shared_child :
  no_shared_child Precedence.docs
    [("group", "G1"); ("class", "C1"); ("namespace", "N1")].
Proof.
  set (m := [("group", "G1"); ("class", "C1"); ("namespace", "N1")]).
  assert (∀ k r, (k, r) ∈ m →
            (k = "group" ∧ r = "G1") ∨ (k = "class" ∧ r = "C1")
            ∨ (k = "namespace" ∧ r = "N1")) as Hm.
  { intros k r H.
    repeat (apply elem_of_cons in H as [E|H]; [injection E as -> ->; auto|]).
    by apply elem_of_nil in H. }
  assert (made_language Precedence.docs m "C1") as HC1.
  { apply (reach_entry _ _ _ _ _ "class"); [by right; left|done|by eexists|tauto]. }
  assert (∀ r, made_language Precedence.docs m r → r = "C1" ∨ r = "N1") as H1.
  { induction 1 as [k r Hin Ha _ _|r' r _ _ Hd _ _].
    - destruct (Hm k r Hin) as [[-> ->]|[[-> ->]|[-> ->]]]; [done|auto..].
    - apply Precedence_declares in Hd as [-> _]. by left. }
  assert (∀ r, made_groups Precedence.docs m r → r = "G1") as H2.
  { induction 1 as [k r Hin Ha _ _|r' r _ _ Hd _ Hn].
    - destruct (Hm k r Hin) as [[-> ->]|[[-> ->]|[-> ->]]]; done.
    - apply Precedence_declares in Hd as [-> _]. by destruct Hn. }
  assert (∀ r, ¬ made_dirs Precedence.docs m r) as H3.
  { intros r. induction 1 as [k r Hin Ha _ _|r' r _ IH _ _ _]; [|done].
    destruct (Hm k r Hin) as [[-> ->]|[[-> ->]|[-> ->]]]; done. }
  split_and!.
  - intros r r' x Hr Hr' [_ Hd]%Precedence_declares [_ Hd']%Precedence_declares _.
    simpl in *. apply H1 in Hr, Hr'.
    destruct Hr as [-> | ->], Hr' as [-> | ->], Hd as [?|?], Hd' as [?|?]; done.
  - intros r r' x Hr%H2 Hr'%H2 _ _ _. simpl in *. congruence.
  - intros r r' x Hr. by destruct (H3 r).
Qed.

Lemma C8_permuted_entries_witness :
  ∃ t t',
    loaded_tree Precedence.loaded = Some t
    ∧ loaded_tree (load true Scenario.Path_join (λ _, inr Precedence.index_xml) reverse
                     (Node_parse_spec Precedence.docs) (Doxygen_new "xml")) = Some t'
    ∧ tree_iso t t'.
Proof.
  destruct (C8_permuted_entries true Scenario.Path_join (λ _, inr Precedence.index_xml)
              (λ _, inr Precedence.index_xml) id reverse Precedence.docs "xml"
              [("group", "G1"); ("class", "C1"); ("namespace", "N1")]
              [("group", "G1"); ("class", "C1"); ("namespace", "N1")] [] [])
    as [_ Hiso].
  - vm_compute. reflexivity.
  - vm_compute. reflexivity.
  - symmetry. apply reverse_Permutation.
  - apply Hiso, Precedence_no_shared_child.
Defined.

(** ** Further properties of the loader *)

(** X1: no kind passes two of the three filters, so that an index entry
    is taken up by at most one of the construction passes. *)
Theorem X1_kind_filters_disjoint (kind : string) :
  ¬ (isKindAllowedLanguage kind = true ∧ isKindAllowedGroup kind = true)
  ∧ ¬ (isKindAllowedLanguage kind = true ∧ isKindAllowedDirs kind = true)
  ∧ ¬ (isKindAllowedGroup kind = true ∧ isKindAllowedDirs kind = true).
Proof.
  unfold isKindAllowedLanguage, isKindAllowedGroup, isKindAllowedDirs.
  rewrite orb_true_iff, !bool_decide_eq_true.
  split_and!.
  - intros [Hl ->]. repeat (apply elem_of_cons in Hl as [Hl|Hl]; [done|]).
    by apply elem_of_nil in Hl.
  - intros [Hl [-> | ->]];
      repeat (apply elem_of_cons in Hl as [Hl|Hl]; [done|]); by apply elem_of_nil in Hl.
  - by intros [-> [? | ?]].
Qed.

Section Index.

Variable NDEBUG : bool.
Variable Path_join : string → string → string.
Variable Xml_open : string → exception + list Element.

(** X2: when [getIndexKinds] returns, the multimap holds, each as often
    as it occurs, the kind and refid of exactly those [compound] children
    of the first [doxygenindex] element that carry both attributes; the
    multimap is unordered, so nothing is said of the order in which it
    hands them out.  Each of the other compounds has left one "compound
    error" warning, and nothing else is logged. *)
Theorem X2_getIndexKinds_entries (d : Doxygen) (m : KindRefidMap) (w : list event) :
  getIndexKinds NDEBUG Path_join Xml_open d = Return (m, w) →
  ∃ xml root,
    Xml_open (Path_join (inputDir d) "index.xml") = inr xml
    ∧ firstChildElement "doxygenindex" xml = Some root
    ∧ m ≡ₚ omap entry_of (allChildElements "compound" (Elems root))
    ∧ Forall is_compound_error w
    ∧ length m + length w = length (allChildElements "compound" (Elems root)).
Proof.
  unfold getIndexKinds. destruct (Xml_open _) as [e|xml]; [done|].
  destruct (firstChildElement "doxygenindex" xml) as [root|] eqn:Er; [|done].
  destruct (firstChildElement "compound" (Elems root)); [|done].
  intros (-> & w1 & -> & Hf & Hl)%foldM_read_compound_entries.
  exists xml, root. by split_and!.
Qed.

End Index.

Lemma X2_getIndexKinds_entries_witness :
  ∃ m w, getIndexKinds false Scenario.Path_join (λ _, inr MissingRefid.index_xml)
           (Doxygen_new "xml") = Return (m, w)
         ∧ m ≡ₚ [("class", "C1")]
         ∧ length w = 1.
Proof.
  eexists _, _. split; [reflexivity|].
  destruct (X2_getIndexKinds_entries false Scenario.Path_join
              (λ _, inr MissingRefid.index_xml) (Doxygen_new "xml") _ _
              ltac:(reflexivity)) as (xml & root & Hx & Hr & Hm & _ & Hl).
  injection Hx as <-. injection Hr as <-. split; [exact Hm|exact (Nat.succ_inj _ _ Hl)].
Defined.

(** *** The assertion on the refid *)

Section Assertion.

Variable Path_join : string → string → string.
Variable Xml_open : string → exception + list Element.
Variable iteration : KindRefidMap → list (string * string).
Variable Node_parse :
  Store → NodeCacheMap → string → string → bool →
  Store * NodeCacheMap * (exception + NodePtr).

Lemma foldM_read_compound_NDEBUG l acc :
  ∃ out, foldM (read_compound true) acc l = Return out.
Proof.
  revert acc. induction l as [|c l IH]; intros [m w]; simpl; [by eexists|].
  unfold read_compound at 1.
  destruct (getAttr "kind" c); simpl; [apply IH|].
  destruct (getAttr "refid" c); simpl; apply IH.
Qed.

Lemma foldM_read_compound_assert l acc :
  (∃ out, foldM (read_compound false) acc l = Return out
          ∧ ∀ c k, c ∈ l → getAttr "kind" c = inr k → getAttr "refid" c ≠ inr EmptyString)
  ∨ (foldM (read_compound false) acc l = AssertionFailed
     ∧ ∃ c k, c ∈ l ∧ getAttr "kind" c = inr k ∧ getAttr "refid" c = inr EmptyString).
Proof.
  revert acc. induction l as [|c l IH]; intros [m w].
  { left. eexists. split; [done|]. intros c k Hc. by apply elem_of_nil in Hc. }
  cbn [foldM].
  assert (match read_compound false (m, w) c with
          | Return _ => ∀ k, getAttr "kind" c = inr k → getAttr "refid" c ≠ inr EmptyString
          | AssertionFailed => ∃ k, getAttr "kind" c = inr k ∧ getAttr "refid" c = inr EmptyString
          | _ => False
          end) as Hc.
  { unfold read_compound.
    destruct (getAttr "kind" c) as [e|k]; [done|].
    destruct (getAttr "refid" c) as [e|r]; [done|].
    destruct (String.eqb_spec r EmptyString) as [->|Hr]; simpl; [by eexists|].
    congruence. }
  destruct (read_compound false (m, w) c) as [out| | |]; cbn [bind]; [|done| |done].
  - destruct (IH out) as [(out' & -> & Hall)|(-> & c' & k' & Hin & H)].
    + left. eexists. split; [done|].
      intros c' k' [->|Hin]%elem_of_cons; [by apply Hc|eauto].
    + right. split; [done|]. exists c', k'. split; [by right|done].
  - right. split; [done|]. destruct Hc as (k & Hk & Hr). exists c, k.
    split; [by left|done].
Qed.

Lemma load_AssertionFailed_iff NDEBUG d :
  load NDEBUG Path_join Xml_open iteration Node_parse d = AssertionFailed
  ↔ getIndexKinds NDEBUG Path_join Xml_open d = AssertionFailed.
Proof.
  unfold load. destruct (getIndexKinds _ _ _ d) as [[m w]| | |]; cbn [bind]; [|done..].
  unfold rebuild_cache. by destruct (getIndexCache _ _ _ _).
Qed.

(** X3: a build with [NDEBUG] never stops at the assertion of
    [getIndexKinds]; a build with assertions stops there exactly when some
    [compound] of the index has a [kind] and an empty [refid].  A compound
    with an empty refid and no kind only costs a warning. *)
Theorem X3_load_assertion_on_empty_refid (d : Doxygen) :
  load true Path_join Xml_open iteration Node_parse d ≠ AssertionFailed
  ∧ (load false Path_join Xml_open iteration Node_parse d = AssertionFailed
     ↔ ∃ xml root c k,
         Xml_open (Path_join (inputDir d) "index.xml") = inr xml
         ∧ firstChildElement "doxygenindex" xml = Some root
         ∧ c ∈ allChildElements "compound" (Elems root)
         ∧ getAttr "kind" c = inr k
         ∧ getAttr "refid" c = inr EmptyString).
Proof.
  rewrite !load_AssertionFailed_iff. unfold getIndexKinds.
  destruct (Xml_open _) as [e|xml].
  { split; [done|]. split; [done|]. by intros (? & ? & ? & ? & ? & _). }
  destruct (firstChildElement "doxygenindex" xml) as [root|] eqn:Er.
  2:{ split; [done|]. split; [done|].
      intros (? & ? & ? & ? & [= <-] & Hr & _). congruence. }
  destruct (firstChildElement "compound" (Elems root)) eqn:Ec.
  2:{ split; [done|]. split; [done|].
      intros (? & ? & c & ? & [= <-] & Hr & Hc & _).
      rewrite Er in Hr. injection Hr as <-.
      unfold firstChildElement in Ec. destruct (allChildElements _ _); [|done].
      by apply elem_of_nil in Hc. }
  split.
  - by destruct (foldM_read_compound_NDEBUG
                   (allChildElements "compound" (Elems root)) ([], [])) as [out ->].
  - destruct (foldM_read_compound_assert (allChildElements "compound" (Elems root)) ([], []))
      as [(out & -> & Hall)|(-> & c & k & Hin & Hk & Hr)].
    + split; [done|]. intros (? & ? & c & k & [= <-] & Hr & Hc & Hk & Hre).
      rewrite Er in Hr. injection Hr as <-. by destruct (Hall c k Hc Hk).
    + split; [|done]. intros _. by exists xml, root, c, k.
Qed.

End Assertion.

(** *** The cleanup *)

Lemma cleanup_tidy node s :
  (∀ q, q ∈ children_of s node → parent_of s q = Some node) → cleanup node s = s.
Proof.
  intros Hall. unfold cleanup, update.
  destruct (s !! node) as [n|] eqn:E; [|done].
  apply list_insert_id'. intros _. rewrite E. f_equal.
  destruct n as [r k ch pa]. unfold set_children. simpl. f_equal.
  assert (Forall (λ c, parent_of s c = Some node) ch) as HF.
  { apply Forall_forall. intros q Hq. apply Hall. unfold children_of. by rewrite E. }
  clear -HF. induction HF as [|q ch Hq HF IH]; [done|].
  rewrite filter_cons_True by done. by rewrite <- IH.
Qed.

(** X5: a second cleanup of the same node changes nothing. *)
Theorem X5_cleanup_idempotent (node : NodePtr) (s : Store) :
  cleanup node (cleanup node s) = cleanup node s.
Proof.
  apply cleanup_tidy. intros q.
  rewrite cleanup_children_of, decide_True, cleanup_parent_of by done.
  by intros [Hq _]%list_elem_of_filter.
Qed.

Section RootChildren.

Variable NDEBUG : bool.
Variable Path_join : string → string → string.
Variable Xml_open : string → exception + list Element.
Variable iteration : KindRefidMap → list (string * string).
Variable Node_parse :
  Store → NodeCacheMap → string → string → bool →
  Store * NodeCacheMap * (exception + NodePtr).

(** X4: when [load] returns, whatever [Node::parse] did, every entry of
    the children sequence of the root has the root as its back-reference:
    the last cleanup erased the others, and the cache rebuild moves no
    node. *)
Theorem X4_root_children_point_back (d d' : Doxygen) :
  load NDEBUG Path_join Xml_open iteration Node_parse d = Return d' →
  index d' = index d
  ∧ ∀ q, owns (nodes d') (index d') q → parent_of (nodes d') q = Some (index d').
Proof.
  unfold load. destruct (getIndexKinds _ _ _ d) as [[m w]| | |]; cbn [bind]; [|done..].
  set (d0 := mkDoxygen _ _ _ _ _).
  destruct (stage_trace iteration Node_parse isKindAllowedLanguage false m d0) as [I1 _].
  destruct (stage_trace iteration Node_parse isKindAllowedGroup true m
              (after_language iteration Node_parse m d0)) as [I2 _].
  destruct (fold_construct_trace Node_parse isKindAllowedDirs true (iteration m)
              (after_groups iteration Node_parse m d0)) as [I3 _].
  fold (after_language iteration Node_parse m d0) in I1.
  fold (after_groups iteration Node_parse m d0) in I2.
  fold (pass iteration Node_parse isKindAllowedDirs true m
          (after_groups iteration Node_parse m d0)) in I3.
  unfold rebuild_cache, after_dirs, run_cleanup. cbn [emit nodes cache index with_nodes].
  destruct (getIndexCache _ _ _ _); [|done]. intros [= <-].
  unfold with_cache, emit, with_nodes. cbn [nodes index].
  split; [by rewrite I3, I2, I1|].
  intros q. unfold owns. rewrite cleanup_children_of, decide_True, cleanup_parent_of by done.
  by intros [Hq _]%list_elem_of_filter.
Qed.

End RootChildren.

Lemma X4_root_children_point_back_witness :
  ∃ d', Scenario.loaded = Return d'
        ∧ ∀ q, owns (nodes d') (index d') q → parent_of (nodes d') q = Some (index d').
Proof.
  eexists. split; [vm_compute; reflexivity|].
  apply (X4_root_children_point_back true Scenario.Path_join
           (λ _, inr Scenario.index_xml) id (Node_parse_spec Scenario.docs)
           (Doxygen_new "xml")).
  vm_compute. reflexivity.
Defined.


(** *** How often an entry is parsed *)

Lemma parse_calls_app r t1 t2 : parse_calls r (t1 ++ t2) = parse_calls r t1 + parse_calls r t2.
Proof. unfold parse_calls. by rewrite filter_app, length_app. Qed.

Lemma parse_calls_compound_errors r w : Forall is_compound_error w → parse_calls r w = 0.
Proof.
  induction 1 as [|e w [x ->] _ IH]; [done|].
  unfold parse_calls in *. by rewrite filter_cons_False.
Qed.

Lemma length_filter_cons {A} (P : A → Prop) `{!∀ x, Decision (P x)} x l :
  length (filter P (x :: l)) = (if decide (P x) then 1 else 0) + length (filter P l).
Proof. rewrite filter_cons. by destruct (decide (P x)). Qed.

Lemma listed_passes r l :
  listed isKindAllowedLanguage r l + listed isKindAllowedGroup r l
  + listed isKindAllowedDirs r l = listed isKindAllowed r l.
Proof.
  unfold listed. induction l as [|[k r'] l IH]; [done|].
  rewrite !length_filter_cons, <- IH. simpl. unfold isKindAllowed.
  assert (isKindAllowedLanguage k = true → isKindAllowedGroup k = false
                                           ∧ isKindAllowedDirs k = false) as HL.
  { unfold isKindAllowedLanguage, isKindAllowedGroup, isKindAllowedDirs.
    rewrite bool_decide_eq_true. intros Hl.
    repeat (apply elem_of_cons in Hl as [->|Hl]; [done|]). by apply elem_of_nil in Hl. }
  assert (isKindAllowedGroup k = true → isKindAllowedDirs k = false) as HG.
  { unfold isKindAllowedGroup, isKindAllowedDirs.
    rewrite bool_decide_eq_true. by intros ->. }
  repeat case_decide;
    destruct (isKindAllowedLanguage k), (isKindAllowedGroup k), (isKindAllowedDirs k);
    simpl in *; try lia; exfalso; intuition congruence.
Qed.

Section Calls.

Variable NDEBUG : bool.
Variable Path_join : string → string → string.
Variable Xml_open : string → exception + list Element.
Variable iteration : KindRefidMap → list (string * string).
Variable Node_parse :
  Store → NodeCacheMap → string → string → bool →
  Store * NodeCacheMap * (exception + NodePtr).

Lemma construct_calls allowed flag d pr r :
  ∃ t, trace (construct Node_parse allowed flag d pr) = trace d ++ t
       ∧ parse_calls r t ≤ listed allowed r [pr].
Proof.
  assert (∀ n, parse_calls r [] ≤ n) as Hnil by (intros n; unfold parse_calls; simpl; lia).
  unfold construct. destruct (allowed pr.1) eqn:Ha; simpl.
  2:{ exists []. by rewrite app_nil_r. }
  destruct (cache d !! pr.2).
  { exists []. by rewrite app_nil_r. }
  assert (parse_calls r [call_Node_parse pr.2 flag] ≤ listed allowed r [pr]) as Hone.
  { unfold parse_calls, listed. rewrite !length_filter_cons. simpl.
    destruct (decide (pr.2 = r)) as [E|E].
    - rewrite (decide_True (P := pr.2 = r ∧ _)) by done. case_decide; lia.
    - rewrite decide_False; [lia|]. by rewrite bool_decide_eq_true. }
  simpl. destruct (Node_parse _ _ _ _ _) as [[s c] [e|child]]; simpl.
  - eexists [_; _]. rewrite <- app_assoc. split; [done|].
    change [call_Node_parse pr.2 flag; ?w] with ([call_Node_parse pr.2 flag] ++ [w]).
    rewrite parse_calls_app. unfold parse_calls at 2. simpl. lia.
  - eexists [_]. by split.
Qed.

Lemma fold_construct_calls allowed flag l d r :
  ∃ t, trace (fold_left (construct Node_parse allowed flag) l d) = trace d ++ t
       ∧ parse_calls r t ≤ listed allowed r l.
Proof.
  revert d. induction l as [|pr l IH]; intros d; simpl.
  { exists []. rewrite app_nil_r. split; [done|]. unfold parse_calls. simpl. lia. }
  destruct (IH (construct Node_parse allowed flag d pr)) as (t2 & Ht2 & Hc2).
  destruct (construct_calls allowed flag d pr r) as (t1 & Ht1 & Hc1).
  exists (t1 ++ t2). rewrite Ht2, Ht1, app_assoc. split; [done|].
  rewrite parse_calls_app. unfold listed in *.
  rewrite length_filter_cons. rewrite length_filter_cons in Hc1. simpl in Hc1. lia.
Qed.

Lemma stage_calls allowed flag m d r :
  ∃ t, trace (run_cleanup (pass iteration Node_parse allowed flag m d)) = trace d ++ t
       ∧ parse_calls r t ≤ listed allowed r (iteration m).
Proof.
  destruct (fold_construct_calls allowed flag (iteration m) d r) as (t & Ht & Hc).
  exists (t ++ [call_cleanup (index (pass iteration Node_parse allowed flag m d))]).
  unfold run_cleanup, pass in *. simpl. rewrite Ht, app_assoc. split; [done|].
  rewrite parse_calls_app. unfold parse_calls at 2. simpl. lia.
Qed.

(** X7: [load] calls [Node::parse] for a refid at most as often as the
    index lists that refid with a kind some pass accepts, and so never
    for a refid the index does not list with such a kind. *)
Theorem X7_load_parses_listed_refids_only (d d' : Doxygen) (m : KindRefidMap)
    (w : list event) (refid : string) :
  iteration m ≡ₚ m →
  getIndexKinds NDEBUG Path_join Xml_open d = Return (m, w) →
  load NDEBUG Path_join Xml_open iteration Node_parse d = Return d' →
  ∃ t, trace d' = trace d ++ t
       ∧ parse_calls refid t ≤ listed isKindAllowed refid m.
Proof.
  intros Hperm Hk. unfold load. rewrite Hk. cbn [bind].
  set (d0 := mkDoxygen _ _ _ _ _). intros H.
  apply rebuild_cache_trace in H. unfold after_dirs, after_groups, after_language in H.
  destruct (stage_calls isKindAllowedLanguage false m d0 refid) as (t1 & T1 & C1).
  set (d1 := run_cleanup (pass iteration Node_parse isKindAllowedLanguage false m d0)) in *.
  destruct (stage_calls isKindAllowedGroup true m d1 refid) as (t2 & T2 & C2).
  set (d2 := run_cleanup (pass iteration Node_parse isKindAllowedGroup true m d1)) in *.
  destruct (stage_calls isKindAllowedDirs true m d2 refid) as (t3 & T3 & C3).
  rewrite T3, T2, T1 in H. simpl in H.
  eexists (w ++ t1 ++ t2 ++ t3 ++ [_]).
  split; [by rewrite H, <- !app_assoc|].
  rewrite !parse_calls_app.
  rewrite (parse_calls_compound_errors refid w) by by eapply getIndexKinds_warnings.
  unfold parse_calls at 4. simpl.
  rewrite <- listed_passes.
  assert (∀ allowed, listed allowed refid (iteration m) = listed allowed refid m) as E.
  { intros allowed. unfold listed. by rewrite Hperm. }
  rewrite !E in *. lia.
Qed.

End Calls.

Lemma X7_load_parses_listed_refids_only_witness :
  ∃ d' t, Scenario.loaded = Return d'
          ∧ trace d' = [] ++ t
          ∧ parse_calls "C1" t ≤ 1.
Proof.
  eexists. 
  destruct (X7_load_parses_listed_refids_only true Scenario.Path_join
              (λ _, inr Scenario.index_xml) id (Node_parse_spec Scenario.docs)
              (Doxygen_new "xml") _
              [("class", "C1"); ("group", "G1"); ("file", "F1")] [] "C1"
              ltac:(reflexivity) ltac:(reflexivity) ltac:(vm_compute; reflexivity))
    as (t & Ht & Hc).
  exists t. split; [vm_compute; reflexivity|]. split; [exact Ht|exact Hc].
Defined.

(** *** Entries that are in the cache already *)

Section Skip.

Variable iteration : KindRefidMap → list (string * string).
Variable Node_parse :
  Store → NodeCacheMap → string → string → bool →
  Store * NodeCacheMap * (exception + NodePtr).

Lemma fold_construct_skip allowed flag l d :
  (∀ k r, (k, r) ∈ l → allowed k = true → is_Some (cache d !! r)) →
  fold_left (construct Node_parse allowed flag) l d = d.
Proof.
  induction l as [|[k r] l IH]; intros Hall; simpl; [done|].
  assert (construct Node_parse allowed flag d (k, r) = d) as ->.
  { unfold construct. simpl. destruct (allowed k) eqn:Ha; [|done]. simpl.
    destruct (Hall k r) as [p ->]; [by left|done..]. }
  apply IH. intros k' r' Hin. apply Hall. by right.
Qed.

(** X8: when the cache holds the refid of every entry that some pass
    accepts, the three passes parse nothing and attach nothing: up to the
    cache rebuild all that happens is the cleanup of the root, three times
    with the effect of one. *)
Theorem X8_passes_skip_cached_refids (m : KindRefidMap) (d : Doxygen) :
  (∀ k r, (k, r) ∈ iteration m → in_some_pass k → is_Some (cache d !! r)) →
  after_dirs iteration Node_parse m d
  = mkDoxygen (index d) (inputDir d) (cache d) (cleanup (index d) (nodes d))
      (trace d ++ [call_cleanup (index d); call_cleanup (index d);
                   call_cleanup (index d)]).
Proof.
  intros Hall. unfold after_dirs, after_groups, after_language, pass.
  rewrite (fold_construct_skip isKindAllowedLanguage false (iteration m) d).
  2:{ intros k r Hin Hk. apply (Hall k r Hin). by left. }
  rewrite (fold_construct_skip isKindAllowedGroup true (iteration m) (run_cleanup d)).
  2:{ intros k r Hin Hk. apply (Hall k r Hin). right. by left. }
  rewrite (fold_construct_skip isKindAllowedDirs true (iteration m)
             (run_cleanup (run_cleanup d))).
  2:{ intros k r Hin Hk. apply (Hall k r Hin). right. by right. }
  assert (∀ s, cleanup (index d) (cleanup (index d) s) = cleanup (index d) s) as E.
  { intros s. apply cleanup_tidy. intros q.
    rewrite cleanup_children_of, decide_True, cleanup_parent_of by done.
    by intros [Hq _]%list_elem_of_filter. }
  unfold run_cleanup, with_nodes, emit. simpl. rewrite !E.
  by rewrite <- !app_assoc.
Qed.

End Skip.

Lemma X8_passes_skip_cached_refids_witness :
  nodes (after_dirs id (Node_parse_spec ∅) Cached.kindRefidMap Cached.d) = Orphan.store
  ∧ cache (after_dirs id (Node_parse_spec ∅) Cached.kindRefidMap Cached.d) = {[ "A" := 1 ]}.
Proof.
  rewrite (X8_passes_skip_cached_refids id (Node_parse_spec ∅) Cached.kindRefidMap Cached.d).
  - split; reflexivity.
  - intros k r Hin Hk.
    apply elem_of_cons in Hin as [[= -> ->]|Hin]; [by eexists|].
    apply list_elem_of_singleton in Hin as [= -> ->].
    destruct Hk as [Hk|[Hk|Hk]]; discriminate Hk.
Defined.

(** *** The entries the cache rebuild makes *)

Lemma cache_insert_lookup k v (c : NodeCacheMap) r q :
  cache_insert k v c !! r = Some q →
  c !! r = Some q ∨ (c !! r = None ∧ r = k ∧ q = v).
Proof.
  unfold cache_insert. destruct (c !! k) eqn:E; [by left|].
  destruct (decide (r = k)) as [->|Hne].
  - rewrite lookup_insert_eq. intros [= ->]. by right.
  - rewrite lookup_insert_ne by done. by left.
Qed.

Lemma cache_fill_lookup s c l r q :
  cache_fill s c l !! r = Some q →
  c !! r = Some q ∨ (c !! r = None ∧ q ∈ l ∧ refid_of s q = r).
Proof.
  revert c. induction l as [|x l IH]; intros c; simpl; [by left|].
  intros [H|(Hn & Hq & Hr)]%IH.
  - apply cache_insert_lookup in H as [H|(Hn & -> & ->)]; [by left|].
    right. split; [done|]. split; [by left|done].
  - right. split_and!; [|by right|done].
    destruct (c !! r) as [y|] eqn:E; [|done].
    pose proof (cache_insert_subseteq (refid_of s x) x c) as Hsub.
    by rewrite (lookup_weaken _ _ _ _ E Hsub) in Hn.
Qed.

(** X9: the cache rebuild keeps every entry it finds, and each entry it
    adds maps the refid of a node below [parent] to that node. *)
Theorem X9_getIndexCache_entries (fuel : nat) (s : Store) (c c' : NodeCacheMap)
    (parent : NodePtr) :
  getIndexCache fuel s c parent = Some c' →
  c ⊆ c'
  ∧ ∀ r q, c' !! r = Some q →
           c !! r = Some q
           ∨ (c !! r = None ∧ tc (owns s) parent q ∧ refid_at s q = Some r).
Proof.
  rewrite getIndexCache_preorder.
  destruct (preorder fuel s parent) as [l|] eqn:E; [|done]. intros [= <-].
  split; [apply cache_fill_subseteq|]. intros r q.
  intros [H|(Hn & Hq & Hr)]%cache_fill_lookup; [by left|]. right.
  destruct (preorder_sound _ _ _ _ _ E Hq) as [Ht [n Hn']].
  split_and!; [done..|]. unfold refid_at, refid_of in *. by rewrite Hn' in *; simpl in *; subst.
Qed.

Lemma X9_getIndexCache_entries_witness :
  let c : NodeCacheMap := {[ "B" := 2 ]} in
  let c' : NodeCacheMap := {[ "A" := 1; "B" := 2 ]} in
  c ⊆ c'
  ∧ ∀ r q, c' !! r = Some q →
           c !! r = Some q
           ∨ (c !! r = None ∧ tc (owns Orphan.store) 0 q ∧ refid_at Orphan.store q = Some r).
Proof.
  intros c c'. apply (X9_getIndexCache_entries 3 Orphan.store c c' 0).
  vm_compute. reflexivity.
Defined.

(** X10: a second rebuild over the same store changes nothing. *)
Theorem X10_getIndexCache_idempotent (fuel : nat) (s : Store) (c c' : NodeCacheMap)
    (parent : NodePtr) :
  getIndexCache fuel s c parent = Some c' →
  getIndexCache fuel s c' parent = Some c'.
Proof.
  rewrite !getIndexCache_preorder.
  destruct (preorder fuel s parent) as [l|]; [|done]. simpl. intros [= <-]. f_equal.
  apply cache_fill_noop. intros q Hq. by apply cache_fill_is_Some.
Qed.

Lemma X10_getIndexCache_idempotent_witness :
  getIndexCache 3 Orphan.store {[ "A" := 1 ]} 0 = Some {[ "A" := 1 ]}
  ∧ ∃ c, getIndexCache 3 Orphan.store ∅ 0 = Some c
         ∧ getIndexCache 3 Orphan.store c 0 = Some c.
Proof.
  split.
  - apply (X10_getIndexCache_idempotent 3 Orphan.store {[ "A" := 1 ]}). vm_compute. reflexivity.
  - eexists. split; [vm_compute; reflexivity|].
    apply (X10_getIndexCache_idempotent 3 Orphan.store ∅). vm_compute. reflexivity.
Defined.

(** X11: after a rebuild from an empty cache, [find] returns for the
    refid of each node of the tree a node of the tree that carries this
    refid, and throws for a refid that no node of the tree carries. *)
Theorem X11_find_after_getIndexCache (d : Doxygen) (c : NodeCacheMap) :
  live_children (nodes d) →
  getIndexCache (length (nodes d)) (nodes d) ∅ (index d) = Some c →
  (∀ q, in_tree d q →
        ∃ q', find (with_cache c d) (refid_of (nodes d) q) = Return q'
              ∧ in_tree d q' ∧ refid_of (nodes d) q' = refid_of (nodes d) q)
  ∧ (∀ r, (∀ q, in_tree d q → refid_of (nodes d) q ≠ r) →
          find (with_cache c d) r
          = Throw (EXCEPTION "Failed to find node from cache by refid {}" [r])).
Proof.
  intros Hlive. rewrite getIndexCache_preorder.
  destruct (preorder _ _ _) as [l|] eqn:E; [|done]. intros [= <-].
  unfold find. simpl. split.
  - intros q Hq.
    assert (q ∈ l) as Hl by by eapply preorder_complete.
    destruct (cache_fill_is_Some (nodes d) ∅ l q Hl) as [q' Hq']. rewrite Hq'.
    exists q'. split; [done|].
    apply cache_fill_lookup in Hq' as [Hq'|(_ & Hin & Hr)]; [by rewrite lookup_empty in Hq'|].
    split; [|done]. by destruct (preorder_sound _ _ _ _ _ E Hin).
  - intros r Hr.
    destruct (cache_fill (nodes d) ∅ l !! r) as [q|] eqn:Hq; [|done].
    apply cache_fill_lookup in Hq as [Hq|(_ & Hin & Hq)]; [by rewrite lookup_empty in Hq|].
    destruct (preorder_sound _ _ _ _ _ E Hin) as [Ht _]. by destruct (Hr q Ht).
Qed.


Lemma X11_find_after_getIndexCache_witness :
  ∃ q', find (with_cache {[ "A" := 1 ]} Cached.d) (refid_of (nodes Cached.d) 1) = Return q'
        ∧ in_tree Cached.d q'
        ∧ refid_of (nodes Cached.d) q' = refid_of (nodes Cached.d) 1.
Proof.
  destruct (X11_find_after_getIndexCache Cached.d {[ "A" := 1 ]}) as [H _].
  - live_children_by_cases.
  - vm_compute. reflexivity.
  - apply (H 1). apply tc_once. by left.
Defined.

(** *** The finalization *)

Section Finalization.

Variable Node_finalize : Store → NodeCacheMap → NodePtr → result unit.

Local Abbreviation finalize' := (finalize Node_finalize).
Local Abbreviation finalizes' := (finalizes Node_finalize).

(** X12: over a finite tree of live nodes [finalize] calls
    [Node::finalize] on the nodes in the depth-first order, parents
    first, in which the cache rebuild inserts them.  It returns exactly
    when each of these calls returns, and then only the log has grown;
    the first call that throws ends [finalize] with its exception, and
    no later node is finalized. *)
Theorem X12_finalize_order (d : Doxygen) (l : list NodePtr) :
  live_children (nodes d) →
  preorder (length (nodes d)) (nodes d) (index d) = Some l →
  finalize' d = finalize_each Node_finalize d l
  ∧ (∀ d', finalize' d = Return d' ↔ d' = finalized d l ∧ Forall (finalizes' d) l)
  ∧ (∀ l1 q l2 e, l = l1 ++ q :: l2 → Forall (finalizes' d) l1 →
                  Node_finalize (nodes d) (cache d) q = Throw e → finalize' d = Throw e)
  ∧ rebuild_cache d
    = Return (with_cache (cache_fill (nodes d) (cache d) l)
                (emit (call_getIndexCache (index d)) d)).
Proof.
  intros Hlive Hl. rewrite (finalize_preorder _ _ _ Hlive Hl). split_and!.
  - done.
  - intros d'. apply finalize_each_Return.
  - intros l1 q l2 e -> Hl1 Hq. rewrite finalize_each_app.
    assert (finalize_each Node_finalize d l1 = Return (finalized d l1)) as ->
      by by apply finalize_each_Return.
    cbn [bind]. rewrite finalize_each_cons. cbn [finalized nodes cache]. by rewrite Hq.
  - unfold rebuild_cache. cbn [emit nodes cache index].
    by rewrite getIndexCache_preorder, Hl.
Qed.


End Finalization.

Lemma X12_finalize_order_witness :
  finalize SmallTree.finalize_ok SmallTree.d = Return (finalized SmallTree.d [2; 1; 3])
  ∧ finalize (SmallTree.finalize_but 1) SmallTree.d = Throw (ParseError "detail").
Proof.
  destruct (X12_finalize_order SmallTree.finalize_ok SmallTree.d [2; 1; 3]
              ltac:(live_children_by_cases) ltac:(vm_compute; reflexivity))
    as (_ & H & _).
  destruct (X12_finalize_order (SmallTree.finalize_but 1) SmallTree.d [2; 1; 3]
              ltac:(live_children_by_cases) ltac:(vm_compute; reflexivity))
    as (_ & _ & H' & _).
  split.
  - apply H. split; [done|]. repeat constructor; by exists tt.
  - apply (H' [2] 1 [3]); [done| |done]. repeat constructor. by exists tt.
Defined.

(** *** Each node once *)

Section OneOwner.

Variable s : Store.
Hypothesis Hlive : live_children s.
Hypothesis Howner : one_owner s.

Lemma preorder_child fuel p l c :
  preorder (S fuel) s p = Some l → owns s p c →
  ∃ l1, preorder fuel s c = Some l1.
Proof.
  intros (parts & Hf & ->)%preorder_S Hc.
  pose proof Hc as Hc'. apply list_elem_of_lookup in Hc' as (i & Hi).
  destruct (Forall2_lookup_l _ _ _ _ _ Hf Hi) as (part & _ & Hv).
  unfold visit in Hv. destruct (Hlive _ _ Hc) as [n Hn]. rewrite Hn in Hv.
  destruct Hv as (l1 & H1 & _). by exists l1.
Qed.

(** A traversal that comes back has met no cycle. *)
Lemma preorder_acyclic fuel p l : preorder fuel s p = Some l → ¬ tc (owns s) p p.
Proof.
  revert p l. induction fuel as [|fuel IH]; intros p l; [done|].
  intros Hp Hcycle.
  assert (∃ c, owns s p c ∧ rtc (owns s) c p) as (c & Hc & Hcp).
  { inversion Hcycle as [? ? H|? c ? H Ht]; subst.
    - exists p. by split.
    - exists c. split; [done|]. by apply tc_rtc. }
  destruct (preorder_child _ _ _ _ Hp Hc) as (l1 & H1).
  apply (IH c l1 H1). eapply tc_rtc_l; [done|]. by apply tc_once.
Qed.

(** Below two nodes that both reach [x], one reaches the other. *)
Lemma ancestors_comparable a b x :
  rtc (owns s) a x → rtc (owns s) b x → rtc (owns s) a b ∨ rtc (owns s) b a.
Proof.
  intros Ha. revert b. revert x Ha.
  apply (rtc_ind_r (λ x, ∀ b, rtc (owns s) b x → rtc (owns s) a b ∨ rtc (owns s) b a)).
  { intros b Hb. by right. }
  intros y x Hay Hyx IH b Hb.
  apply rtc_inv_r in Hb as [->|(y' & Hby & Hy'x)].
  - left. by eapply rtc_r.
  - rewrite (Howner _ _ _ Hy'x Hyx) in Hby. by apply IH.
Qed.

Lemma siblings_apart p c c' x :
  owns s p c → owns s p c' → rtc (owns s) c x → rtc (owns s) c' x →
  c = c' ∨ tc (owns s) p p.
Proof.
  intros Hc Hc' Hx Hx'.
  assert (∀ a b, owns s p a → owns s p b → rtc (owns s) a b → a = b ∨ tc (owns s) p p) as H.
  { intros a b Ha Hb [->|(y & Hay & Hyb)]%rtc_inv_r; [by left|]. right.
    rewrite (Howner _ _ _ Hyb Hb) in Hay. apply (tc_rtc_r p a p); [by apply tc_once|done]. }
  destruct (ancestors_comparable c c' x Hx Hx') as [Hcc|Hcc].
  - by apply H.
  - destruct (H c' c Hc' Hc Hcc) as [->|?]; [by left|by right].
Qed.

Lemma preorder_NoDup fuel p l :
  (∀ a, NoDup (children_of s a)) →
  preorder fuel s p = Some l → NoDup l.
Proof.
  intros Hnd. revert p l. induction fuel as [|fuel IH]; intros p l; [done|].
  intros Hp. pose proof (preorder_acyclic _ _ _ Hp) as Hacyclic.
  apply preorder_S in Hp as (parts & Hf & ->).
  assert (∀ cs parts, NoDup cs → (∀ c, c ∈ cs → owns s p c) →
            Forall2 (visit fuel s) cs parts →
            NoDup (mjoin parts)
            ∧ ∀ x, x ∈ mjoin parts → ∃ c, c ∈ cs ∧ rtc (owns s) c x) as Hparts.
  { clear parts Hf. intros cs parts Hcs Hown Hf.
    induction Hf as [|c part cs parts Hv Hf IHf]; simpl.
    { split; [apply NoDup_nil_2|]. by intros x Hx%elem_of_nil. }
    apply NoDup_cons in Hcs as [Hc Hcs].
    destruct IHf as [IH1 IH2]; [done|intros c' Hc'; apply Hown; by right|].
    unfold visit in Hv.
    destruct (Hlive p c) as [n Hn]; [apply Hown; by left|]. rewrite Hn in Hv.
    destruct Hv as (l1 & H1 & ->).
    assert (∀ x, x ∈ c :: l1 → rtc (owns s) c x) as Hbelow.
    { intros x [->|Hx]%elem_of_cons; [done|].
      apply tc_rtc. by destruct (preorder_sound _ _ _ _ _ H1 Hx). }
    split.
    - apply NoDup_app. split_and!; [|  |done].
      + apply NoDup_cons. split; [|by eapply IH].
        intros Hin. destruct (preorder_sound _ _ _ _ _ H1 Hin) as [Ht _].
        by apply (preorder_acyclic _ _ _ H1).
      + intros x Hx Hx'. apply IH2 in Hx' as (c' & Hc' & Hx').
        destruct (siblings_apart p c c' x) as [->|Hcyc];
          [apply Hown; by left|apply Hown; by right|by apply Hbelow|done|done|done].
    - intros x [Hx|Hx]%elem_of_app.
      + exists c. split; [by left|by apply Hbelow].
      + destruct (IH2 x Hx) as (c' & Hc' & Hx'). exists c'. split; [by right|done]. }
  by destruct (Hparts (children_of s p) parts (Hnd p) ltac:(done) Hf).
Qed.

End OneOwner.

(** X13: where no node stands in two children sequences or twice in
    one, a [finalize] that returns has finalized each node of the tree
    exactly once, whatever [Node::finalize] does. *)
Theorem X13_finalize_each_node_once
    (Node_finalize : Store → NodeCacheMap → NodePtr → result unit) (d d' : Doxygen) :
  live_children (nodes d) → one_owner (nodes d) →
  (∀ p, NoDup (children_of (nodes d) p)) →
  finalize Node_finalize d = Return d' →
  ∃ l, d' = finalized d l ∧ NoDup l ∧ ∀ q, q ∈ l ↔ in_tree d q.
Proof.
  intros Hlive Howner Hnd.
  destruct (preorder (length (nodes d)) (nodes d) (index d)) as [l|] eqn:E.
  2:{ unfold finalize.
      destruct (finalizeRecursively _ _ _ _) as [r|] eqn:Er; [|done]. intros ->.
      destruct (finalizeRecursively_deep _ _ _ _ _ Hlive E Er) as [H _].
      by destruct (H d'). }
  rewrite (finalize_preorder _ _ _ Hlive E). intros [-> _]%finalize_each_Return.
  exists l. split; [done|]. split; [by eapply preorder_NoDup|].
  intros q. split.
  - intros Hq. by destruct (preorder_sound _ _ _ _ _ E Hq).
  - intros Hq. by eapply preorder_complete.
Qed.

Lemma X13_finalize_each_node_once_witness :
  ∃ l, finalize SmallTree.finalize_ok SmallTree.d = Return (finalized SmallTree.d l)
       ∧ NoDup l ∧ ∀ q, q ∈ l ↔ in_tree SmallTree.d q.
Proof.
  destruct (X13_finalize_each_node_once SmallTree.finalize_ok SmallTree.d
              (finalized SmallTree.d [2; 1; 3]))
    as (l & Hl & Hnd & Hin).
  - live_children_by_cases.
  - intros p p' q H H'. unfold owns in H, H'.
    do 5 (try destruct p as [|p]); vm_compute in H;
      repeat (apply elem_of_cons in H as [->|H]); try (by apply elem_of_nil in H);
      do 5 (try destruct p' as [|p']); vm_compute in H';
      repeat (apply elem_of_cons in H' as [E|H']; [done|]);
      try done; by apply elem_of_nil in H'.
  - intros p. do 5 (try destruct p as [|p]); vm_compute;
      repeat (apply NoDup_cons_2; [by repeat (apply not_elem_of_cons; split; [done|]);
                                     apply not_elem_of_nil|]);
      apply NoDup_nil_2.
  - vm_compute. reflexivity.
  - exists l. split; [by rewrite <- Hl|]. split; [exact Hnd|exact Hin].
Defined.

(** *** When the traversals come back *)

Lemma preorder_reach_acyclic s fuel p l q :
  live_children s →
  preorder fuel s p = Some l → rtc (owns s) p q → ¬ tc (owns s) q q.
Proof.
  intros Hlive Hp Hq. revert fuel l Hp.
  induction Hq as [x|x y z Hxy Hyz IH]; intros fuel l Hp.
  - by eapply preorder_acyclic.
  - destruct fuel as [|fuel]; [done|].
    destruct (preorder_child s Hlive _ _ _ _ Hp Hxy) as (l1 & H1). by eapply IH.
Qed.

(** X14: the cache rebuild fails to return exactly when a cycle of
    children links can be reached from the root; so does [finalize]
    where [Node::finalize] returns on every node below the root. *)
Theorem X14_traversals_return_iff_acyclic (d : Doxygen) :
  live_children (nodes d) → is_Some (nodes d !! index d) →
  (rebuild_cache d = NoReturn
   ↔ ∃ q, rtc (owns (nodes d)) (index d) q ∧ tc (owns (nodes d)) q q)
  ∧ (∀ Node_finalize,
       (∀ q, in_tree d q → finalizes Node_finalize d q) →
       (finalize Node_finalize d = NoReturn
        ↔ ∃ q, rtc (owns (nodes d)) (index d) q ∧ tc (owns (nodes d)) q q)).
Proof.
  intros Hlive Hroot%lookup_lt_is_Some_1.
  assert (preorder (length (nodes d)) (nodes d) (index d) = None
          ↔ ∃ q, rtc (owns (nodes d)) (index d) q ∧ tc (owns (nodes d)) q q) as H.
  { split.
    - intros (l & Hlen & Hl)%preorder_None. apply (chain_cycle _ _ l); [done..|lia].
    - intros (q & Hq & Hcycle).
      destruct (preorder _ _ _) as [l|] eqn:E; [|done].
      by destruct (preorder_reach_acyclic _ _ _ _ _ Hlive E Hq). }
  split.
  - rewrite <- H. unfold rebuild_cache. simpl. rewrite getIndexCache_preorder.
    destruct (preorder _ _ _) as [l|]; simpl; by split.
  - intros Node_finalize Hall. rewrite <- H.
    destruct (preorder _ _ _) as [l|] eqn:E.
    + rewrite (finalize_preorder _ _ _ Hlive E).
      assert (finalize_each Node_finalize d l = Return (finalized d l)) as ->; [|done].
      apply finalize_each_Return. split; [done|]. apply Forall_forall. intros q Hq.
      apply Hall. by destruct (preorder_sound _ _ _ _ _ E Hq).
    + split; [done|]. intros _. unfold finalize.
      destruct (finalizeRecursively _ _ _ _) as [r|] eqn:Er; [|done].
      destruct (finalizeRecursively_deep _ _ _ _ _ Hlive E Er) as (_ & q & Hq & Hn).
      by destruct Hn; apply Hall.
Qed.

Lemma X14_traversals_return_iff_acyclic_witness :
  rebuild_cache Cycle.d = NoReturn ∧ finalize SmallTree.finalize_ok Cycle.d = NoReturn.
Proof.
  destruct (X14_traversals_return_iff_acyclic Cycle.d ltac:(live_children_by_cases)
              ltac:(by eexists)) as [H1 H2].
  assert (∃ q, rtc (owns (nodes Cycle.d)) (index Cycle.d) q
               ∧ tc (owns (nodes Cycle.d)) q q) as H.
  { exists 1. split.
    - apply rtc_once. by left.
    - apply (tc_l _ 1 2 1); [by left|]. apply tc_once. by left. }
  split; [by apply H1|]. apply (H2 SmallTree.finalize_ok); [|done].
  intros q _. by exists tt.
Defined.

(** *** Lookups after a load *)

Section Lookup.

Variable NDEBUG : bool.
Variable Path_join : string → string → string.
Variable Xml_open : string → exception + list Element.
Variable iteration : KindRefidMap → list (string * string).
Variable Node_parse :
  Store → NodeCacheMap → string → string → bool →
  Store * NodeCacheMap * (exception + NodePtr).

(** X15: after [load], whatever [Node::parse] did, [find] succeeds for
    the refid of every node of the tree. *)
Theorem X15_find_succeeds_after_load (d d' : Doxygen) (q : NodePtr) :
  load NDEBUG Path_join Xml_open iteration Node_parse d = Return d' →
  live_children (nodes d') →
  in_tree d' q →
  ∃ q', find d' (refid_of (nodes d') q) = Return q'.
Proof.
  unfold load. destruct (getIndexKinds _ _ _ d) as [[m w]| | |]; cbn [bind]; [|done..].
  generalize (after_dirs iteration Node_parse m
                (mkDoxygen (index d) (inputDir d) (cache d) (nodes d) (trace d ++ w))).
  intros d3. unfold rebuild_cache. cbn [emit nodes cache index].
  rewrite getIndexCache_preorder.
  destruct (preorder _ _ _) as [l|] eqn:E; [|done]. simpl. intros [= <-]. simpl.
  intros Hlive Hq. unfold find, in_tree in *. simpl in *.
  assert (q ∈ l) as Hl by by eapply preorder_complete.
  destruct (cache_fill_is_Some (nodes d3) (cache d3) l q Hl) as [q' ->]. by exists q'.
Qed.

End Lookup.

Lemma X15_find_succeeds_after_load_witness :
  ∃ d' q', Scenario.loaded = Return d' ∧ find d' (refid_of (nodes d') 1) = Return q'.
Proof.
  eexists.
  edestruct (X15_find_succeeds_after_load true Scenario.Path_join
               (λ _, inr Scenario.index_xml) id (Node_parse_spec Scenario.docs)
               (Doxygen_new "xml") _ 1 ltac:(vm_compute; reflexivity)) as [q' Hq'].
  - live_children_by_cases.
  - apply (tc_l _ _ 2); [|apply tc_once]; vm_compute; by left.
  - exists q'. split; [vm_compute; reflexivity|exact Hq'].
Defined.

(** ** The renderer *)

Section RendererFacts.

Context {Template json Environment : Type}.
Variable what : exception → string.
Variable Path_join : string → string → string.
Variable fstream_open : string → bool.
Variable Environment_new : Environment.
Variable Environment_parse : Environment → string → Environment * result Template.
Variable Environment_include_template : Environment → string → Template → Environment.
Variable Environment_render_to :
  gmap string Template → Environment → Template → json → string * result unit.

Local Abbreviation addTemplate' :=
  (addTemplate what Environment_parse Environment_include_template).
Local Abbreviation addTemplates' :=
  (addTemplates what Environment_parse Environment_include_template).
Local Abbreviation render' := (render what Environment_render_to).
Local Abbreviation render_file' :=
  (render_file what Path_join fstream_open Environment_render_to).

Lemma templates_insert_subseteq {V} k (v : V) m : m ⊆ templates_insert k v m.
Proof.
  unfold templates_insert. destruct (m !! k) eqn:E; [done|]. by apply insert_subseteq.
Qed.

Lemma templates_insert_lookup {V} k (v : V) m :
  templates_insert k v m !! k = Some (default v (m !! k)).
Proof.
  unfold templates_insert. destruct (m !! k) eqn:E; simpl; [done|].
  by rewrite lookup_insert_eq.
Qed.

Lemma templates_insert_lookup_ne {V} k (v : V) m k' :
  k' ≠ k → templates_insert k v m !! k' = m !! k'.
Proof.
  intros Hne. unfold templates_insert. destruct (m !! k); [done|].
  by rewrite lookup_insert_ne.
Qed.

Lemma addTemplate_subseteq (r : Renderer) name src :
  templates r ⊆ templates (addTemplate' r name src).1.
Proof.
  unfold addTemplate. destruct (Environment_parse _ _) as [e [tmpl| | |]]; simpl; try done.
  apply templates_insert_subseteq.
Qed.

Lemma addTemplates_subseteq l (r : Renderer) :
  templates r ⊆ templates (addTemplates' r l).
Proof.
  revert r. induction l as [|[n src] l IH]; intros r; simpl; [done|].
  etrans; [apply addTemplate_subseteq|apply IH].
Qed.

Lemma addTemplate_lookup_ne (r : Renderer) name src name' :
  name' ≠ name → templates (addTemplate' r name src).1 !! name' = templates r !! name'.
Proof.
  intros Hne. unfold addTemplate.
  destruct (Environment_parse _ _) as [e [tmpl| | |]]; simpl; try done.
  by apply templates_insert_lookup_ne.
Qed.

Lemma addTemplates_not_named l (r : Renderer) name :
  (∀ src, (name, src) ∉ l) →
  templates (addTemplates' r l) !! name = templates r !! name.
Proof.
  revert r. induction l as [|[n src] l IH]; intros r Hl; simpl; [done|].
  rewrite IH.
  - apply addTemplate_lookup_ne. intros ->. apply (Hl src). by left.
  - intros src' Hin. apply (Hl src'). by right.
Qed.

(** X16: once [addTemplate] has parsed a template for a name, the
    template held under that name is the one that was there before, if
    any, and else the new one; no later [addTemplate] changes it. *)
Theorem X16_addTemplate_keeps_first (r : Renderer) (name src : string)
    (l : list (string * string)) (e : Environment) (tmpl : Template) :
  Environment_parse (env r) src = (e, Return tmpl) →
  (addTemplate' r name src).2 = Return tt
  ∧ templates (addTemplates' (addTemplate' r name src).1 l) !! name
    = Some (default tmpl (templates r !! name)).
Proof.
  intros Hp.
  assert (templates (addTemplate' r name src).1 !! name
          = Some (default tmpl (templates r !! name))) as H.
  { unfold addTemplate. rewrite Hp. simpl. apply templates_insert_lookup. }
  split; [unfold addTemplate; by rewrite Hp|].
  eapply lookup_weaken; [done|apply addTemplates_subseteq].
Qed.

(** X17: rendering a name for which no [addTemplate] call was made
    throws "Template {} not found"; the file overload then opens no file
    and logs nothing. *)
Theorem X17_render_unknown_template (dir name : string) (l : list (string * string))
    (o : Output) (path : string) (data : json) :
  (∀ src, (name, src) ∉ l) →
  render' (addTemplates' (Renderer_new Environment_new dir) l) name data
  = Throw (EXCEPTION "Template {} not found" [name])
  ∧ render_file' (addTemplates' (Renderer_new Environment_new dir) l) o name path data
    = (o, Throw (EXCEPTION "Template {} not found" [name])).
Proof.
  intros Hl. unfold render, render_file.
  rewrite (addTemplates_not_named l _ name Hl). simpl. by rewrite lookup_empty.
Qed.

(** X18: rendering to a file touches no file but the one at the joined
    path and leaves the output alone when that file cannot be opened;
    when it can, the call ends as rendering to a string ends, and on
    success the file holds that string. *)
Theorem X18_render_file_as_render (r : Renderer) (o : Output) (name path : string)
    (data : json) :
  let absPath := Path_join (outputDir r) path in
  (∀ p, p ≠ absPath → files (render_file' r o name path data).1 !! p = files o !! p)
  ∧ (fstream_open absPath = false →
     (render_file' r o name path data).1 = o
     ∧ ∃ x, (render_file' r o name path data).2 = Throw x)
  ∧ (fstream_open absPath = true →
     match render' r name data with
     | Return text =>
         render_file' r o name path data
         = (mkOutput (<[absPath := text]> (files o))
                     (Log_i o ++ [("Rendering {}", [absPath])]),
            Return tt)
     | failed => (render_file' r o name path data).2 = bind failed (λ _, Return tt)
     end).
Proof.
  intros absPath. unfold render_file, render. fold absPath.
  destruct (templates r !! name) as [tmpl|]; simpl.
  2:{ split_and!; [done| |done]. intros _. split; [done|by eexists]. }
  destruct (fstream_open absPath); simpl.
  - destruct (Environment_render_to _ _ _ _) as [text [[]| | |]]; simpl.
    + split_and!; [|done..]. intros p Hp. by rewrite lookup_insert_ne.
    + split_and!; [|done..]. intros p Hp. by rewrite lookup_insert_ne.
    + split_and!; [|done..]. intros p Hp. by rewrite lookup_insert_ne.
    + split_and!; [|done..]. intros p Hp. by rewrite lookup_insert_ne.
  - split_and!; [done| |done]. intros _. split; [done|by eexists].
Qed.

End RendererFacts.

Lemma X16_addTemplate_keeps_first_witness :
  templates (addTemplates Plain.what Plain.parse Plain.include_template
               (addTemplate Plain.what Plain.parse Plain.include_template
                  Plain.renderer "a" "first").1
               [("b", "other"); ("a", "second")]) !! "a"
  = Some "first".
Proof.
  exact (proj2 (X16_addTemplate_keeps_first Plain.what Plain.parse Plain.include_template
                  Plain.renderer "a" "first" [("b", "other"); ("a", "second")] 0 "first"
                  eq_refl)).
Defined.

Lemma X17_render_unknown_template_witness :
  render Plain.what Plain.render_to
    (addTemplates Plain.what Plain.parse Plain.include_template
       Plain.renderer [("a", "first")]) "b" "data"
  = Throw (EXCEPTION "Template {} not found" ["b"]).
Proof.
  refine (proj1 (X17_render_unknown_template Plain.what Scenario.Path_join (λ _, true) 0
                   Plain.parse Plain.include_template Plain.render_to
                   "out" "b" [("a", "first")] (mkOutput ∅ []) "b.md" "data" _)).
  intros src H. apply list_elem_of_singleton in H. discriminate H.
Defined.

(** *** The callbacks *)

Section Callbacks.

Context {json : Type}.
Variable get_string : json → result string.
Variable items : json → list json.
Variable at_key : json → string → result json.
Variable equals_string : json → string → bool.
Variable out_of_range : exception.

Local Abbreviation countProperty' :=
  (countProperty get_string items at_key equals_string out_of_range).
Local Abbreviation countProperty2' :=
  (countProperty2 get_string items at_key equals_string out_of_range).
Local Abbreviation queryProperty' :=
  (queryProperty get_string items at_key equals_string out_of_range).
Local Abbreviation queryProperty2' :=
  (queryProperty2 get_string items at_key equals_string out_of_range).
Local Abbreviation has_property' := (has_property at_key equals_string).

Lemma count_as_query key value l n acc :
  n = length acc →
  foldM (λ count obj,
           bind (at_key obj key) (λ val,
             Return (if equals_string val value then S count else count))) n l
  = bind (foldM (λ ret obj,
                   bind (at_key obj key) (λ val,
                     Return (if equals_string val value then ret ++ [obj] else ret)))
                acc l)
         (λ ret : list json, Return (length ret)).
Proof.
  revert n acc. induction l as [|obj l IH]; intros n acc ->; simpl; [done|].
  destruct (at_key obj key) as [val| | |]; simpl; [|done..].
  apply IH. destruct (equals_string val value); [|done].
  rewrite length_app. simpl. lia.
Qed.

Lemma count2_as_query2 key0 value0 key1 value1 l n acc :
  n = length acc →
  foldM (λ count obj,
           bind (at_key obj key0) (λ val0,
             if equals_string val0 value0
             then bind (at_key obj key1) (λ val1,
                    Return (if equals_string val1 value1 then S count else count))
             else Return count)) n l
  = bind (foldM (λ ret obj,
                   bind (at_key obj key0) (λ val0,
                     if equals_string val0 value0
                     then bind (at_key obj key1) (λ val1,
                            Return (if equals_string val1 value1 then ret ++ [obj] else ret))
                     else Return ret))
                acc l)
         (λ ret : list json, Return (length ret)).
Proof.
  revert n acc. induction l as [|obj l IH]; intros n acc ->; simpl; [done|].
  destruct (at_key obj key0) as [val0| | |]; simpl; [|done..].
  destruct (equals_string val0 value0); [|by apply IH].
  destruct (at_key obj key1) as [val1| | |]; simpl; [|done..].
  apply IH. destruct (equals_string val1 value1); [|done].
  rewrite length_app. simpl. lia.
Qed.

(** X19: [countProperty] returns the number of items that
    [queryProperty] returns and fails as it fails; the same holds of
    [countProperty2] and [queryProperty2]. *)
Theorem X19_countProperty_counts_queryProperty (args : list json) :
  countProperty' args = bind (queryProperty' args) (λ ret, Return (length ret))
  ∧ countProperty2' args = bind (queryProperty2' args) (λ ret, Return (length ret)).
Proof.
  split.
  - unfold countProperty, queryProperty.
    destruct (args_at out_of_range args 0) as [arr| | |]; simpl; [|done..].
    destruct (bind (args_at out_of_range args 1) get_string) as [key| | |]; simpl; [|done..].
    destruct (bind (args_at out_of_range args 2) get_string) as [value| | |]; simpl; [|done..].
    by apply count_as_query.
  - unfold countProperty2, queryProperty2.
    destruct (args_at out_of_range args 0) as [arr| | |]; simpl; [|done..].
    destruct (bind (args_at out_of_range args 1) get_string) as [key0| | |]; simpl; [|done..].
    destruct (bind (args_at out_of_range args 2) get_string) as [value0| | |]; simpl; [|done..].
    destruct (bind (args_at out_of_range args 3) get_string) as [key1| | |]; simpl; [|done..].
    destruct (bind (args_at out_of_range args 4) get_string) as [value1| | |]; simpl; [|done..].
    by apply count2_as_query2.
Qed.

Lemma has_property_Return key value obj val :
  at_key obj key = Return val → has_property' key value obj = equals_string val value.
Proof. unfold has_property. by intros ->. Qed.

Lemma foldM_query key value l acc ret :
  foldM (λ ret obj,
           bind (at_key obj key) (λ val,
             Return (if equals_string val value then ret ++ [obj] else ret))) acc l
  = Return ret
  ↔ Forall (λ obj, ∃ val, at_key obj key = Return val) l
    ∧ ret = acc ++ filter (λ obj, has_property' key value obj = true) l.
Proof.
  revert acc. induction l as [|obj l IH]; intros acc; simpl.
  { rewrite filter_nil, app_nil_r. split; [intros [= <-]; by split|by intros [_ ->]]. }
  rewrite Forall_cons.
  destruct (at_key obj key) as [val|e| |] eqn:E; simpl.
  2-4: split; [done|]; by intros [[[? ?] _] _].
  pose proof (has_property_Return key value obj val E) as Hh.
  rewrite IH. destruct (equals_string val value); simpl.
  - rewrite filter_cons_True by done. rewrite <- app_assoc. simpl.
    split; [intros [? ->]|intros [[_ ?] ->]]; eauto.
  - rewrite filter_cons_False by by rewrite Hh.
    split; [intros [? ->]|intros [[_ ?] ->]]; eauto.
Qed.

Lemma foldM_query2 key0 value0 key1 value1 l acc ret :
  foldM (λ ret obj,
           bind (at_key obj key0) (λ val0,
             if equals_string val0 value0
             then bind (at_key obj key1) (λ val1,
                    Return (if equals_string val1 value1 then ret ++ [obj] else ret))
             else Return ret)) acc l
  = Return ret
  ↔ Forall (λ obj, ∃ val, at_key obj key0 = Return val) l
    ∧ Forall (λ obj, ∃ val, at_key obj key1 = Return val)
             (filter (λ obj, has_property' key0 value0 obj = true) l)
    ∧ ret = acc ++ filter (λ obj, has_property' key1 value1 obj = true)
                     (filter (λ obj, has_property' key0 value0 obj = true) l).
Proof.
  revert acc. induction l as [|obj l IH]; intros acc; simpl.
  { rewrite !filter_nil, app_nil_r.
    split; [intros [= <-]; by split_and!|by intros (_ & _ & ->)]. }
  rewrite Forall_cons.
  destruct (at_key obj key0) as [val0|e| |] eqn:E0; simpl.
  2-4: split; [done|]; by intros [[[? ?] _] _].
  pose proof (has_property_Return key0 value0 obj val0 E0) as Hh0.
  destruct (equals_string val0 value0); simpl.
  2:{ rewrite (filter_cons_False _ obj l) by by rewrite Hh0.
      rewrite IH. split; [intros (? & ? & ->)|intros ([_ ?] & ? & ->)]; eauto 10. }
  rewrite (filter_cons_True _ obj l) by done. rewrite Forall_cons.
  destruct (at_key obj key1) as [val1|e| |] eqn:E1; simpl.
  2-4: split; [done|]; by intros (_ & [[? ?] _] & _).
  pose proof (has_property_Return key1 value1 obj val1 E1) as Hh1.
  rewrite IH. destruct (equals_string val1 value1); simpl.
  - rewrite filter_cons_True by done. rewrite <- app_assoc. simpl.
    split; [intros (? & ? & ->)|intros ([_ ?] & [_ ?] & ->)]; eauto 10.
  - rewrite filter_cons_False by by rewrite Hh1.
    split; [intros (? & ? & ->)|intros ([_ ?] & [_ ?] & ->)]; eauto 10.
Qed.

(** X20: [queryProperty] returns exactly when its arguments can be read
    and every element has the member [key]; it then returns, in their
    order, the items whose member equals [value]. *)
Theorem X20_queryProperty_returns (args ret : list json) :
  queryProperty' args = Return ret
  ↔ ∃ arr key value,
      args_at out_of_range args 0 = Return arr
      ∧ bind (args_at out_of_range args 1) get_string = Return key
      ∧ bind (args_at out_of_range args 2) get_string = Return value
      ∧ Forall (λ obj, ∃ val, at_key obj key = Return val) (items arr)
      ∧ ret = filter (λ obj, has_property' key value obj = true) (items arr).
Proof.
  unfold queryProperty.
  destruct (args_at out_of_range args 0) as [arr| | |]; simpl.
  2-4: split; [done|]; by intros (? & ? & ? & ? & _).
  destruct (bind (args_at out_of_range args 1) get_string) as [key| | |]; simpl.
  2-4: split; [done|]; by intros (? & ? & ? & _ & ? & _).
  destruct (bind (args_at out_of_range args 2) get_string) as [value| | |]; simpl.
  2-4: split; [done|]; by intros (? & ? & ? & _ & _ & ? & _).
  rewrite foldM_query. simpl. split.
  - intros [HF ->]. by exists arr, key, value.
  - by intros (? & ? & ? & [= <-] & [= <-] & [= <-] & HF & ->).
Qed.

(** X21: [queryProperty2] returns exactly when its arguments can be
    read, every element has the member [key0] and every element that
    passes the first comparison has the member [key1]; it then returns,
    in their order, the items that pass both comparisons. *)
Theorem X21_queryProperty2_returns (args ret : list json) :
  queryProperty2' args = Return ret
  ↔ ∃ arr key0 value0 key1 value1,
      args_at out_of_range args 0 = Return arr
      ∧ bind (args_at out_of_range args 1) get_string = Return key0
      ∧ bind (args_at out_of_range args 2) get_string = Return value0
      ∧ bind (args_at out_of_range args 3) get_string = Return key1
      ∧ bind (args_at out_of_range args 4) get_string = Return value1
      ∧ Forall (λ obj, ∃ val, at_key obj key0 = Return val) (items arr)
      ∧ Forall (λ obj, ∃ val, at_key obj key1 = Return val)
               (filter (λ obj, has_property' key0 value0 obj = true) (items arr))
      ∧ ret = filter (λ obj, has_property' key1 value1 obj = true)
                (filter (λ obj, has_property' key0 value0 obj = true) (items arr)).
Proof.
  unfold queryProperty2.
  destruct (args_at out_of_range args 0) as [arr| | |]; simpl.
  2-4: split; [done|]; by intros (? & ? & ? & ? & ? & ? & _).
  destruct (bind (args_at out_of_range args 1) get_string) as [key0| | |]; simpl.
  2-4: split; [done|]; by intros (? & ? & ? & ? & ? & _ & ? & _).
  destruct (bind (args_at out_of_range args 2) get_string) as [value0| | |]; simpl.
  2-4: split; [done|]; by intros (? & ? & ? & ? & ? & _ & _ & ? & _).
  destruct (bind (args_at out_of_range args 3) get_string) as [key1| | |]; simpl.
  2-4: split; [done|]; by intros (? & ? & ? & ? & ? & _ & _ & _ & ? & _).
  destruct (bind (args_at out_of_range args 4) get_string) as [value1| | |]; simpl.
  2-4: split; [done|]; by intros (? & ? & ? & ? & ? & _ & _ & _ & _ & ? & _).
  rewrite foldM_query2. simpl. split.
  - intros (HF & HF' & ->). by exists arr, key0, value0, key1, value1.
  - by intros (? & ? & ? & ? & ? & [= <-] & [= <-] & [= <-] & [= <-] & [= <-] & HF & HF' & ->).
Qed.

End Callbacks.
